(** * WebRTC object detection: frame pipeline, tracker and metrics

    A shallow embedding of three parts of the repository:

    - [Tracker]: the browser-side [ObjectTracker] class (IoU, greedy
      association, track life cycle);
    - [Metrics]: the server-side [MetricsService] (counters, rolling
      window, latency statistics);
    - [Pipeline]: the server-side [WebRTCService] (frame queue, the
      [isProcessing] flag, the timer) together with the [phone-stream]
      socket handler that feeds its results to the metrics service.

    JavaScript numbers are modelled exactly: box coordinates, scores and
    IoU values are rationals ([Q]), timestamps and latencies are integers
    ([Z]), counters are naturals.  Rounding of IEEE doubles is outside
    this model.  [Binary64] has [calculateIoU] once more on binary64
    numbers, to show where the two differ.

    A second part covers more of the same code: the life of a track
    through one cycle ([TrackerLife]), the metrics service with its
    report timer ([Collection]), the connection registry and [cleanup]
    of the frame service ([Service]), the mock detections, the
    letterbox and the post-processing of the inference service
    ([Inference]), and the error handling of [detectObjects]
    ([Detector]). *)

From stdpp Require Import base tactics option list gmap strings sorting.
From Stdlib Require Import ZArith QArith Qminmax Qround Lia Lqa.
From Stdlib Require PrimFloat.

#[local] Open Scope Q_scope.

(** Strict comparison on rationals, the model of JavaScript's [<]. *)
Definition Qltb (x y : Q) : bool :=
  match x ?= y with Lt => true | _ => false end.

(** Non-strict comparison, the model of JavaScript's [<=]. *)
Definition Qleb (x y : Q) : bool := negb (Qltb y x).

(** A frame identifier is a string or a number. *)
Inductive FrameId :=
| FrameNum (n : Z)
| FrameStr (s : string).

Module Tracker.

(** ** Data *)

Record Box := mkBox { xmin : Q; ymin : Q; xmax : Q; ymax : Q }.

(** A detection handed to [update]: the four box fields, a label and a
    score. *)
Record Detection := mkDetection {
  box : Box;
  dlabel : string;
  dscore : Q
}.

Record Velocity := mkVelocity { vx : Q; vy : Q }.

Record Track := mkTrack {
  id : positive;
  bbox : Detection;
  label : string;
  score : Q;
  prediction : Box;
  velocity : Velocity;
  timeSinceUpdate : nat;
  hits : nat;
  age : nat;
  firstFrameId : FrameId;
  lastFrameId : FrameId;
  createdAt : Z;
  lastUpdateTime : Z
}.

Record HistoryEntry := mkHistoryEntry {
  h_bbox : Detection;
  h_timestamp : Z;
  h_frameId : FrameId
}.

(** [tracks] is a JavaScript [Map]: iteration follows insertion order, so
    it is a list here; [trackHistory] is only read and written by key. *)
Record ObjectTracker := mkObjectTracker {
  tracks : list Track;
  nextTrackId : positive;
  maxAge : nat;
  minHits : nat;
  iouThreshold : Q;
  trackHistory : gmap positive (list HistoryEntry)
}.

Record Options := mkOptions {
  opt_maxAge : option nat;
  opt_minHits : option nat;
  opt_iouThreshold : option Q
}.

(** [options.x || d]: a missing or zero option takes the default. *)
Definition or_default_nat (o : option nat) (d : nat) : nat :=
  match o with
  | Some (S n) => S n
  | _ => d
  end.

Definition or_default_Q (o : option Q) (d : Q) : Q :=
  match o with
  | Some q => if Qeq_bool q 0 then d else q
  | None => d
  end.

Definition new_ObjectTracker (options : Options) : ObjectTracker :=
  {| tracks := [];
     nextTrackId := 1%positive;
     maxAge := or_default_nat (opt_maxAge options) 30;
     minHits := or_default_nat (opt_minHits options) 3;
     iouThreshold := or_default_Q (opt_iouThreshold options) (3 # 10);
     trackHistory := ∅ |}.

(** ** calculateIoU *)

Definition calculateIoU (box1 box2 : Box) : Q :=
  let x1 := Qmax (xmin box1) (xmin box2) in
  let y1 := Qmax (ymin box1) (ymin box2) in
  let x2 := Qmin (xmax box1) (xmax box2) in
  let y2 := Qmin (ymax box1) (ymax box2) in
  if Qleb x2 x1 || Qleb y2 y1 then 0
  else
    let intersection := (x2 - x1) * (y2 - y1) in
    let area1 := (xmax box1 - xmin box1) * (ymax box1 - ymin box1) in
    let area2 := (xmax box2 - xmin box2) * (ymax box2 - ymin box2) in
    let union := area1 + area2 - intersection in
    intersection / union.

(** ** associate *)

(** [costMatrix[i][j] = 1 - IoU(track.prediction, detection)]. *)
Definition costMatrix (ts : list Track) (detections : list Detection)
  : list (list Q) :=
  map (fun track =>
         map (fun detection =>
                1 - calculateIoU (prediction track) (box detection))
             detections)
      ts.

(** A JavaScript [Set] of indices, in insertion order. *)
Definition set_has (s : list nat) (j : nat) : bool := existsb (Nat.eqb j) s.
Definition set_delete (s : list nat) (j : nat) : list nat :=
  List.filter (fun k => negb (Nat.eqb j k)) s.

(** The pair [(bestJ, bestCost)]; [None] stands for [(-1, Infinity)]. *)
Definition improves (c : Q) (best : option (nat * Q)) : bool :=
  match best with
  | None => true
  | Some (_, bestCost) => Qltb c bestCost
  end.

(** The inner loop over [j], started at column [j] of the row. *)
Fixpoint bestMatch (row : list Q) (j : nat) (unmatchedDetections : list nat)
  (best : option (nat * Q)) : option (nat * Q) :=
  match row with
  | [] => best
  | c :: row' =>
      let best' :=
        if set_has unmatchedDetections j && improves c best
        then Some (j, c) else best in
      bestMatch row' (S j) unmatchedDetections best'
  end.

Record Matches := mkMatches {
  matched : list (nat * nat);
  unmatchedTracks : list nat;
  unmatchedDetections : list nat
}.

(** One iteration of the outer loop, for track index [i]. *)
Definition assignTrack (threshold : Q) (i : nat) (row : list Q) (m : Matches)
  : Matches :=
  match bestMatch row 0 (unmatchedDetections m) None with
  | Some (bestJ, bestCost) =>
      if Qltb bestCost (1 - threshold)
      then {| matched := matched m ++ [(i, bestJ)];
              unmatchedTracks := set_delete (unmatchedTracks m) i;
              unmatchedDetections := set_delete (unmatchedDetections m) bestJ |}
      else m
  | None => m
  end.

(** The outer loop over [i], started at row [i] of the matrix. *)
Fixpoint assignFrom (threshold : Q) (rows : list (list Q)) (i : nat)
  (m : Matches) : Matches :=
  match rows with
  | [] => m
  | row :: rows' =>
      assignFrom threshold rows' (S i) (assignTrack threshold i row m)
  end.

Definition associate (t : ObjectTracker) (detections : list Detection)
  : Matches :=
  assignFrom (iouThreshold t) (costMatrix (tracks t) detections) 0
    {| matched := [];
       unmatchedTracks := seq 0 (length (tracks t));
       unmatchedDetections := seq 0 (length detections) |}.

(** ** predict *)

Definition predictTrack (track : Track) : Track :=
  let dt := 1 in
  let b := box (bbox track) in
  let v := velocity track in
  {| id := id track; bbox := bbox track; label := label track;
     score := score track;
     prediction := {| xmin := xmin b + vx v * dt;
                      ymin := ymin b + vy v * dt;
                      xmax := xmax b + vx v * dt;
                      ymax := ymax b + vy v * dt |};
     velocity := velocity track;
     timeSinceUpdate := timeSinceUpdate track;
     hits := hits track; age := age track;
     firstFrameId := firstFrameId track; lastFrameId := lastFrameId track;
     createdAt := createdAt track; lastUpdateTime := lastUpdateTime track |}.

Definition with_tracks (t : ObjectTracker) (ts : list Track) : ObjectTracker :=
  {| tracks := ts; nextTrackId := nextTrackId t; maxAge := maxAge t;
     minHits := minHits t; iouThreshold := iouThreshold t;
     trackHistory := trackHistory t |}.

Definition predict (t : ObjectTracker) : ObjectTracker :=
  with_tracks t (map predictTrack (tracks t)).

(** ** updateTrack *)

(** The fields of the track object that [updateTrack] assigns. *)
Definition updatedTrack (track : Track) (detection : Detection)
  (frameId : FrameId) (currentTime : Z) : Track :=
  {| id := id track;
     bbox := detection;
     label := label track;
     score := dscore detection;
     prediction := prediction track;
     velocity := {| vx := xmin (box detection) - xmin (box (bbox track));
                    vy := ymin (box detection) - ymin (box (bbox track)) |};
     timeSinceUpdate := 0;
     hits := hits track + 1;
     age := age track;
     firstFrameId := firstFrameId track;
     lastFrameId := frameId;
     createdAt := createdAt track;
     lastUpdateTime := currentTime |}.

(** The trajectory kept for a track: push, then drop the oldest entry
    once more than 50 are stored. *)
Definition pushHistory (history : list HistoryEntry) (e : HistoryEntry)
  : list HistoryEntry :=
  let history' := history ++ [e] in
  if (50 <? length history')%nat then tl history' else history'.

(** [updateTrack] on the track at position [trackIdx] of the registry. *)
Definition updateTrack (t : ObjectTracker) (trackIdx : nat)
  (detection : Detection) (frameId : FrameId) (currentTime : Z)
  : ObjectTracker :=
  match tracks t !! trackIdx with
  | None => t
  | Some track =>
      let history := default [] (trackHistory t !! id track) in
      let entry := {| h_bbox := detection; h_timestamp := currentTime;
                      h_frameId := frameId |} in
      {| tracks := <[trackIdx := updatedTrack track detection frameId currentTime]>
                     (tracks t);
         nextTrackId := nextTrackId t; maxAge := maxAge t;
         minHits := minHits t; iouThreshold := iouThreshold t;
         trackHistory := <[id track := pushHistory history entry]>
                           (trackHistory t) |}
  end.

(** ** createTrack *)

(** [Map.prototype.set] on the registry: an existing key keeps its place,
    a new key goes last. *)
Fixpoint tracks_set (k : positive) (v : Track) (ts : list Track)
  : list Track :=
  match ts with
  | [] => [v]
  | track :: ts' =>
      if Pos.eqb (id track) k then v :: ts' else track :: tracks_set k v ts'
  end.

Definition createTrack (t : ObjectTracker) (detection : Detection)
  (frameId : FrameId) (currentTime : Z) : ObjectTracker :=
  let track :=
    {| id := nextTrackId t;
       bbox := detection;
       label := dlabel detection;
       score := dscore detection;
       prediction := box detection;
       velocity := {| vx := 0; vy := 0 |};
       timeSinceUpdate := 0;
       hits := 1;
       age := 0;
       firstFrameId := frameId;
       lastFrameId := frameId;
       createdAt := currentTime;
       lastUpdateTime := currentTime |} in
  {| tracks := tracks_set (id track) track (tracks t);
     nextTrackId := Pos.succ (nextTrackId t);
     maxAge := maxAge t; minHits := minHits t;
     iouThreshold := iouThreshold t;
     trackHistory :=
       <[id track := [{| h_bbox := detection; h_timestamp := currentTime;
                         h_frameId := frameId |}]]> (trackHistory t) |}.

(** ** pruneOldTracks *)

Definition growOlder (track : Track) : Track :=
  {| id := id track; bbox := bbox track; label := label track;
     score := score track; prediction := prediction track;
     velocity := velocity track;
     timeSinceUpdate := timeSinceUpdate track;
     hits := hits track; age := age track + 1;
     firstFrameId := firstFrameId track; lastFrameId := lastFrameId track;
     createdAt := createdAt track; lastUpdateTime := lastUpdateTime track |}.

(** The test made on a track right after its age was incremented. *)
Definition shouldRemove (t : ObjectTracker) (track : Track) : bool :=
  (maxAge t <? timeSinceUpdate track)%nat
  || ((hits track <? minHits t)%nat && (10 <? age track)%nat).

Definition tracks_delete (k : positive) (ts : list Track) : list Track :=
  List.filter (fun track => negb (Pos.eqb (id track) k)) ts.

Definition pruneOldTracks (t : ObjectTracker) : ObjectTracker :=
  let aged := map growOlder (tracks t) in
  let toRemove := map id (List.filter (shouldRemove t) aged) in
  {| tracks := fold_left (fun ts k => tracks_delete k ts) toRemove aged;
     nextTrackId := nextTrackId t; maxAge := maxAge t;
     minHits := minHits t; iouThreshold := iouThreshold t;
     trackHistory := fold_left (fun h k => delete k h) toRemove (trackHistory t) |}.

(** ** getConfirmedTracks *)

Record ConfirmedTrack := mkConfirmedTrack {
  c_box : Box;
  trackId : positive;
  c_label : string;
  c_score : Q;
  c_age : nat;
  c_velocity : Velocity;
  trajectory : list HistoryEntry
}.

Definition confirmed (t : ObjectTracker) (track : Track) : bool :=
  (minHits t <=? hits track)%nat.

Definition getConfirmedTracks (t : ObjectTracker) : list ConfirmedTrack :=
  map (fun track =>
         {| c_box := box (bbox track);
            trackId := id track;
            c_label := label track;
            c_score := score track;
            c_age := age track;
            c_velocity := velocity track;
            trajectory := default [] (trackHistory t !! id track) |})
      (List.filter (confirmed t) (tracks t)).

(** ** update *)

Definition markLost (track : Track) : Track :=
  {| id := id track; bbox := bbox track; label := label track;
     score := score track; prediction := prediction track;
     velocity := velocity track;
     timeSinceUpdate := timeSinceUpdate track + 1;
     hits := hits track; age := age track;
     firstFrameId := firstFrameId track; lastFrameId := lastFrameId track;
     createdAt := createdAt track; lastUpdateTime := lastUpdateTime track |}.

(** The three [forEach] loops of [update].  An index that [associate]
    returns is within range (see [TrackerFacts.associate_in_range]), so
    the [None] branches below are never taken. *)
Definition updateMatched (detections : list Detection) (frameId : FrameId)
  (currentTime : Z) (t : ObjectTracker) (pairs : list (nat * nat))
  : ObjectTracker :=
  fold_left (fun t '(trackIdx, detIdx) =>
               match detections !! detIdx with
               | Some detection =>
                   updateTrack t trackIdx detection frameId currentTime
               | None => t
               end)
            pairs t.

Definition createUnmatched (detections : list Detection) (frameId : FrameId)
  (currentTime : Z) (t : ObjectTracker) (detIdxs : list nat)
  : ObjectTracker :=
  fold_left (fun t detIdx =>
               match detections !! detIdx with
               | Some detection => createTrack t detection frameId currentTime
               | None => t
               end)
            detIdxs t.

Definition markUnmatched (t : ObjectTracker) (trackIdxs : list nat)
  : ObjectTracker :=
  fold_left (fun t trackIdx => with_tracks t (alter markLost trackIdx (tracks t)))
            trackIdxs t.

(** The tracker after one cycle; [update] returns [getConfirmedTracks]
    of that state. *)
Definition cycle (t : ObjectTracker) (detections : list Detection)
  (frameId : FrameId) (currentTime : Z) : ObjectTracker :=
  let t1 := predict t in
  let matches := associate t1 detections in
  let t2 := updateMatched detections frameId currentTime t1 (matched matches) in
  let t3 := createUnmatched detections frameId currentTime t2
              (unmatchedDetections matches) in
  let t4 := markUnmatched t3 (unmatchedTracks matches) in
  pruneOldTracks t4.

Definition update (t : ObjectTracker) (detections : list Detection)
  (frameId : FrameId) (currentTime : Z)
  : ObjectTracker * list ConfirmedTrack :=
  let t' := cycle t detections frameId currentTime in
  (t', getConfirmedTracks t').

(** ** Runs of the tracker *)

Definition Batch : Type := list Detection * FrameId * Z.

Definition cycles (t : ObjectTracker) (batches : list Batch) : ObjectTracker :=
  fold_left (fun t '(detections, frameId, currentTime) =>
               cycle t detections frameId currentTime)
            batches t.

(** The trackers a program can hold: a new one, run through any number
    of [update] calls. *)
Definition reachable (t : ObjectTracker) : Prop :=
  exists options batches, t = cycles (new_ObjectTracker options) batches.

Definition live (t : ObjectTracker) (i : positive) : Prop :=
  In i (map id (tracks t)).

Definition exposed (t : ObjectTracker) (i : positive) : Prop :=
  In i (map trackId (getConfirmedTracks t)).

(** The track with identifier [i] is paired with a detection by the
    association step of the cycle run on [t]. *)
Definition matchedIn (t : ObjectTracker) (detections : list Detection)
  (i : positive) : Prop :=
  exists trackIdx detIdx track,
    In (trackIdx, detIdx) (matched (associate (predict t) detections)) /\
    tracks (predict t) !! trackIdx = Some track /\
    id track = i.

(** [streak i k t]: [t] is the tracker after the [k]-th cycle of the
    track [i], counting the cycle that created it, and [i] was paired
    with a detection in every cycle after the first. *)
Inductive streak (i : positive) : nat -> ObjectTracker -> Prop :=
| streak_created t detections frameId currentTime :
    reachable t ->
    ~ live t i ->
    live (cycle t detections frameId currentTime) i ->
    streak i 1 (cycle t detections frameId currentTime)
| streak_matched k t detections frameId currentTime :
    streak i k t ->
    matchedIn t detections i ->
    streak i (S k) (cycle t detections frameId currentTime).

(** ** The cost matrix and the scheme of the specification *)

Definition costAt (matrix : list (list Q)) (i j : nat) : option Q :=
  match matrix !! i with
  | Some row => row !! j
  | None => None
  end.

(** The cells of the matrix in scan order. *)
Definition cells (matrix : list (list Q)) : list (nat * nat * Q) :=
  concat (imap (fun i row => imap (fun j c => (i, j, c)) row) matrix).

(** The lowest cell, the first one in scan order among equals. *)
Definition lowerCell (best : option (nat * nat * Q)) (cell : nat * nat * Q)
  : option (nat * nat * Q) :=
  match best with
  | None => Some cell
  | Some (_, _, bestCost) =>
      if Qltb (snd cell) bestCost then Some cell else best
  end.

Definition lowestCell (cs : list (nat * nat * Q)) : option (nat * nat * Q) :=
  fold_left lowerCell cs None.

(** The cells outside row [i] and column [j]. *)
Definition withoutRowColumn (i j : nat) (cs : list (nat * nat * Q))
  : list (nat * nat * Q) :=
  List.filter (fun '(i', j', _) => negb (Nat.eqb i' i) && negb (Nat.eqb j' j))
              cs.

(** The specification's scheme: commit the lowest remaining cell while it
    is below the threshold, and remove its row and its column. *)
Fixpoint commitLowest (rounds : nat) (threshold : Q)
  (cs : list (nat * nat * Q)) : list (nat * nat) :=
  match rounds with
  | O => []
  | S rounds' =>
      match lowestCell cs with
      | Some (i, j, c) =>
          if Qltb c (1 - threshold)
          then (i, j) :: commitLowest rounds' threshold (withoutRowColumn i j cs)
          else []
      | None => []
      end
  end.

(** One round per cell is enough: a round that commits a pair removes at
    least the committed cell (see [TrackerFacts.commitLowest_rounds]). *)
Definition globallyGreedy (t : ObjectTracker) (detections : list Detection)
  : list (nat * nat) :=
  let cs := cells (costMatrix (tracks t) detections) in
  commitLowest (length cs) (iouThreshold t) cs.

Definition same_pairs (l1 l2 : list (nat * nat)) : Prop :=
  forall p, In p l1 <-> In p l2.

(** ** Boxes as the specification describes them *)

Definition valid_box (b : Box) : Prop :=
  xmin b < xmax b /\ ymin b < ymax b.


(** ** Invariants used in the proofs *)

(** What the inner loop has found once it has scanned the columns of
    [scanned]. *)
Definition best_of (unm : list nat) (scanned : list Q)
  (best : option (nat * Q)) : Prop :=
  match best with
  | None => forall j c, scanned !! j = Some c -> ~ In j unm
  | Some (bestJ, bestCost) =>
      scanned !! bestJ = Some bestCost /\ In bestJ unm /\
      forall j c, scanned !! j = Some c -> In j unm ->
                  bestCost <= c /\ ((j < bestJ)%nat -> bestCost < c)
  end.

(** What the outer loop has established once rows [0 .. i-1] of the
    matrix are done. *)
Record assoc_inv (threshold : Q) (matrix : list (list Q)) (nt nd : nat)
  (i : nat) (m : Matches) : Prop := {
  ai_range : forall a b, In (a, b) (matched m) ->
      (a < i)%nat /\ (a < nt)%nat /\ (b < nd)%nat /\
      exists c, costAt matrix a b = Some c /\ c < 1 - threshold;
  ai_fst : NoDup (map fst (matched m));
  ai_snd : NoDup (map snd (matched m));
  ai_unmT : forall a, In a (unmatchedTracks m) <->
      (a < nt)%nat /\ ~ In a (map fst (matched m));
  ai_unmD : forall b, In b (unmatchedDetections m) <->
      (b < nd)%nat /\ ~ In b (map snd (matched m));
  ai_best : forall a b c, In (a, b) (matched m) ->
      costAt matrix a b = Some c ->
      forall b' c', costAt matrix a b' = Some c' -> (b' < nd)%nat ->
        (forall a', (a' < a)%nat -> ~ In (a', b') (matched m)) ->
        c <= c' /\ ((b' < b)%nat -> c < c');
  ai_none : forall a, (a < i)%nat -> ~ In a (map fst (matched m)) ->
      forall b' c', costAt matrix a b' = Some c' -> (b' < nd)%nat ->
        (forall a', (a' < a)%nat -> ~ In (a', b') (matched m)) ->
        1 - threshold <= c'
}.

(** The registry lists its tracks in the order of their identifiers, all
    below the counter. *)
Definition ids_ordered (t : ObjectTracker) : Prop :=
  StronglySorted Pos.lt (map id (tracks t)) /\
  Forall (fun i => (i < nextTrackId t)%positive) (map id (tracks t)).

(** A track made by [createTrack] while the counter went from [lo] to
    [hi]. *)
Definition fresh_track (lo hi : positive) (track : Track) : Prop :=
  (lo <= id track)%positive /\ (id track < hi)%positive /\
  hits track = 1%nat /\ timeSinceUpdate track = 0%nat /\ age track = 0%nat.

End Tracker.

Module Metrics.

(** ** Data *)

(** One entry of [result.detections]. *)
Record ResultDetection := mkResultDetection {
  label : string;
  score : Q;
  xmin : Q;
  ymin : Q;
  xmax : Q;
  ymax : Q
}.

(** The per-frame record returned by [processNextFrame]. *)
Record FrameResult := mkFrameResult {
  frame_id : FrameId;
  capture_ts : Z;
  recv_ts : Z;
  inference_ts : Z;
  detections : list ResultDetection
}.

Record FrameMetrics := mkFrameMetrics {
  frameId : FrameId;
  captureTs : Z;
  recvTs : Z;
  inferenceTs : Z;
  displayTs : Z;
  e2eLatency : Z;
  serverLatency : Z;
  networkLatency : Z;
  detectionsCount : nat
}.

Record MetricsService := mkMetricsService {
  frames : list FrameMetrics;
  startTime : option Z;
  endTime : option Z;
  totalFrames : nat;
  processedFrames : nat;
  droppedFrames : nat;
  isCollecting : bool
}.

(** The service once its constructor has run [startCollection]. *)
Definition new_MetricsService (now : Z) : MetricsService :=
  {| frames := []; startTime := Some now; endTime := None;
     totalFrames := 0; processedFrames := 0; droppedFrames := 0;
     isCollecting := true |}.

(** ** Counters *)

(** [frames.slice(-maxFrames)]: the last [maxFrames] entries, and the whole
    array when [maxFrames] is zero. *)
Definition slice_last (maxFrames : nat) (fs : list FrameMetrics)
  : list FrameMetrics :=
  match maxFrames with
  | O => fs
  | _ => drop (length fs - maxFrames) fs
  end.

(** [recordFrame(frameResult)]; [maxFrames] is
    [config.METRICS.windowSize * config.INFERENCE.targetFps] and [now] is
    [Date.now()]. *)
Definition recordFrame (maxFrames : nat) (m : MetricsService)
  (frameResult : option FrameResult) (now : Z) : MetricsService :=
  match frameResult with
  | None => m
  | Some r =>
      if negb (isCollecting m) then m
      else
        let frameMetrics :=
          {| frameId := frame_id r;
             captureTs := capture_ts r;
             recvTs := recv_ts r;
             inferenceTs := inference_ts r;
             displayTs := now;
             e2eLatency := (now - capture_ts r)%Z;
             serverLatency := (inference_ts r - recv_ts r)%Z;
             networkLatency := (recv_ts r - capture_ts r)%Z;
             detectionsCount := length (detections r) |} in
        let pushed := frames m ++ [frameMetrics] in
        {| frames := if (maxFrames <? length pushed)%nat
                     then slice_last maxFrames pushed else pushed;
           startTime := startTime m; endTime := endTime m;
           totalFrames := totalFrames m;
           processedFrames := processedFrames m + 1;
           droppedFrames := droppedFrames m;
           isCollecting := isCollecting m |}
  end.

Definition recordDroppedFrame (m : MetricsService) : MetricsService :=
  if negb (isCollecting m) then m
  else
    {| frames := frames m; startTime := startTime m; endTime := endTime m;
       totalFrames := totalFrames m; processedFrames := processedFrames m;
       droppedFrames := droppedFrames m + 1;
       isCollecting := isCollecting m |}.

Definition recordTotalFrame (m : MetricsService) : MetricsService :=
  if negb (isCollecting m) then m
  else
    {| frames := frames m; startTime := startTime m; endTime := endTime m;
       totalFrames := totalFrames m + 1; processedFrames := processedFrames m;
       droppedFrames := droppedFrames m;
       isCollecting := isCollecting m |}.

(** ** calculateLatencyStats *)

Record LatencyStats := mkLatencyStats {
  median : Z;
  p95 : Z;
  min : Z;
  max : Z;
  avg : Q
}.

(** [arr.sort((a, b) => a - b)]: the ascending arrangement of the array. *)
Definition sort_ascending (arr : list Z) : list Z := merge_sort Z.le arr.

(** [arr[i]], read where the index is within range. *)
Definition at_index (arr : list Z) (i : nat) : Z := default 0%Z (arr !! i).

(** [Math.floor(n * 0.95)] on an array length [n]: the double product
    is within half a unit in the last place of 19n/20, so its floor is
    the integer quotient. *)
Definition floor_95_percent (n : nat) : nat := (n * 19 / 20)%nat.

(** [latencies.reduce((sum, val) => sum + val, 0)]. *)
Definition reduce_sum (arr : list Z) : Z :=
  fold_left (fun sum val => (sum + val)%Z) arr 0%Z.

(** The statistics, paired with the contents of the caller's array when
    the function returns: [sort] runs on the copy made by [slice()], and
    [reduce] only reads. *)
Definition calculateLatencyStats_run (latencies : list Z)
  : LatencyStats * list Z :=
  match latencies with
  | [] =>
      ({| median := 0; p95 := 0; min := 0; max := 0; avg := 0 |}, latencies)
  | _ =>
      let copy := latencies in
      let sorted := sort_ascending copy in
      let n := length sorted in
      ({| median := at_index sorted (n / 2);
          p95 := at_index sorted (floor_95_percent n);
          min := at_index sorted 0;
          max := at_index sorted (n - 1);
          avg := inject_Z (reduce_sum latencies)
                 / inject_Z (Z.of_nat (length latencies)) |},
       latencies)
  end.

Definition calculateLatencyStats (latencies : list Z) : LatencyStats :=
  fst (calculateLatencyStats_run latencies).

End Metrics.

Module Pipeline.

Import Metrics.

(** ** Data *)

Record Frame := mkFrame {
  frameId : FrameId;
  imageData : string;
  captureTs : Z;
  recvTs : Z;
  queuedTs : Z
}.

(** A detection as the inference service returns it. *)
Record RawDetection := mkRawDetection {
  r_label : string;
  r_score : Q;
  r_bbox : Q * Q * Q * Q
}.

(** How the promise returned by [inferenceService.detectObjects] settles. *)
Inductive DetectorOutcome :=
| Resolved (detections : list RawDetection)
| Rejected.

(** The fields of [WebRTCService] that the frame path uses. *)
Record WebRTCService := mkWebRTCService {
  frameQueue : list Frame;
  isProcessing : bool
}.

Definition new_WebRTCService : WebRTCService :=
  {| frameQueue := []; isProcessing := false |}.

Section Config.

(** [config.INFERENCE.maxQueueSize] and the product
    [config.METRICS.windowSize * config.INFERENCE.targetFps]. *)
Variable maxQueueSize : Z.
Variable maxFrames : nat.

(** ** processNextFrame *)

(** [processNextFrame] up to its [await]: [None] when the queue is empty
    (the function returns [null]), otherwise the frame handed to the
    detector. *)
Definition processNextFrame_begin (s : WebRTCService)
  : WebRTCService * option Frame :=
  match last (frameQueue s) with
  | None => (s, None)
  | Some frame => ({| frameQueue := []; isProcessing := true |}, Some frame)
  end.

Definition toResultDetection (det : RawDetection) : ResultDetection :=
  let '(b0, b1, b2, b3) := r_bbox det in
  {| label := r_label det; score := r_score det;
     xmin := b0; ymin := b1; xmax := b2; ymax := b3 |}.

(** [processNextFrame] from the point where the detector's promise has
    settled: the [try] body, the [catch] and the [finally]. *)
Definition processNextFrame_end (s : WebRTCService) (frame : Frame)
  (outcome : DetectorOutcome) (inferenceTs : Z)
  : WebRTCService * option FrameResult :=
  let s' := {| frameQueue := frameQueue s; isProcessing := false |} in
  match outcome with
  | Resolved detections =>
      (s', Some {| frame_id := frameId frame;
                   capture_ts := captureTs frame;
                   recv_ts := recvTs frame;
                   inference_ts := inferenceTs;
                   detections := map toResultDetection detections |})
  | Rejected => (s', None)
  end.

(** ** handlePhoneFrame *)

(** Where the synchronous part of [handlePhoneFrame] ends. *)
Inductive HandleStatus :=
| Threw
| ReturnedNull
| AwaitingDetector (frame : Frame).

(** Lines 35-41: the backpressure test, [shift] and [push].  [shift] on an
    empty queue gives [undefined], and reading [dropped.frameId] then
    throws. *)
Definition enqueue (queue : list Frame) (frame : Frame)
  : option (list Frame) :=
  if (maxQueueSize <=? Z.of_nat (length queue))%Z then
    match queue with
    | [] => None
    | dropped :: rest => Some (rest ++ [frame])
    end
  else Some (queue ++ [frame]).

Definition handlePhoneFrame (s : WebRTCService) (frame : Frame)
  : WebRTCService * HandleStatus :=
  match enqueue (frameQueue s) frame with
  | None => (s, Threw)
  | Some queue =>
      let s1 := {| frameQueue := queue; isProcessing := isProcessing s |} in
      if negb (isProcessing s1) then
        match processNextFrame_begin s1 with
        | (s2, Some frame') => (s2, AwaitingDetector frame')
        | (s2, None) => (s2, ReturnedNull)
        end
      else (s1, ReturnedNull)
  end.

(** A run of calls to [handlePhoneFrame], keeping the service state. *)
Definition handleAll (s : WebRTCService) (frames : list Frame)
  : WebRTCService :=
  fold_left (fun s frame => fst (handlePhoneFrame s frame)) frames s.

(** ** The server around the service *)

(** Who awaits a detector call: the socket handler (through
    [handlePhoneFrame]) or the timer callback. *)
Inductive Origin := FromHandler | FromTimer.

Record Pending := mkPending { p_frame : Frame; p_origin : Origin }.

(** The service, the detector calls that have not settled yet, the
    metrics service and what was broadcast to the viewers. *)
Record Server := mkServer {
  webrtcService : WebRTCService;
  inFlight : list Pending;
  metricsService : MetricsService;
  broadcast : list (option FrameResult)
}.

Definition new_Server (now : Z) : Server :=
  {| webrtcService := new_WebRTCService; inFlight := [];
     metricsService := new_MetricsService now; broadcast := [] |}.

Inductive Event :=
| PhoneStream (frame : Frame)
| TimerTick
| DetectorSettles (k : nat) (outcome : DetectorOutcome)
    (inferenceTs displayTs : Z).

(** The [then] callback of the [phone-stream] handler. *)
Definition deliver (sv : Server) (s : WebRTCService) (pending : list Pending)
  (result : option FrameResult) (now : Z) : Server :=
  {| webrtcService := s; inFlight := pending;
     metricsService := recordFrame maxFrames (metricsService sv) result now;
     broadcast := broadcast sv ++ [result] |}.

Definition quiet (sv : Server) (s : WebRTCService) (pending : list Pending)
  : Server :=
  {| webrtcService := s; inFlight := pending;
     metricsService := metricsService sv; broadcast := broadcast sv |}.

(** One turn of the event loop. *)
Definition step (sv : Server) (e : Event) : Server :=
  match e with
  | PhoneStream frame =>
      match handlePhoneFrame (webrtcService sv) frame with
      | (s, Threw) => quiet sv s (inFlight sv)
      | (s, ReturnedNull) => deliver sv s (inFlight sv) None (queuedTs frame)
      | (s, AwaitingDetector frame') =>
          quiet sv s (inFlight sv ++ [{| p_frame := frame';
                                         p_origin := FromHandler |}])
      end
  | TimerTick =>
      let s := webrtcService sv in
      if negb (isProcessing s) && (0 <? length (frameQueue s))%nat then
        match processNextFrame_begin s with
        | (s', Some frame) =>
            quiet sv s' (inFlight sv ++ [{| p_frame := frame;
                                            p_origin := FromTimer |}])
        | (s', None) => quiet sv s' (inFlight sv)
        end
      else sv
  | DetectorSettles k outcome inferenceTs displayTs =>
      match inFlight sv !! k with
      | None => sv
      | Some p =>
          let '(s, result) :=
            processNextFrame_end (webrtcService sv) (p_frame p) outcome
              inferenceTs in
          match p_origin p with
          | FromHandler => deliver sv s (delete k (inFlight sv)) result displayTs
          | FromTimer => quiet sv s (delete k (inFlight sv))
          end
      end
  end.

Definition run (sv : Server) (events : list Event) : Server :=
  fold_left step events sv.

(** The flag and the calls that have not settled: one call while the
    flag is set, none while it is clear. *)
Definition flag_counts_calls (sv : Server) : Prop :=
  if isProcessing (webrtcService sv)
  then length (inFlight sv) = 1%nat
  else inFlight sv = [].

(** Containment of a detector failure as the specification words it,
    between the state [sv] with the frame in flight and the state [sv']
    after the failure: nothing recorded, the flag clear, and the viewers
    sent a record whose detections list is empty. *)
Definition contained_as_specified (sv sv' : Server) : Prop :=
  metricsService sv' = metricsService sv /\
  isProcessing (webrtcService sv') = false /\
  exists r, last (broadcast sv') = Some (Some r) /\ detections r = [].

(** The events that reach [processNextFrame] with a frame to process. *)
Definition calls_processNextFrame (sv : Server) (e : Event) : Prop :=
  isProcessing (webrtcService sv) = false /\
  match e with
  | PhoneStream frame => enqueue (frameQueue (webrtcService sv)) frame <> None
  | TimerTick => frameQueue (webrtcService sv) <> []
  | DetectorSettles _ _ _ _ => False
  end.

End Config.


(** [envConfig.inference?.maxQueueSize || 5]. *)
Definition INFERENCE_maxQueueSize (env : option Z) : Z :=
  match env with
  | Some n => if (n =? 0)%Z then 5%Z else n
  | None => 5%Z
  end.

End Pipeline.

(** Concrete inputs used by the examples further down. *)
Module Examples.

Import Pipeline.

Definition frame_n (n : Z) : Frame :=
  {| frameId := FrameNum n; imageData := "data:image/jpeg;base64,";
     captureTs := 33 * n; recvTs := 33 * n + 5; queuedTs := 33 * n + 6 |}.

Definition arrivals (ns : list Z) : list Event :=
  map (fun n => PhoneStream (frame_n n)) ns.

(** The default configuration: [maxQueueSize] 5, window 30 s at 15 fps. *)
Definition default_maxQueueSize : Z := INFERENCE_maxQueueSize None.
Definition default_maxFrames : nat := 30 * 15.

(** A server whose first frame is with the detector. *)
Definition busy_server : Server :=
  run default_maxQueueSize default_maxFrames (new_Server 0) (arrivals [0%Z]).

(** The same server after two more arrivals and a detector call that
    was rejected: two frames queued, no call in flight. *)
Definition idle_server_with_backlog : Server :=
  run default_maxQueueSize default_maxFrames busy_server
      (arrivals [1; 2]%Z ++ [DetectorSettles 0 Rejected 70 71]).

(** Two tracks side by side, then a batch whose second detection suits
    both of them. *)
Definition wide (x1 x2 : Q) (name : string) : Tracker.Detection :=
  {| Tracker.box := {| Tracker.xmin := x1; Tracker.ymin := 0;
                       Tracker.xmax := x2; Tracker.ymax := 1 |};
     Tracker.dlabel := name; Tracker.dscore := 9 # 10 |}.

Definition default_options : Tracker.Options :=
  {| Tracker.opt_maxAge := None; Tracker.opt_minHits := None;
     Tracker.opt_iouThreshold := None |}.

Definition two_tracks : Tracker.ObjectTracker :=
  Tracker.cycle (Tracker.new_ObjectTracker default_options)
    [wide (15 # 100) (65 # 100) "person";
     wide (275 # 1000) (775 # 1000) "person"]
    (FrameNum 0) 0.

Definition next_batch : list Tracker.Detection :=
  [wide 0 (1 # 2) "person"; wide (1 # 4) (3 # 4) "person"].

(** The scenario of the specification: the same person box in three
    consecutive frames. *)
Definition person : Tracker.Detection :=
  {| Tracker.box := {| Tracker.xmin := 1 # 10; Tracker.ymin := 1 # 10;
                       Tracker.xmax := 4 # 10; Tracker.ymax := 4 # 10 |};
     Tracker.dlabel := "person"; Tracker.dscore := 9 # 10 |}.

Definition after_tick (n : nat) : Tracker.ObjectTracker :=
  Tracker.cycles (Tracker.new_ObjectTracker default_options)
    (firstn n [([person], FrameNum 0, 0%Z); ([person], FrameNum 1, 33%Z);
               ([person], FrameNum 2, 66%Z)]).

End Examples.

(** * The rest of the tracker, the metrics service, the frame service
    and the inference service *)

(** The life of a track through one cycle, in closed form. *)
Module TrackerLife.

Import Tracker.

(** The track object that [createTrack] builds for identifier [i]. *)
Definition newTrack (i : positive) (detection : Detection)
  (frameId : FrameId) (currentTime : Z) : Track :=
  {| id := i;
     bbox := detection;
     label := dlabel detection;
     score := dscore detection;
     prediction := box detection;
     velocity := {| vx := 0; vy := 0 |};
     timeSinceUpdate := 0;
     hits := 1;
     age := 0;
     firstFrameId := frameId;
     lastFrameId := frameId;
     createdAt := currentTime;
     lastUpdateTime := currentTime |}.

(** The entry that [createTrack] and [updateTrack] store for the state a
    track is in. *)
Definition currentEntry (track : Track) : HistoryEntry :=
  {| h_bbox := bbox track; h_timestamp := lastUpdateTime track;
     h_frameId := lastFrameId track |}.

(** Every live track has a trajectory of 1 to 50 entries that ends with
    its current box, and no trajectory is kept for a track that is gone. *)
Definition history_kept (t : ObjectTracker) : Prop :=
  (forall track, In track (tracks t) ->
     exists older,
       trackHistory t !! id track = Some (older ++ [currentEntry track]) /\
       (length older < 50)%nat) /\
  (forall i, is_Some (trackHistory t !! i) -> live t i).

(** The identifier and the trajectory entry a track stands for. *)
Definition key (track : Track) : positive * HistoryEntry :=
  (id track, currentEntry track).

(** The detection index that [pairs] gives to the track index [a]. *)
Fixpoint pairedWith (pairs : list (nat * nat)) (a : nat) : option nat :=
  match pairs with
  | [] => None
  | (a', b) :: rest => if Nat.eqb a' a then Some b else pairedWith rest a
  end.

(** What the loops over the matched pairs and over the unmatched tracks
    make of the track at index [a]. *)
Definition afterAssociation (detections : list Detection) (frameId : FrameId)
  (currentTime : Z) (m : Matches) (a : nat) (track : Track) : Track :=
  match pairedWith (matched m) a with
  | Some b =>
      match detections !! b with
      | Some detection => updatedTrack track detection frameId currentTime
      | None => track
      end
  | None => markLost track
  end.

(** The tracks that [createTrack] appends for a run of detections,
    numbered from [i]. *)
Fixpoint newTracks (i : positive) (detections : list Detection)
  (frameId : FrameId) (currentTime : Z) : list Track :=
  match detections with
  | [] => []
  | detection :: rest =>
      newTrack i detection frameId currentTime
      :: newTracks (Pos.succ i) rest frameId currentTime
  end.

(** The detections at the indices [idxs], in that order. *)
Definition picked (detections : list Detection) (idxs : list nat)
  : list Detection :=
  omap (fun b => detections !! b) idxs.

(** The registry just before [pruneOldTracks], and after it, as one
    expression over the registry the cycle started with. *)
Definition beforePruning (t : ObjectTracker) (detections : list Detection)
  (frameId : FrameId) (currentTime : Z) : list Track :=
  let m := associate (predict t) detections in
  imap (afterAssociation detections frameId currentTime m)
       (map predictTrack (tracks t))
  ++ newTracks (nextTrackId t) (picked detections (unmatchedDetections m))
       frameId currentTime.

Definition afterPruning (t : ObjectTracker) (ts : list Track) : list Track :=
  List.filter (fun track => negb (shouldRemove t track)) (map growOlder ts).

(** What [associate] returns for [nt] tracks and [nd] detections: every
    index is in a pair or in an unmatched list, once. *)
Definition counted (nt nd : nat) (m : Matches) : Prop :=
  NoDup (unmatchedTracks m) /\ NoDup (unmatchedDetections m) /\
  (length (matched m) + length (unmatchedTracks m) = nt)%nat /\
  (length (matched m) + length (unmatchedDetections m) = nd)%nat.

(** A track was hit at least once, and no more often than it has lived
    cycles, the cycles it went without a hit counted apart. *)
Definition counters_consistent (track : Track) : Prop :=
  (1 <= hits track)%nat /\
  (hits track + timeSinceUpdate track <= age track)%nat.

End TrackerLife.

(** [MetricsService] with its report timer and the calls made on it. *)
Module Collection.

Import Metrics.

(** The sample that [recordFrame] stores for a result displayed at
    [now]. *)
Definition frameMetricsOf (r : FrameResult) (now : Z) : FrameMetrics :=
  {| frameId := frame_id r;
     captureTs := capture_ts r;
     recvTs := recv_ts r;
     inferenceTs := inference_ts r;
     displayTs := now;
     e2eLatency := (now - capture_ts r)%Z;
     serverLatency := (inference_ts r - recv_ts r)%Z;
     networkLatency := (recv_ts r - capture_ts r)%Z;
     detectionsCount := length (detections r) |}.

(** A run of [recordFrame] calls on results that are not [null]. *)
Definition recordFrames (maxFrames : nat) (m : MetricsService)
  (results : list (FrameResult * Z)) : MetricsService :=
  fold_left (fun m '(r, now) => recordFrame maxFrames m (Some r) now) results m.

(** The service with its report timer.  [intervals] are the handles that
    [setInterval] has returned and [clearInterval] has not yet been
    given. *)
Record Collector := mkCollector {
  service : MetricsService;
  reportTimer : option nat;
  intervals : list nat;
  nextHandle : nat
}.

Definition clearInterval (h : nat) (hs : list nat) : list nat :=
  List.filter (fun h' => negb (Nat.eqb h h')) hs.

Definition with_collecting (m : MetricsService) (collecting : bool)
  (start stop : option Z) : MetricsService :=
  {| frames := frames m; startTime := start; endTime := stop;
     totalFrames := totalFrames m; processedFrames := processedFrames m;
     droppedFrames := droppedFrames m; isCollecting := collecting |}.

Section Config.

(** [config.METRICS.enabled] and
    [config.METRICS.windowSize * config.INFERENCE.targetFps]. *)
Variable enabled : bool.
Variable maxFrames : nat.

Definition startCollection (c : Collector) (now : Z) : Collector :=
  if isCollecting (service c) then c
  else
    let m := with_collecting (service c) true (Some now) (endTime (service c)) in
    if enabled then
      let cleared :=
        match reportTimer c with
        | Some h => clearInterval h (intervals c)
        | None => intervals c
        end in
      {| service := m; reportTimer := Some (nextHandle c);
         intervals := nextHandle c :: cleared;
         nextHandle := S (nextHandle c) |}
    else
      {| service := m; reportTimer := reportTimer c;
         intervals := intervals c; nextHandle := nextHandle c |}.

Definition stopCollection (c : Collector) (now : Z) : Collector :=
  if negb (isCollecting (service c)) then c
  else
    let m := with_collecting (service c) false (startTime (service c))
               (Some now) in
    match reportTimer c with
    | Some h =>
        {| service := m; reportTimer := None;
           intervals := clearInterval h (intervals c);
           nextHandle := nextHandle c |}
    | None =>
        {| service := m; reportTimer := None; intervals := intervals c;
           nextHandle := nextHandle c |}
    end.

(** [reset]: a new [metrics] object; [isCollecting] and the timer are
    fields of the service and stay. *)
Definition reset (c : Collector) (now : Z) : Collector :=
  {| service := {| frames := []; startTime := Some now; endTime := None;
                   totalFrames := 0; processedFrames := 0;
                   droppedFrames := 0;
                   isCollecting := isCollecting (service c) |};
     reportTimer := reportTimer c; intervals := intervals c;
     nextHandle := nextHandle c |}.

Definition cleanup (c : Collector) (now : Z) : Collector :=
  let c' := stopCollection c now in
  {| service := {| frames := [];
                   startTime := startTime (service c');
                   endTime := endTime (service c');
                   totalFrames := totalFrames (service c');
                   processedFrames := processedFrames (service c');
                   droppedFrames := droppedFrames (service c');
                   isCollecting := isCollecting (service c') |};
     reportTimer := reportTimer c'; intervals := intervals c';
     nextHandle := nextHandle c' |}.

Definition with_service (c : Collector) (m : MetricsService) : Collector :=
  {| service := m; reportTimer := reportTimer c; intervals := intervals c;
     nextHandle := nextHandle c |}.

(** The constructor: zeroed metrics, then [startCollection]. *)
Definition new_Collector (now : Z) : Collector :=
  startCollection
    {| service := {| frames := []; startTime := None; endTime := None;
                     totalFrames := 0; processedFrames := 0;
                     droppedFrames := 0; isCollecting := false |};
       reportTimer := None; intervals := []; nextHandle := 0 |}
    now.

Inductive Call :=
| RecordFrame (frameResult : option FrameResult) (now : Z)
| RecordDroppedFrame
| RecordTotalFrame
| StartCollection (now : Z)
| StopCollection (now : Z)
| Reset (now : Z)
| Cleanup (now : Z).

Definition call (c : Collector) (op : Call) : Collector :=
  match op with
  | RecordFrame r now => with_service c (recordFrame maxFrames (service c) r now)
  | RecordDroppedFrame => with_service c (recordDroppedFrame (service c))
  | RecordTotalFrame => with_service c (recordTotalFrame (service c))
  | StartCollection now => startCollection c now
  | StopCollection now => stopCollection c now
  | Reset now => reset c now
  | Cleanup now => cleanup c now
  end.

Definition calls (c : Collector) (ops : list Call) : Collector :=
  fold_left call ops c.

Definition is_record (op : Call) : bool :=
  match op with
  | RecordFrame _ _ | RecordDroppedFrame | RecordTotalFrame => true
  | _ => false
  end.

(** One report timer while collecting with reports enabled, none
    otherwise, and no other interval left scheduled. *)
Definition timer_in_step (c : Collector) : Prop :=
  intervals c = match reportTimer c with Some h => [h] | None => [] end /\
  (is_Some (reportTimer c) <->
   isCollecting (service c) = true /\ enabled = true) /\
  (forall h, reportTimer c = Some h -> (h < nextHandle c)%nat).

(** The window against the processed counter and against its size. *)
Definition window_bounded (m : MetricsService) : Prop :=
  (length (frames m) <= processedFrames m)%nat /\
  ((1 <= maxFrames)%nat -> (length (frames m) <= maxFrames)%nat).

End Config.

End Collection.

(** [WebRTCService]: the connection registry, the statistics and
    [cleanup]. *)
Module Service.

Import Metrics Pipeline.

Section Values.

(** The values a connection object holds, with the numbers among them. *)
Variable V : Type.
Variable number : Z -> V.

(** A connection object: its fields by name. *)
Definition ConnectionObject : Type := gmap string V.

(** [WebRTCService] with its [connections] map beside the frame path. *)
Record FullService := mkFullService {
  connections : gmap string ConnectionObject;
  core : WebRTCService
}.

Record ConnectionStats := mkConnectionStats {
  activeConnections : nat;
  queueLength : nat;
  stat_isProcessing : bool
}.

Definition getConnectionStats (s : FullService) : ConnectionStats :=
  {| activeConnections := size (connections s);
     queueLength := length (frameQueue (core s));
     stat_isProcessing := isProcessing (core s) |}.

(** [{ ...connection, connectedAt: Date.now() }] stored under [id]. *)
Definition addConnection (s : FullService) (id : string)
  (connection : ConnectionObject) (now : Z) : FullService :=
  {| connections :=
       <[id := <["connectedAt" := number now]> connection]> (connections s);
     core := core s |}.

Definition removeConnection (s : FullService) (id : string) : FullService :=
  match connections s !! id with
  | Some _ => {| connections := delete id (connections s); core := core s |}
  | None => s
  end.

(** [this.connections.get(id) || null]. *)
Definition getConnection (s : FullService) (id : string)
  : option ConnectionObject :=
  connections s !! id.

(** [cleanup]: [connections.clear()], [frameQueue.length = 0],
    [isProcessing = false]. *)
Definition cleanupService (s : FullService) : FullService :=
  {| connections := ∅;
     core := {| frameQueue := []; isProcessing := false |} |}.

End Values.

(** [cleanup] of the service inside the server: the calls that have not
    settled stay as they are. *)
Definition cleanupServer (sv : Server) : Server :=
  {| webrtcService := {| frameQueue := []; isProcessing := false |};
     inFlight := inFlight sv;
     metricsService := metricsService sv;
     broadcast := broadcast sv |}.

Definition is_arrival (e : Event) : bool :=
  match e with PhoneStream _ => true | _ => false end.

Definition from_handler (p : Pending) : bool :=
  match p_origin p with FromHandler => true | FromTimer => false end.

Definition carries_record (payload : option FrameResult) : bool :=
  match payload with Some _ => true | None => false end.

(** What the server keeps true of its outputs: every arrival so far has
    been answered or is awaited by its handler, and the processed
    counter is the number of records sent to the viewers. *)
Definition outputs_accounted (arrivals : nat) (sv : Server) : Prop :=
  (length (broadcast sv) + length (List.filter from_handler (inFlight sv))
   = arrivals)%nat /\
  isCollecting (metricsService sv) = true /\
  processedFrames (metricsService sv)
  = length (List.filter carries_record (broadcast sv)).

End Service.

(** [InferenceService]: mock detections, the letterbox, and the
    post-processing of the model output. *)
Module Inference.

(** ** generateMockDetections *)

Definition commonObjects : list string :=
  ["person"; "car"; "bicycle"; "dog"; "cat"; "chair"; "bottle"]%string.

(** A detection as [generateMockDetections] builds it; the label is
    [None] where the array access gives [undefined]. *)
Record MockDetection := mkMockDetection {
  m_label : option string;
  m_score : Q;
  m_bbox : Q * Q * Q * Q
}.

(** [Math.floor(x)] as an array index. *)
Definition floorIndex (x : Q) : nat := Z.to_nat (Qfloor x).

(** One turn of the loop; [draw k] is the value of the [k]-th call of
    [Math.random] in this turn. *)
Definition mockDetection (draw : nat -> Q) : MockDetection :=
  let label :=
    commonObjects !! floorIndex (draw 0%nat * inject_Z (Z.of_nat (length commonObjects))) in
  let score := (6 # 10) + draw 1%nat * (3 # 10) in
  let xmin := draw 2%nat * (6 # 10) in
  let ymin := draw 3%nat * (6 # 10) in
  let width := (15 # 100) + draw 4%nat * (25 # 100) in
  let height := (15 # 100) + draw 5%nat * (25 # 100) in
  {| m_label := label;
     m_score := score;
     m_bbox := (xmin, ymin, Qmin (xmin + width) 1, Qmin (ymin + height) 1) |}.

(** [generateMockDetections]; [random k] is the value of the [k]-th call
    of [Math.random], counted from 0. *)
Definition generateMockDetections (random : nat -> Q) : list MockDetection :=
  let numDetections := (Z.to_nat (Qfloor (random 0%nat * 3)) + 1)%nat in
  map (fun i => mockDetection (fun k => random (1 + 6 * i + k)%nat))
      (seq 0 numDetections).

(** ** Post-processing: candidates *)

Record Candidate := mkCandidate {
  c_label : string;
  c_score : Q;
  x0 : Q;
  y0 : Q;
  x1 : Q;
  y1 : Q;
  classId : Z
}.

(** What [preprocessImage] hands to [postprocessResults]. *)
Record Prep := mkPrep {
  origW : Q;
  origH : Q;
  scale : Q;
  padX : Q;
  padY : Q
}.

(** The [xyxy] box of a prediction in the input scale, mapped back to
    the original image: [Math.max(0, Math.min(orig, (v - pad) / scale))]
    on each side. *)
Definition unletterbox (prep : Prep) (x y w h : Q) : Q * Q * Q * Q :=
  let left := x - w / 2 in
  let top := y - h / 2 in
  let right := x + w / 2 in
  let bottom := y + h / 2 in
  (Qmax 0 (Qmin (origW prep) ((left - padX prep) / scale prep)),
   Qmax 0 (Qmin (origH prep) ((top - padY prep) / scale prep)),
   Qmax 0 (Qmin (origW prep) ((right - padX prep) / scale prep)),
   Qmax 0 (Qmin (origH prep) ((bottom - padY prep) / scale prep))).

(** The loop over the class probabilities of one prediction:
    [bestClass] starts at [-1], [bestProb] at [0], and a class replaces
    the best so far when its probability is strictly greater. *)
Definition betterClass (best : Z * Q) (cp : Z * Q) : Z * Q :=
  if Qltb (snd best) (snd cp) then cp else best.

Definition bestClass (probs : list Q) : Z * Q :=
  fold_left betterClass (imap (fun c p => (Z.of_nat c, p)) probs) ((-1)%Z, 0).

(** ** preprocessImage: the letterbox *)

(** [Math.round]. *)
Definition jsRound (x : Q) : Z := Qfloor (x + (1 # 2)).

Record Letterbox := mkLetterbox {
  lb_scale : Q;
  lb_newW : Z;
  lb_newH : Z;
  lb_padX : Z;
  lb_padY : Z;
  lb_padRight : Z;
  lb_padBottom : Z
}.

(** The size computations of [preprocessImage] and the resize they are
    for; [width] and [height] are [meta.width] and [meta.height], [None]
    where the metadata has none.  [None] is a [throw]: of invalid
    dimensions, or of [sharp]'s [resize], which takes positive integers
    only and so refuses a side that was rounded to 0. *)
Definition letterbox (inputSize : Z) (width height : option Z)
  : option Letterbox :=
  let origW := default 0%Z width in
  let origH := default 0%Z height in
  if (origW =? 0)%Z || (origH =? 0)%Z then None
  else
    let scale := Qmin (inject_Z inputSize / inject_Z origW)
                      (inject_Z inputSize / inject_Z origH) in
    let newW := jsRound (inject_Z origW * scale) in
    let newH := jsRound (inject_Z origH * scale) in
    let padX := Qfloor (inject_Z (inputSize - newW) / 2) in
    let padY := Qfloor (inject_Z (inputSize - newH) / 2) in
    let padRight := (inputSize - newW - padX)%Z in
    let padBottom := (inputSize - newH - padY)%Z in
    if (newW <=? 0)%Z || (newH <=? 0)%Z then None
    else
      Some {| lb_scale := scale; lb_newW := newW; lb_newH := newH;
              lb_padX := padX; lb_padY := padY;
              lb_padRight := padRight; lb_padBottom := padBottom |}.

(** ** iou *)

Definition iou (a b : Candidate) : Q :=
  let x1' := Qmax (x0 a) (x0 b) in
  let y1' := Qmax (y0 a) (y0 b) in
  let x2 := Qmin (x1 a) (x1 b) in
  let y2 := Qmin (y1 a) (y1 b) in
  let w := Qmax 0 (x2 - x1') in
  let h := Qmax 0 (y2 - y1') in
  let inter := w * h in
  let areaA := (x1 a - x0 a) * (y1 a - y0 a) in
  let areaB := (x1 b - x0 b) * (y1 b - y0 b) in
  let union := areaA + areaB - inter in
  if Qleb union 0 then 0 else inter / union.

(** ** Per-class non-maximum suppression *)

(** [byClass], a [Map] from class id to the candidates of that class, in
    insertion order: [if (!byClass.has(key)) byClass.set(key, []);
    byClass.get(key).push(det)]. *)
Fixpoint byClass_push (byClass : list (Z * list Candidate)) (det : Candidate)
  : list (Z * list Candidate) :=
  match byClass with
  | [] => [(classId det, [det])]
  | (key, members) :: rest =>
      if (key =? classId det)%Z then (key, members ++ [det]) :: rest
      else (key, members) :: byClass_push rest det
  end.

Definition groupByClass (candidates : list Candidate)
  : list (Z * list Candidate) :=
  fold_left byClass_push candidates [].

(** [list.sort((a, b) => b.score - a.score)]: a stable sort, highest
    score first. *)
Fixpoint insertByScore (det : Candidate) (sorted : list Candidate)
  : list Candidate :=
  match sorted with
  | [] => [det]
  | other :: rest =>
      if Qleb (c_score other) (c_score det) then det :: other :: rest
      else other :: insertByScore det rest
  end.

Definition sortByScore (members : list Candidate) : list Candidate :=
  foldr insertByScore [] members.

(** The inner loop over [keep], with its [break]. *)
Definition overlapsKept (iouThresh : Q) (keep : list Candidate)
  (det : Candidate) : bool :=
  existsb (fun kept => Qltb iouThresh (iou det kept)) keep.

Definition keepFrom (iouThresh : Q) (keep : list Candidate)
  (sorted : list Candidate) : list Candidate :=
  fold_left (fun keep det =>
               if overlapsKept iouThresh keep det then keep
               else keep ++ [det])
            sorted keep.

(** The body of [byClass.forEach]: what one class adds to [final]. *)
Definition keptOfClass (iouThresh : Q) (members : list Candidate)
  : list Candidate :=
  keepFrom iouThresh [] (sortByScore members).

(** [final] after the loop over the classes. *)
Definition nms (iouThresh : Q) (candidates : list Candidate)
  : list Candidate :=
  flat_map (fun '(_, members) => keptOfClass iouThresh members)
           (groupByClass candidates).

(** [final.map(d => ...)]: the boxes normalised by the image size. *)
Definition normalise (prep : Prep) (d : Candidate) : Pipeline.RawDetection :=
  {| Pipeline.r_label := c_label d;
     Pipeline.r_score := c_score d;
     Pipeline.r_bbox := (x0 d / origW prep, y0 d / origH prep,
                         x1 d / origW prep, y1 d / origH prep) |}.

(** The candidate's box as the tracker's [Box]. *)
Definition boxOf (c : Candidate) : Tracker.Box :=
  {| Tracker.xmin := x0 c; Tracker.ymin := y0 c;
     Tracker.xmax := x1 c; Tracker.ymax := y1 c |}.

(** ** Properties used in the statements *)

Definition unit_draws (random : nat -> Q) : Prop :=
  forall k, 0 <= random k /\ random k < 1.

Definition well_formed (c : Candidate) : Prop :=
  x0 c <= x1 c /\ y0 c <= y1 c.

(** A later candidate against an earlier one in [final]. *)
Definition apart (iouThresh : Q) (earlier later : Candidate) : Prop :=
  c_score later <= c_score earlier /\ iou later earlier <= iouThresh.

(** The keys of [byClass] are distinct and each list holds candidates of
    its key. *)
Definition grouped (byClass : list (Z * list Candidate)) : Prop :=
  NoDup (map fst byClass) /\
  Forall (fun g => Forall (fun c => classId c = fst g) (snd g)) byClass.

(** The order of [list.sort]: the higher score first. *)
Definition higherFirst (a b : Candidate) : Prop := c_score b <= c_score a.

End Inference.

(** [InferenceService.detectObjects] and the functions it calls, with
    their [try] and [catch] blocks. *)
Module Detector.

Import Pipeline Inference.

(** How a block of code ends: with a value, or by throwing. *)
Inductive Completion (A : Type) :=
| Normal (a : A)
| Throw.

Arguments Normal {A} a.
Arguments Throw {A}.

(** [try { body } catch (error) { handler }]. *)
Definition try_catch {A} (body handler : Completion A) : Completion A :=
  match body with
  | Normal a => Normal a
  | Throw => handler
  end.

(** One statement after another: a throw skips what follows. *)
Definition andThen {A B} (first : Completion A) (next : A -> Completion B)
  : Completion B :=
  match first with
  | Normal a => next a
  | Throw => Throw
  end.

(** [config.MODE]. *)
Inductive Mode := ServerMode | WasmMode | OtherMode.

(** What the parts that are not modelled do in one call: how the body
    of [initialize] ends ([loadLabels], [loadModel]); how the server
    inference ends up to and including [model.run] (decoding,
    [preprocessImage], the session); how the [try] blocks of
    [postprocessResults] and of [runWasmInference] end; and the values
    of [Math.random] from the first call of [generateMockDetections]. *)
Record Run := mkRun {
  initBody : Completion unit;
  serverInference : Completion unit;
  postprocessBody : Completion (list RawDetection);
  wasmBody : Completion (list RawDetection);
  random : nat -> Q
}.

(** [initialize]: its [catch] logs and clears [isInitialized]. *)
Definition initialize (body : Completion unit) : Completion unit :=
  try_catch body (Normal tt).

(** [postprocessResults]: its [catch] logs and returns [[]]. *)
Definition postprocessResults (body : Completion (list RawDetection))
  : Completion (list RawDetection) :=
  try_catch body (Normal []).

(** A mock detection as the array element the pipeline reads; a label
    that is [undefined] is written as the empty string (there is none
    for values of [Math.random] in [[0, 1)]). *)
Definition rawOfMock (d : MockDetection) : RawDetection :=
  {| r_label := default ""%string (m_label d);
     r_score := m_score d;
     r_bbox := m_bbox d |}.

Definition mockDetections (random : nat -> Q) : list RawDetection :=
  map rawOfMock (generateMockDetections random).

(** [runServerInference]: its [catch] logs and returns
    [this.generateMockDetections()]. *)
Definition runServerInference (run : Run) : Completion (list RawDetection) :=
  try_catch
    (andThen (serverInference run)
             (fun _ => postprocessResults (postprocessBody run)))
    (Normal (mockDetections (random run))).

(** [runWasmInference]: its [catch] logs and returns [[]]. *)
Definition runWasmInference (run : Run) : Completion (list RawDetection) :=
  try_catch (wasmBody run) (Normal []).

(** [detectObjects]; [isInitialized] is the flag at the call and
    [model] says whether [this.model] is set when the mode is tested. *)
Definition detectObjects (isInitialized : bool) (mode : Mode) (model : bool)
  (run : Run) : Completion (list RawDetection) :=
  try_catch
    (andThen
       (if isInitialized then Normal tt else initialize (initBody run))
       (fun _ =>
          match mode, model with
          | ServerMode, true => runServerInference run
          | WasmMode, _ => runWasmInference run
          | _, _ => Normal (mockDetections (random run))
          end))
    (Normal []).

(** How the promise of the [async] function settles. *)
Definition settle (c : Completion (list RawDetection)) : DetectorOutcome :=
  match c with
  | Normal detections => Resolved detections
  | Throw => Rejected
  end.

End Detector.

(** [calculateIoU] on binary64 numbers, as the browser computes it. *)
Module Binary64.

Import PrimFloat.

(** [Math.max] and [Math.min] of two numbers: [NaN] if either is [NaN],
    and [+0] above [-0]. *)
Definition Math_max (x y : float) : float :=
  if is_nan x || is_nan y then nan
  else if ltb x y then y
  else if ltb y x then x
  else if get_sign x then y else x.

Definition Math_min (x y : float) : float :=
  if is_nan x || is_nan y then nan
  else if ltb x y then x
  else if ltb y x then y
  else if get_sign x then x else y.

Record Box64 := mkBox64 {
  xmin64 : float;
  ymin64 : float;
  xmax64 : float;
  ymax64 : float
}.

Definition calculateIoU64 (box1 box2 : Box64) : float :=
  let x1 := Math_max (xmin64 box1) (xmin64 box2) in
  let y1 := Math_max (ymin64 box1) (ymin64 box2) in
  let x2 := Math_min (xmax64 box1) (xmax64 box2) in
  let y2 := Math_min (ymax64 box1) (ymax64 box2) in
  if leb x2 x1 || leb y2 y1 then zero
  else
    let intersection := mul (sub x2 x1) (sub y2 y1) in
    let area1 :=
      mul (sub (xmax64 box1) (xmin64 box1)) (sub (ymax64 box1) (ymin64 box1)) in
    let area2 :=
      mul (sub (xmax64 box2) (xmin64 box2)) (sub (ymax64 box2) (ymin64 box2)) in
    let union := sub (add area1 area2) intersection in
    div intersection union.



Definition unit_square : Box64 :=
  {| xmin64 := 0; ymin64 := 0; xmax64 := 1; ymax64 := 1 |}.

(** The doubles nearest to 0.3 and 0.6 as the right edges of two boxes
    of height 1: their IoU is one half in exact arithmetic. *)
Definition narrow : Box64 :=
  {| xmin64 := 0; ymin64 := 0; xmax64 := 0x1.3333333333333p-2; ymax64 := 1 |}.

Definition twice_as_wide : Box64 :=
  {| xmin64 := 0; ymin64 := 0; xmax64 := 0x1.3333333333333p-1; ymax64 := 1 |}.

End Binary64.

(** Inputs for the examples of the second part. *)
Module Scenes.

Import Examples.

(** A detection at the right edge, away from both tracks of
    [two_tracks]. *)
Definition far_right : Tracker.Detection := wide (9 # 10) 1 "person".

(** A person seen once and not again for nine cycles. *)
Definition seen_long_ago : Tracker.ObjectTracker :=
  Tracker.cycles (Tracker.new_ObjectTracker default_options)
    (([person], FrameNum 0, 0%Z) :: repeat ([], FrameNum 1, 33%Z) 9).

(** The record of frame [n] as [processNextFrame] returns it, with the
    time at which the handler records it. *)
Definition result_n (n : Z) : Metrics.FrameResult * Z :=
  ({| Metrics.frame_id := FrameNum n;
      Metrics.capture_ts := 33 * n;
      Metrics.recv_ts := 33 * n + 5;
      Metrics.inference_ts := 33 * n + 25;
      Metrics.detections := [] |},
   (33 * n + 30)%Z).

Definition three_results : list (Metrics.FrameResult * Z) :=
  [result_n 0; result_n 1; result_n 2].

(** [Math.random] returning one half every time. *)
Definition half : nat -> Q := fun _ => 1 # 2.

(** Two person boxes on top of each other and a car elsewhere. *)
Definition candidate (name : string) (cls : Z) (s l r : Q)
  : Inference.Candidate :=
  {| Inference.c_label := name; Inference.c_score := s;
     Inference.x0 := l; Inference.y0 := 100;
     Inference.x1 := r; Inference.y1 := 300;
     Inference.classId := cls |}.

Definition three_candidates : list Inference.Candidate :=
  [candidate "person" 0 (7 # 10) 100 200;
   candidate "car" 2 (6 # 10) 110 210;
   candidate "person" 0 (8 # 10) 105 205].

(** A 1280 x 720 image in a 640 x 640 input. *)
Definition hd_prep : Inference.Prep :=
  {| Inference.origW := 1280; Inference.origH := 720;
     Inference.scale := 1 # 2;
     Inference.padX := 0; Inference.padY := 140 |}.

(** A call of the detector in which the server inference throws, and
    [Math.random] returns one half from then on. *)
Definition failing_inference : Detector.Run :=
  {| Detector.initBody := Detector.Normal tt;
     Detector.serverInference := Detector.Throw;
     Detector.postprocessBody := Detector.Normal [];
     Detector.wasmBody := Detector.Normal [];
     Detector.random := half |}.

End Scenes.

(** * Facts *)

Lemma Qltb_lt x y : Qltb x y = true <-> x < y.
Proof.
  unfold Qltb. rewrite Qlt_alt. destruct (x ?= y); split; congruence.
Qed.

Lemma Qltb_ge x y : Qltb x y = false <-> y <= x.
Proof.
  rewrite <- not_true_iff_false, Qltb_lt. split.
  - apply Qnot_lt_le.
  - apply Qle_not_lt.
Qed.

Lemma Qleb_le x y : Qleb x y = true <-> x <= y.
Proof.
  unfold Qleb. rewrite negb_true_iff. apply Qltb_ge.
Qed.

Lemma Qleb_gt x y : Qleb x y = false <-> y < x.
Proof.
  unfold Qleb. rewrite negb_false_iff. apply Qltb_lt.
Qed.

Lemma Qleb_compat x x' y y' : x == x' -> y == y' -> Qleb x y = Qleb x' y'.
Proof.
  intros Hx Hy. destruct (Qleb x' y') eqn:E.
  - apply Qleb_le. apply Qleb_le in E. rewrite Hx, Hy. exact E.
  - apply Qleb_gt. apply Qleb_gt in E. rewrite Hx, Hy. exact E.
Qed.

Module TrackerFacts.

Import Tracker.

(** ** calculateIoU *)



Lemma iou_overlap_test_false box1 box2 :
  Qleb (Qmin (xmax box1) (xmax box2)) (Qmax (xmin box1) (xmin box2))
  || Qleb (Qmin (ymax box1) (ymax box2)) (Qmax (ymin box1) (ymin box2)) = false ->
  Qmax (xmin box1) (xmin box2) < Qmin (xmax box1) (xmax box2) /\
  Qmax (ymin box1) (ymin box2) < Qmin (ymax box1) (ymax box2).
Proof.
  intros H. apply orb_false_iff in H as [Hx Hy].
  apply Qleb_gt in Hx. apply Qleb_gt in Hy. auto.
Qed.

Lemma iou_union_positive box1 box2 :
  Qmax (xmin box1) (xmin box2) < Qmin (xmax box1) (xmax box2) ->
  Qmax (ymin box1) (ymin box2) < Qmin (ymax box1) (ymax box2) ->
  0 < (xmax box1 - xmin box1) * (ymax box1 - ymin box1)
      + (xmax box2 - xmin box2) * (ymax box2 - ymin box2)
      - (Qmin (xmax box1) (xmax box2) - Qmax (xmin box1) (xmin box2))
        * (Qmin (ymax box1) (ymax box2) - Qmax (ymin box1) (ymin box2)).
Proof.
  intros Hx Hy.
  pose proof (Q.le_max_l (xmin box1) (xmin box2)) as A1.
  pose proof (Q.le_max_r (xmin box1) (xmin box2)) as A2.
  pose proof (Q.le_min_l (xmax box1) (xmax box2)) as A3.
  pose proof (Q.le_min_r (xmax box1) (xmax box2)) as A4.
  pose proof (Q.le_max_l (ymin box1) (ymin box2)) as B1.
  pose proof (Q.le_max_r (ymin box1) (ymin box2)) as B2.
  pose proof (Q.le_min_l (ymax box1) (ymax box2)) as B3.
  pose proof (Q.le_min_r (ymax box1) (ymax box2)) as B4.
  set (x1 := Qmax (xmin box1) (xmin box2)) in *.
  set (x2 := Qmin (xmax box1) (xmax box2)) in *.
  set (y1 := Qmax (ymin box1) (ymin box2)) in *.
  set (y2 := Qmin (ymax box1) (ymax box2)) in *.
  assert (Hw : 0 < x2 - x1) by (apply Qlt_minus_iff in Hx; exact Hx).
  assert (Hh : 0 < y2 - y1) by (apply Qlt_minus_iff in Hy; exact Hy).
  assert (Hi : 0 < (x2 - x1) * (y2 - y1)) by (apply Qmult_lt_0_compat; assumption).
  assert (Hw1 : x2 - x1 <= xmax box1 - xmin box1).
  { apply Qplus_le_compat; [exact A3 | apply Qopp_le_compat; exact A1]. }
  assert (Hh1 : y2 - y1 <= ymax box1 - ymin box1).
  { apply Qplus_le_compat; [exact B3 | apply Qopp_le_compat; exact B1]. }
  assert (Hw2 : 0 < xmax box2 - xmin box2).
  { apply Qlt_le_trans with (x2 - x1); [exact Hw|].
    apply Qplus_le_compat; [exact A4 | apply Qopp_le_compat; exact A2]. }
  assert (Hh2 : 0 < ymax box2 - ymin box2).
  { apply Qlt_le_trans with (y2 - y1); [exact Hh|].
    apply Qplus_le_compat; [exact B4 | apply Qopp_le_compat; exact B2]. }
  assert (Ha1 : (x2 - x1) * (y2 - y1) <= (xmax box1 - xmin box1) * (ymax box1 - ymin box1)).
  { apply Qle_trans with ((xmax box1 - xmin box1) * (y2 - y1)).
    - apply Qmult_le_compat_r; [exact Hw1 | apply Qlt_le_weak; exact Hh].
    - rewrite (Qmult_comm _ (y2 - y1)), (Qmult_comm _ (ymax box1 - ymin box1)).
      apply Qmult_le_compat_r; [exact Hh1|].
      apply Qle_trans with (x2 - x1); [apply Qlt_le_weak; exact Hw | exact Hw1]. }
  assert (Ha2 : 0 < (xmax box2 - xmin box2) * (ymax box2 - ymin box2))
    by (apply Qmult_lt_0_compat; assumption).
  set (I := (x2 - x1) * (y2 - y1)) in *.
  set (a1 := (xmax box1 - xmin box1) * (ymax box1 - ymin box1)) in *.
  set (a2 := (xmax box2 - xmin box2) * (ymax box2 - ymin box2)) in *.
  apply Qlt_le_trans with (a2 + (a1 - I)).
  - rewrite <- (Qplus_0_r 0). apply Qplus_lt_le_compat; [exact Ha2|].
    apply -> Qle_minus_iff. exact Ha1.
  - apply Qle_lteq. right. ring.
Qed.

(** The divisor of [calculateIoU] is positive whenever the division is
    reached: the quotient in [Q] is the quotient of the source, never a
    division by zero. *)
Lemma iou_divisor_positive box1 box2 :
  Qleb (Qmin (xmax box1) (xmax box2)) (Qmax (xmin box1) (xmin box2))
  || Qleb (Qmin (ymax box1) (ymax box2)) (Qmax (ymin box1) (ymin box2)) = false ->
  0 < (xmax box1 - xmin box1) * (ymax box1 - ymin box1)
      + (xmax box2 - xmin box2) * (ymax box2 - ymin box2)
      - (Qmin (xmax box1) (xmax box2) - Qmax (xmin box1) (xmin box2))
        * (Qmin (ymax box1) (ymax box2) - Qmax (ymin box1) (ymin box2)).
Proof.
  intros H. apply iou_overlap_test_false in H as [Hx Hy].
  apply iou_union_positive; assumption.
Qed.






(** ** associate *)

Lemma set_has_In s j : set_has s j = true <-> In j s.
Proof.
  unfold set_has. rewrite existsb_exists. split.
  - intros (x & Hx & E). apply Nat.eqb_eq in E. subst. exact Hx.
  - intros H. exists j. split; [exact H | apply Nat.eqb_refl].
Qed.

Lemma set_delete_In s j k : In k (set_delete s j) <-> In k s /\ k <> j.
Proof.
  unfold set_delete. rewrite filter_In, negb_true_iff, Nat.eqb_neq.
  intuition congruence.
Qed.

Lemma bestMatch_scan unm row scanned best :
  best_of unm scanned best ->
  best_of unm (scanned ++ row) (bestMatch row (length scanned) unm best).
Proof.
  revert scanned best. induction row as [|c row IH]; intros scanned best Hb.
  - rewrite app_nil_r. exact Hb.
  - simpl.
    replace (scanned ++ c :: row) with ((scanned ++ [c]) ++ row)
      by (rewrite <- app_assoc; reflexivity).
    replace (S (length scanned)) with (length (scanned ++ [c]))
      by (rewrite length_app; simpl; lia).
    apply IH.
    destruct (set_has unm (length scanned)) eqn:Hhas; simpl.
    + apply set_has_In in Hhas.
      destruct best as [[bj bc]|]; simpl.
      * destruct Hb as (Hl & Hin & Hmin).
        destruct (Qltb c bc) eqn:Hlt.
        -- apply Qltb_lt in Hlt. split; [|split].
           ++ apply lookup_snoc_Some. right. auto.
           ++ exact Hhas.
           ++ intros j c' Hj Hjin.
              apply lookup_snoc_Some in Hj as [[Hjlt Hj] | [-> ->]].
              ** destruct (Hmin j c' Hj Hjin) as [Hle _].
                 split; [lra | intros _; lra].
              ** split; [apply Qle_refl | lia].
        -- apply Qltb_ge in Hlt. split; [|split].
           ++ apply lookup_app_l_Some. exact Hl.
           ++ exact Hin.
           ++ intros j c' Hj Hjin.
              apply lookup_snoc_Some in Hj as [[Hjlt Hj] | [-> ->]].
              ** apply (Hmin j c' Hj Hjin).
              ** split; [exact Hlt|].
                 apply lookup_lt_Some in Hl. lia.
      * split; [|split].
        -- apply lookup_snoc_Some. right. auto.
        -- exact Hhas.
        -- intros j c' Hj Hjin.
           apply lookup_snoc_Some in Hj as [[Hjlt Hj] | [-> ->]].
           ++ exfalso. exact (Hb j c' Hj Hjin).
           ++ split; [apply Qle_refl | lia].
    + assert (Hnot : ~ In (length scanned) unm).
      { rewrite <- set_has_In. congruence. }
      destruct best as [[bj bc]|]; simpl.
      * destruct Hb as (Hl & Hin & Hmin). split; [|split].
        -- apply lookup_app_l_Some. exact Hl.
        -- exact Hin.
        -- intros j c' Hj Hjin.
           apply lookup_snoc_Some in Hj as [[Hjlt Hj] | [-> ->]].
           ++ apply (Hmin j c' Hj Hjin).
           ++ contradiction.
      * intros j c' Hj Hjin.
        apply lookup_snoc_Some in Hj as [[Hjlt Hj] | [-> ->]].
        -- exact (Hb j c' Hj Hjin).
        -- contradiction.
Qed.

Lemma bestMatch_spec unm row :
  best_of unm row (bestMatch row 0 unm None).
Proof.
  apply (bestMatch_scan unm row [] None). simpl. intros j c H. discriminate.
Qed.

Section Associate.

Variable threshold : Q.
Variable matrix : list (list Q).
Variables nt nd : nat.

Lemma in_map_fst (l : list (nat * nat)) a :
  In a (map fst l) <-> exists b, In (a, b) l.
Proof.
  rewrite in_map_iff. split.
  - intros ([a' b] & E & H). simpl in E. subst. eauto.
  - intros (b & H). exists (a, b). auto.
Qed.

Lemma in_map_snd (l : list (nat * nat)) b :
  In b (map snd l) <-> exists a, In (a, b) l.
Proof.
  rewrite in_map_iff. split.
  - intros ([a b'] & E & H). simpl in E. subst. eauto.
  - intros (a & H). exists (a, b). auto.
Qed.

Lemma NoDup_snoc_fresh {A} (l : list A) x :
  NoDup l -> ~ In x l -> NoDup (l ++ [x]).
Proof.
  intros Hl Hx. apply NoDup_app. split; [exact Hl|]. split.
  - intros y Hy Hy'. apply list_elem_of_In in Hy.
    apply list_elem_of_singleton in Hy'. subst. contradiction.
  - apply NoDup_singleton.
Qed.

(** The availability of a column to a row only depends on the pairs of
    the rows above it. *)
Lemma available_before i m b' :
  (forall a b, In (a, b) (matched m) -> (a < i)%nat) ->
  (forall a', (a' < i)%nat -> ~ In (a', b') (matched m)) ->
  ~ In b' (map snd (matched m)).
Proof.
  intros Hr Hav Hin. apply in_map_snd in Hin as (a & Ha).
  apply (Hav a); [eapply Hr; eauto | exact Ha].
Qed.

Lemma assignTrack_inv i row m :
  matrix !! i = Some row -> (i < nt)%nat ->
  assoc_inv threshold matrix nt nd i m ->
  assoc_inv threshold matrix nt nd (S i) (assignTrack threshold i row m).
Proof.
  intros Hrow Hi Inv. unfold assignTrack.
  pose proof (bestMatch_spec (unmatchedDetections m) row) as Hbest.
  assert (Hlt : forall a b, In (a, b) (matched m) -> (a < i)%nat).
  { intros a b H. apply (ai_range _ _ _ _ _ _ Inv a b H). }
  assert (Hcost : forall j, costAt matrix i j = row !! j).
  { intros j. unfold costAt. rewrite Hrow. reflexivity. }
  assert (Hkeep : assoc_inv threshold matrix nt nd (S i) m ->
                  assoc_inv threshold matrix nt nd (S i) m) by auto.
  (* the invariant when the row stays unmatched *)
  assert (Hstay :
    (forall b' c', row !! b' = Some c' -> In b' (unmatchedDetections m) ->
                   1 - threshold <= c') ->
    assoc_inv threshold matrix nt nd (S i) m).
  { intros Hnone. destruct Inv as [R F Sd UT UD B N]. constructor; auto.
    - intros a b H. destruct (R a b H) as (? & ? & ? & ?). repeat split; auto.
    - intros a Ha Hna b' c' Hc Hb' Hav.
      destruct (Nat.eq_dec a i) as [->|Hne].
      + rewrite Hcost in Hc. apply (Hnone b' c' Hc).
        apply UD. split; [exact Hb'|].
        apply (available_before i m b'); auto.
      + apply (N a ltac:(lia) Hna b' c' Hc Hb' Hav). }
  destruct (bestMatch row 0 (unmatchedDetections m) None) as [[bestJ bestCost]|].
  - simpl in Hbest. destruct Hbest as (Hl & Hin & Hmin).
    destruct (Qltb bestCost (1 - threshold)) eqn:Elt.
    + apply Qltb_lt in Elt.
      destruct Inv as [R F Sd UT UD B N].
      assert (HbJ : (bestJ < nd)%nat /\ ~ In bestJ (map snd (matched m)))
        by (apply UD; exact Hin).
      assert (Hfresh : ~ In i (map fst (matched m))).
      { intros H. apply in_map_fst in H as (b & H). apply Hlt in H. lia. }
      constructor; simpl.
      * intros a b H. apply in_app_or in H as [H | [H | []]].
        -- destruct (R a b H) as (? & ? & ? & ?). repeat split; auto.
        -- injection H as <- <-.
           split; [lia|]. split; [lia|]. split; [apply HbJ|].
           exists bestCost. rewrite Hcost. auto.
      * rewrite map_app. simpl. apply NoDup_snoc_fresh; auto.
      * rewrite map_app. simpl. apply NoDup_snoc_fresh; [auto | apply HbJ].
      * intros a. rewrite set_delete_In, UT, map_app, in_app_iff. simpl.
        intuition lia.
      * intros b. rewrite set_delete_In, UD, map_app, in_app_iff. simpl.
        intuition lia.
      * intros a b c H Hc b' c' Hc' Hb' Hav.
        apply in_app_or in H as [H | [H | []]].
        -- apply (B a b c H Hc b' c' Hc' Hb').
           intros a' Ha' Hin'. apply (Hav a' Ha'). apply in_or_app. auto.
        -- injection H as <- <-. rewrite Hcost in Hc, Hc'.
           assert (c = bestCost) by congruence. subst c.
           apply (Hmin b' c' Hc'). apply UD. split; [exact Hb'|].
           apply (available_before i m b'); auto.
           intros a' Ha' Hin'. apply (Hav a' Ha'). apply in_or_app. auto.
      * intros a Ha Hna b' c' Hc Hb' Hav.
        rewrite map_app, in_app_iff in Hna. simpl in Hna.
        assert (a <> i) by (intros ->; tauto).
        apply (N a ltac:(lia) ltac:(tauto) b' c' Hc Hb').
        intros a' Ha' Hin'. apply (Hav a' Ha'). apply in_or_app. auto.
    + apply Qltb_ge in Elt. apply Hstay.
      intros b' c' Hc Hb'. destruct (Hmin b' c' Hc Hb') as [Hle _]. lra.
  - simpl in Hbest. apply Hstay.
    intros b' c' Hc Hb'. exfalso. exact (Hbest b' c' Hc Hb').
Qed.

Lemma assignFrom_inv rows i m :
  (forall k, rows !! k = matrix !! (i + k)%nat) ->
  (i + length rows <= nt)%nat ->
  assoc_inv threshold matrix nt nd i m ->
  assoc_inv threshold matrix nt nd (i + length rows)
            (assignFrom threshold rows i m).
Proof.
  revert i m. induction rows as [|row rows IH]; intros i m Hrows Hlen Inv.
  - simpl. rewrite Nat.add_0_r. exact Inv.
  - simpl in *. replace (i + S (length rows))%nat with (S i + length rows)%nat by lia.
    apply IH.
    + intros k. specialize (Hrows (S k)). simpl in Hrows.
      rewrite Hrows. f_equal. lia.
    + lia.
    + apply assignTrack_inv; [|lia|exact Inv].
      specialize (Hrows 0%nat). simpl in Hrows. rewrite Nat.add_0_r in Hrows.
      auto.
Qed.

End Associate.

Lemma assoc_inv_start threshold matrix nt nd :
  assoc_inv threshold matrix nt nd 0
    {| matched := []; unmatchedTracks := seq 0 nt;
       unmatchedDetections := seq 0 nd |}.
Proof.
  constructor; simpl.
  - tauto.
  - constructor.
  - constructor.
  - intros a. rewrite in_seq. intuition lia.
  - intros b. rewrite in_seq. intuition lia.
  - tauto.
  - intros. lia.
Qed.

Lemma associate_inv t detections :
  assoc_inv (iouThreshold t) (costMatrix (tracks t) detections)
            (length (tracks t)) (length detections)
            (length (tracks t)) (associate t detections).
Proof.
  unfold associate.
  set (matrix := costMatrix (tracks t) detections).
  assert (Hlen : length matrix = length (tracks t)).
  { unfold matrix, costMatrix. apply length_map. }
  pose proof (assignFrom_inv (iouThreshold t) matrix (length (tracks t))
                (length detections) matrix 0
                {| matched := []; unmatchedTracks := seq 0 (length (tracks t));
                   unmatchedDetections := seq 0 (length detections) |}) as H.
  simpl in H. rewrite Hlen in H. apply H.
  - intros k. reflexivity.
  - lia.
  - apply assoc_inv_start.
Qed.

(** ** The phases of a cycle *)

Lemma lookup_map {A B} (f : A -> B) (l : list A) a :
  map f l !! a = f <$> (l !! a).
Proof. exact (list_lookup_fmap f l a). Qed.

Lemma In_lookup {A} (l : list A) x : In x l <-> exists a, l !! a = Some x.
Proof. rewrite <- list_elem_of_In. apply list_elem_of_lookup. Qed.

(** ** predict *)

Lemma predict_lookup t a :
  tracks (predict t) !! a = predictTrack <$> (tracks t !! a).
Proof. apply lookup_map. Qed.

Lemma predict_ids t : map id (tracks (predict t)) = map id (tracks t).
Proof. simpl. rewrite map_map. reflexivity. Qed.

(** ** updateTrack and the loop over the matched pairs *)

Lemma updateTrack_fields t a det fid now :
  nextTrackId (updateTrack t a det fid now) = nextTrackId t /\
  minHits (updateTrack t a det fid now) = minHits t /\
  maxAge (updateTrack t a det fid now) = maxAge t /\
  iouThreshold (updateTrack t a det fid now) = iouThreshold t.
Proof.
  unfold updateTrack. destruct (tracks t !! a); simpl; auto.
Qed.

Lemma updateTrack_lookup t a det fid now a' :
  tracks (updateTrack t a det fid now) !! a'
  = if Nat.eq_dec a a'
    then (fun track => updatedTrack track det fid now) <$> (tracks t !! a')
    else tracks t !! a'.
Proof.
  unfold updateTrack. destruct (tracks t !! a) as [trk|] eqn:E; simpl.
  - destruct (Nat.eq_dec a a') as [<-|Hne].
    + rewrite E. simpl. apply list_lookup_insert_eq.
      eapply lookup_lt_Some. exact E.
    + apply list_lookup_insert_ne. exact Hne.
  - destruct (Nat.eq_dec a a') as [<-|Hne]; [rewrite E|]; reflexivity.
Qed.

Section Matched.

Variable detections : list Detection.
Variable frameId : FrameId.
Variable currentTime : Z.

#[local] Abbreviation updateMatched :=
  (Tracker.updateMatched detections frameId currentTime).

Lemma updateMatched_fields t pairs :
  nextTrackId (updateMatched t pairs) = nextTrackId t /\
  minHits (updateMatched t pairs) = minHits t /\
  maxAge (updateMatched t pairs) = maxAge t /\
  iouThreshold (updateMatched t pairs) = iouThreshold t.
Proof.
  revert t. induction pairs as [|[a b] pairs IH]; intros t; simpl; [auto|].
  destruct (detections !! b) as [det|].
  - destruct (IH (updateTrack t a det frameId currentTime)) as (-> & -> & -> & ->).
    apply updateTrack_fields.
  - apply IH.
Qed.

(** Where a track of the registry stands after the loop: untouched, or
    updated once with the detection it was paired with. *)
Lemma updateMatched_lookup t pairs a trk2 :
  NoDup (map fst pairs) ->
  (forall a b, In (a, b) pairs -> (b < length detections)%nat) ->
  tracks (updateMatched t pairs) !! a = Some trk2 ->
  exists trk1,
    tracks t !! a = Some trk1 /\
    ((~ In a (map fst pairs) /\ trk2 = trk1) \/
     (exists b det, In (a, b) pairs /\ detections !! b = Some det /\
                    trk2 = updatedTrack trk1 det frameId currentTime)).
Proof.
  revert t. induction pairs as [|[a0 b0] pairs IH]; intros t Hnd Hrange H2.
  - simpl in *. exists trk2. split; [exact H2|]. left. auto.
  - simpl in Hnd. apply NoDup_cons in Hnd as [Hfresh Hnd].
    rewrite list_elem_of_In in Hfresh.
    destruct (lookup_lt_is_Some_2 detections b0) as [det0 Hdet0].
    { apply (Hrange a0 b0). left. reflexivity. }
    simpl in H2. rewrite Hdet0 in H2.
    destruct (IH _ Hnd (fun a b H => Hrange a b (or_intror H)) H2)
      as (trk1' & H1' & Hcase).
    rewrite updateTrack_lookup in H1'.
    destruct (Nat.eq_dec a0 a) as [->|Hne].
    + destruct (tracks t !! a) as [trk1|] eqn:E1; [|discriminate].
      simpl in H1'. injection H1' as <-.
      exists trk1. split; [reflexivity|]. right.
      destruct Hcase as [[_ ->] | (b & det & Hin & _)].
      * exists b0, det0. simpl. auto.
      * exfalso. apply Hfresh. apply in_map_fst. eauto.
    + exists trk1'. split; [exact H1'|].
      destruct Hcase as [[Hnin ->] | (b & det & Hin & Hdet & ->)].
      * left. split; [|reflexivity]. simpl. intros [E|E]; [lia | contradiction].
      * right. exists b, det. simpl. auto.
Qed.

Lemma updateMatched_length t pairs :
  length (tracks (updateMatched t pairs)) = length (tracks t).
Proof.
  revert t. induction pairs as [|[a b] pairs IH]; intros t; simpl; [auto|].
  destruct (detections !! b) as [det|]; [|apply IH].
  rewrite IH. unfold updateTrack.
  destruct (tracks t !! a); simpl; [apply length_insert | reflexivity].
Qed.

Lemma updateMatched_hit t pairs a b trk1 det :
  NoDup (map fst pairs) ->
  (forall a b, In (a, b) pairs -> (b < length detections)%nat) ->
  In (a, b) pairs ->
  tracks t !! a = Some trk1 -> detections !! b = Some det ->
  exists det',
    tracks (updateMatched t pairs) !! a
    = Some (updatedTrack trk1 det' frameId currentTime).
Proof.
  intros Hnd Hrange Hin H1 Hdet.
  destruct (lookup_lt_is_Some_2 (tracks (updateMatched t pairs)) a)
    as [trk2 H2].
  { rewrite updateMatched_length. eapply lookup_lt_Some. exact H1. }
  destruct (updateMatched_lookup t pairs a trk2 Hnd Hrange H2)
    as (trk1' & H1' & Hcase).
  assert (trk1' = trk1) by congruence. subst trk1'.
  destruct Hcase as [[Hnin _] | (b' & det' & _ & _ & ->)].
  - exfalso. apply Hnin. apply in_map_fst. eauto.
  - eauto.
Qed.

End Matched.

(** ** createTrack and the loop over the unmatched detections *)

Lemma tracks_set_fresh k v ts :
  Forall (fun i => (i < k)%positive) (map id ts) ->
  tracks_set k v ts = ts ++ [v].
Proof.
  induction ts as [|trk ts IH]; intros H; simpl in *.
  - reflexivity.
  - apply Forall_cons in H as [Hk H].
    destruct (Pos.eqb_spec (id trk) k) as [E|_]; [lia|].
    rewrite IH by exact H. reflexivity.
Qed.

Lemma createTrack_tracks t det fid now :
  Forall (fun i => (i < nextTrackId t)%positive) (map id (tracks t)) ->
  exists track,
    tracks (createTrack t det fid now) = tracks t ++ [track] /\
    id track = nextTrackId t /\
    hits track = 1%nat /\ timeSinceUpdate track = 0%nat /\ age track = 0%nat.
Proof.
  intros Hb. unfold createTrack. cbn [tracks id].
  rewrite tracks_set_fresh by exact Hb.
  eexists. split; [reflexivity|]. simpl. auto.
Qed.

Lemma createTrack_spec t det fid now :
  ids_ordered t ->
  let t' := createTrack t det fid now in
  ids_ordered t' /\
  (nextTrackId t < nextTrackId t')%positive /\
  minHits t' = minHits t /\ maxAge t' = maxAge t /\
  exists track, tracks t' = tracks t ++ [track] /\
                fresh_track (nextTrackId t) (nextTrackId t') track.
Proof.
  intros [Hs Hb]. cbv zeta.
  destruct (createTrack_tracks t det fid now Hb)
    as (trk & Ht & Hid & Hh & Hu & Ha).
  assert (Hn : nextTrackId (createTrack t det fid now)
               = Pos.succ (nextTrackId t)) by reflexivity.
  split; [|split; [lia|]].
  - split; rewrite Ht, map_app; simpl.
    + apply StronglySorted_app. split; [|split].
      * intros x y Hx Hy. apply list_elem_of_singleton in Hy. subst y.
        rewrite Forall_forall in Hb. rewrite Hid. apply Hb. exact Hx.
      * exact Hs.
      * repeat constructor.
    + apply Forall_app. split.
      * eapply Forall_impl; [exact Hb|]. intros; simpl in *; lia.
      * repeat constructor. lia.
  - split; [reflexivity|]. split; [reflexivity|].
    exists trk. split; [exact Ht|].
    unfold fresh_track. repeat split; try assumption; lia.
Qed.

Lemma createUnmatched_spec dets fid now idxs t :
  ids_ordered t ->
  let t' := createUnmatched dets fid now t idxs in
  ids_ordered t' /\
  (nextTrackId t <= nextTrackId t')%positive /\
  minHits t' = minHits t /\ maxAge t' = maxAge t /\
  exists new, tracks t' = tracks t ++ new /\
              Forall (fresh_track (nextTrackId t) (nextTrackId t')) new.
Proof.
  revert t. induction idxs as [|b idxs IH]; intros t Inv; simpl.
  - split; [exact Inv|]. split; [lia|]. split; [reflexivity|].
    split; [reflexivity|]. exists []. rewrite app_nil_r. auto.
  - destruct (dets !! b) as [det|]; [|apply IH; exact Inv].
    destruct (createTrack_spec t det fid now Inv)
      as (Inv1 & Hn1 & Hm1 & Ha1 & trk & Ht1 & Hf1).
    destruct (IH _ Inv1) as (Inv2 & Hn2 & Hm2 & Ha2 & new & Ht2 & Hf2).
    split; [exact Inv2|]. split; [lia|].
    split; [congruence|]. split; [congruence|].
    exists (trk :: new). split.
    + rewrite Ht2, Ht1, <- app_assoc. reflexivity.
    + constructor.
      * unfold fresh_track in *. intuition lia.
      * eapply Forall_impl; [exact Hf2|]. unfold fresh_track.
        intros x Hx. intuition lia.
Qed.

(** ** The loop over the unmatched tracks *)

Lemma markUnmatched_fields t idxs :
  nextTrackId (markUnmatched t idxs) = nextTrackId t /\
  minHits (markUnmatched t idxs) = minHits t /\
  maxAge (markUnmatched t idxs) = maxAge t.
Proof.
  revert t. induction idxs as [|a idxs IH]; intros t; simpl; [auto|].
  destruct (IH (with_tracks t (alter markLost a (tracks t)))) as (-> & -> & ->).
  auto.
Qed.

Lemma markUnmatched_lookup t idxs a trk4 :
  tracks (markUnmatched t idxs) !! a = Some trk4 ->
  exists trk3, tracks t !! a = Some trk3 /\
               id trk4 = id trk3 /\ hits trk4 = hits trk3 /\
               age trk4 = age trk3 /\
               (~ In a idxs -> trk4 = trk3).
Proof.
  revert t. induction idxs as [|a0 idxs IH]; intros t H4; simpl in *.
  - exists trk4. auto.
  - destruct (IH _ H4) as (trk3' & H3' & Hi & Hh & Ha & Hsame).
    simpl in H3'. rewrite list_lookup_alter in H3'.
    destruct (decide (a0 = a)) as [->|Hne].
    + destruct (tracks t !! a) as [trk3|] eqn:E; [|discriminate].
      simpl in H3'. injection H3' as <-. exists trk3.
      split; [reflexivity|]. split; [exact Hi|]. split; [exact Hh|].
      split; [exact Ha|]. intros Hn. exfalso. apply Hn. auto.
    + exists trk3'.
      split; [exact H3'|]. split; [exact Hi|]. split; [exact Hh|].
      split; [exact Ha|]. intros Hn. apply Hsame. tauto.
Qed.

Lemma markUnmatched_length t idxs :
  length (tracks (markUnmatched t idxs)) = length (tracks t).
Proof.
  revert t. induction idxs as [|a idxs IH]; intros t; simpl; [auto|].
  rewrite IH. simpl. apply length_alter.
Qed.

Lemma markUnmatched_ids t idxs :
  map id (tracks (markUnmatched t idxs)) = map id (tracks t).
Proof.
  apply list_eq. intros a. rewrite !lookup_map.
  destruct (tracks (markUnmatched t idxs) !! a) as [trk4|] eqn:E4.
  - destruct (markUnmatched_lookup t idxs a trk4 E4) as (trk3 & -> & Hi & _).
    simpl. congruence.
  - apply lookup_ge_None in E4. rewrite markUnmatched_length in E4.
    apply lookup_ge_None in E4. rewrite E4. reflexivity.
Qed.

(** ** pruneOldTracks *)

Lemma tracks_delete_all_In ks ts x :
  In x (fold_left (fun ts k => tracks_delete k ts) ks ts)
  <-> In x ts /\ ~ In (id x) ks.
Proof.
  revert ts. induction ks as [|k ks IH]; intros ts; simpl.
  - tauto.
  - rewrite IH. unfold tracks_delete. rewrite filter_In, negb_true_iff.
    rewrite Pos.eqb_neq. intuition congruence.
Qed.

Lemma sorted_filter_ids (p : Track -> bool) ts :
  StronglySorted Pos.lt (map id ts) ->
  StronglySorted Pos.lt (map id (List.filter p ts)).
Proof.
  induction ts as [|trk ts IH]; intros H; simpl in *; [constructor|].
  apply StronglySorted_inv in H as [Hs Hf].
  destruct (p trk); simpl; [|auto].
  constructor; [auto|].
  rewrite Forall_forall in *. intros x Hx. apply Hf.
  apply list_elem_of_In in Hx. apply list_elem_of_In.
  apply in_map_iff in Hx as (y & <- & Hy). apply in_map_iff.
  exists y. split; [reflexivity|]. apply filter_In in Hy. tauto.
Qed.

Lemma tracks_delete_all_sorted ks ts :
  StronglySorted Pos.lt (map id ts) ->
  StronglySorted Pos.lt
    (map id (fold_left (fun ts k => tracks_delete k ts) ks ts)).
Proof.
  revert ts. induction ks as [|k ks IH]; intros ts H; simpl; [exact H|].
  apply IH. apply sorted_filter_ids. exact H.
Qed.

Lemma pruneOldTracks_In t x :
  In x (tracks (pruneOldTracks t)) <->
  exists trk4, In trk4 (tracks t) /\ x = growOlder trk4 /\
               ~ exists other, In other (tracks t) /\ id other = id trk4 /\
                               shouldRemove t (growOlder other) = true.
Proof.
  unfold pruneOldTracks. simpl. rewrite tracks_delete_all_In.
  rewrite in_map_iff. split.
  - intros ((trk4 & <- & H4) & Hn). exists trk4. split; [exact H4|].
    split; [reflexivity|]. intros (other & Ho & Hid & Hrm).
    apply Hn. apply in_map_iff. exists (growOlder other). split; [exact Hid|].
    apply filter_In. split; [|exact Hrm]. apply in_map. exact Ho.
  - intros (trk4 & H4 & -> & Hn). split; [eauto|].
    intros Hin. apply Hn. apply in_map_iff in Hin as (y & Hid & Hy).
    apply filter_In in Hy as [Hy Hrm].
    apply in_map_iff in Hy as (other & <- & Ho). eauto.
Qed.

Lemma pruneOldTracks_spec t :
  ids_ordered t ->
  ids_ordered (pruneOldTracks t) /\
  nextTrackId (pruneOldTracks t) = nextTrackId t /\
  minHits (pruneOldTracks t) = minHits t /\
  maxAge (pruneOldTracks t) = maxAge t.
Proof.
  intros [Hs Hb]. split; [|auto]. split; simpl.
  - apply tracks_delete_all_sorted. rewrite map_map. exact Hs.
  - rewrite Forall_forall in *. intros i Hi. apply Hb.
    apply list_elem_of_In in Hi. apply list_elem_of_In.
    apply in_map_iff in Hi as (x & <- & Hx).
    apply tracks_delete_all_In in Hx as [Hx _].
    apply in_map_iff in Hx as (y & <- & Hy).
    apply in_map_iff. exists y. split; [reflexivity | exact Hy].
Qed.

Lemma updateTrack_ids t a det fid now :
  map id (tracks (updateTrack t a det fid now)) = map id (tracks t).
Proof.
  apply list_eq. intros a'. rewrite !lookup_map, updateTrack_lookup.
  destruct (Nat.eq_dec a a'); [|reflexivity].
  destruct (tracks t !! a'); reflexivity.
Qed.

Lemma updateMatched_ids dets fid now t pairs :
  map id (tracks (updateMatched dets fid now t pairs)) = map id (tracks t).
Proof.
  revert t. induction pairs as [|[a b] pairs IH]; intros t; simpl; [auto|].
  destruct (dets !! b); [|apply IH]. rewrite IH. apply updateTrack_ids.
Qed.

Lemma sorted_ids_NoDup ts :
  StronglySorted Pos.lt (map id ts) -> NoDup (map id ts).
Proof.
  generalize (map id ts). intros l H.
  induction H as [|x l _ IH Hf]; constructor; [|exact IH].
  intros Hx. rewrite Forall_forall in Hf. specialize (Hf x Hx). lia.
Qed.

Lemma sorted_ids_same_index ts a b x y :
  StronglySorted Pos.lt (map id ts) ->
  ts !! a = Some x -> ts !! b = Some y -> id x = id y -> a = b.
Proof.
  intros Hs Ha Hb E. apply sorted_ids_NoDup in Hs.
  apply (NoDup_lookup (map id ts) a b (id x) Hs).
  - rewrite lookup_map, Ha. reflexivity.
  - rewrite lookup_map, Hb, E. reflexivity.
Qed.

Lemma sorted_ids_same_track ts x y :
  StronglySorted Pos.lt (map id ts) ->
  In x ts -> In y ts -> id x = id y -> x = y.
Proof.
  intros Hs Hx Hy E.
  apply In_lookup in Hx as (a & Ha). apply In_lookup in Hy as (b & Hb).
  assert (a = b) by (eapply sorted_ids_same_index; eauto). congruence.
Qed.

Section Cycle.

Variable t : ObjectTracker.
Variable detections : list Detection.
Variable frameId : FrameId.
Variable currentTime : Z.
Hypothesis Hordered : ids_ordered t.

Let t1 := predict t.
Let m := associate t1 detections.
Let t2 := updateMatched detections frameId currentTime t1 (matched m).
Let t3 := createUnmatched detections frameId currentTime t2
            (unmatchedDetections m).
Let t4 := markUnmatched t3 (unmatchedTracks m).

Lemma cycle_phases :
  cycle t detections frameId currentTime = pruneOldTracks t4.
Proof. reflexivity. Qed.

Lemma phase_assoc :
  assoc_inv (iouThreshold t1) (costMatrix (tracks t1) detections)
            (length (tracks t1)) (length detections)
            (length (tracks t1)) m.
Proof. apply associate_inv. Qed.

Lemma phase_matched_range a b :
  In (a, b) (matched m) -> (b < length detections)%nat.
Proof.
  intros H. destruct (ai_range _ _ _ _ _ _ phase_assoc a b H) as (_ & _ & ? & _).
  assumption.
Qed.

Lemma phase2_ordered :
  ids_ordered t2 /\ nextTrackId t2 = nextTrackId t /\
  minHits t2 = minHits t /\ maxAge t2 = maxAge t.
Proof.
  destruct Hordered as [Hs Hb].
  destruct (updateMatched_fields detections frameId currentTime t1 (matched m))
    as (Hn & Hm & Ha & _).
  fold t2 in Hn, Hm, Ha.
  assert (Hi : map id (tracks t2) = map id (tracks t)).
  { unfold t2. rewrite updateMatched_ids. apply predict_ids. }
  split; [|auto]. split; rewrite Hi; [exact Hs|].
  rewrite Hn. exact Hb.
Qed.

Lemma phase3_spec :
  ids_ordered t3 /\
  (nextTrackId t <= nextTrackId t3)%positive /\
  minHits t3 = minHits t /\ maxAge t3 = maxAge t /\
  exists new, tracks t3 = tracks t2 ++ new /\
              Forall (fresh_track (nextTrackId t) (nextTrackId t3)) new.
Proof.
  destruct phase2_ordered as (Inv2 & Hn2 & Hm2 & Ha2).
  destruct (createUnmatched_spec detections frameId currentTime
              (unmatchedDetections m) t2 Inv2)
    as (Inv3 & Hn3 & Hm3 & Ha3 & new & Ht3 & Hf3).
  fold t3 in Inv3, Hn3, Hm3, Ha3, Ht3, Hf3.
  rewrite Hn2 in Hn3, Hf3.
  split; [exact Inv3|]. split; [exact Hn3|].
  split; [congruence|]. split; [congruence|]. eauto.
Qed.

Lemma phase4_spec :
  ids_ordered t4 /\ nextTrackId t4 = nextTrackId t3 /\
  minHits t4 = minHits t /\ maxAge t4 = maxAge t.
Proof.
  destruct phase3_spec as ([Hs Hb] & _ & Hm3 & Ha3 & _).
  destruct (markUnmatched_fields t3 (unmatchedTracks m)) as (Hn & Hm & Ha).
  fold t4 in Hn, Hm, Ha.
  assert (Hi : map id (tracks t4) = map id (tracks t3))
    by apply markUnmatched_ids.
  split; [|split; [exact Hn | split; congruence]].
  split; rewrite Hi; [exact Hs|]. rewrite Hn. exact Hb.
Qed.

Lemma cycle_ordered :
  let t' := cycle t detections frameId currentTime in
  ids_ordered t' /\ (nextTrackId t <= nextTrackId t')%positive /\
  minHits t' = minHits t /\ maxAge t' = maxAge t.
Proof.
  cbv zeta. rewrite cycle_phases.
  destruct phase4_spec as (Inv4 & Hn4 & Hm4 & Ha4).
  destruct phase3_spec as (_ & Hn3 & _).
  destruct (pruneOldTracks_spec t4 Inv4) as (Inv5 & Hn5 & Hm5 & Ha5).
  split; [exact Inv5|]. split; [lia|]. split; congruence.
Qed.

(** Where a track that is live after the cycle comes from: a track the
    registry held before, paired with a detection (one more hit) or not
    (same hits), or a track the cycle created (one hit). *)
Lemma cycle_origin trk' :
  In trk' (tracks (cycle t detections frameId currentTime)) ->
  (exists a trk1,
      tracks t1 !! a = Some trk1 /\ id trk' = id trk1 /\
      ((exists b, In (a, b) (matched m) /\ hits trk' = (hits trk1 + 1)%nat) \/
       (~ In a (map fst (matched m)) /\ hits trk' = hits trk1))) \/
  ((nextTrackId t <= id trk')%positive /\
   (id trk' < nextTrackId (cycle t detections frameId currentTime))%positive /\
   hits trk' = 1%nat).
Proof.
  rewrite cycle_phases. intros H5.
  apply pruneOldTracks_In in H5 as (trk4 & H4 & -> & _).
  apply In_lookup in H4 as (a & H4).
  destruct (markUnmatched_lookup t3 (unmatchedTracks m) a trk4 H4)
    as (trk3 & H3 & Hi & Hh & _).
  destruct phase3_spec as (_ & _ & _ & _ & new & Ht3 & Hf3).
  rewrite Ht3 in H3. apply lookup_app_Some in H3 as [H2 | [_ Hnew]].
  - left.
    destruct (updateMatched_lookup detections frameId currentTime t1
                (matched m) a trk3
                (ai_fst _ _ _ _ _ _ phase_assoc) phase_matched_range H2)
      as (trk1 & H1 & Hcase).
    exists a, trk1. split; [exact H1|].
    destruct Hcase as [[Hn ->] | (b & det & Hin & _ & ->)]; simpl.
    + split; [congruence|]. right. split; [exact Hn | congruence].
    + split; [simpl in Hi; congruence|]. left. exists b.
      split; [exact Hin|]. simpl in Hh. congruence.
  - right. rewrite Forall_forall in Hf3.
    assert (Hf : fresh_track (nextTrackId t) (nextTrackId t3) trk3).
    { apply Hf3. eapply list_elem_of_lookup_2. exact Hnew. }
    destruct Hf as (Hlo & Hhi & Hh1 & _).
    destruct phase4_spec as (Inv4 & Hn4 & _).
    simpl. rewrite Hi, Hh, Hn4. auto.
Qed.

(** A track paired with a detection that reaches [minHits] with this hit
    is live after the cycle. *)
Lemma cycle_matched_survives a b trk1 :
  In (a, b) (matched m) ->
  tracks t1 !! a = Some trk1 ->
  (minHits t <= hits trk1 + 1)%nat ->
  live (cycle t detections frameId currentTime) (id trk1).
Proof.
  intros Hin H1 Hhits.
  destruct (lookup_lt_is_Some_2 detections b (phase_matched_range a b Hin))
    as [det Hdet].
  destruct (updateMatched_hit detections frameId currentTime t1 (matched m)
              a b trk1 det (ai_fst _ _ _ _ _ _ phase_assoc)
              phase_matched_range Hin H1 Hdet) as (det' & H2).
  fold t2 in H2.
  destruct phase3_spec as (_ & _ & Hm3 & Ha3 & new & Ht3 & _).
  assert (H3 : tracks t3 !! a
               = Some (updatedTrack trk1 det' frameId currentTime)).
  { rewrite Ht3. apply lookup_app_l_Some. exact H2. }
  destruct (lookup_lt_is_Some_2 (tracks t4) a) as [trk4 H4].
  { unfold t4. rewrite markUnmatched_length. eapply lookup_lt_Some. exact H3. }
  destruct (markUnmatched_lookup t3 (unmatchedTracks m) a trk4 H4)
    as (trk3 & H3' & Hi & Hh & _ & Hsame).
  assert (trk3 = updatedTrack trk1 det' frameId currentTime) by congruence.
  subst trk3.
  assert (Hkeep : trk4 = updatedTrack trk1 det' frameId currentTime).
  { apply Hsame. intros Hu.
    apply (ai_unmT _ _ _ _ _ _ phase_assoc) in Hu as [_ Hu].
    apply Hu. apply in_map_fst. eauto. }
  destruct phase4_spec as ([Hs4 _] & _ & Hm4 & Ha4).
  unfold live. rewrite cycle_phases. apply in_map_iff.
  exists (growOlder trk4). split; [rewrite Hkeep; reflexivity|].
  apply pruneOldTracks_In. exists trk4.
  split; [apply In_lookup; eauto|]. split; [reflexivity|].
  intros (other & Ho & Hid & Hrm).
  assert (other = trk4).
  { apply (sorted_ids_same_track (tracks t4)); auto. apply In_lookup. eauto. }
  subst other. rewrite Hkeep in Hrm. unfold shouldRemove in Hrm. simpl in Hrm.
  rewrite Hm4 in Hrm.
  apply andb_true_iff in Hrm as [Hrm _]. apply Nat.ltb_lt in Hrm. lia.
Qed.

End Cycle.

(** ** Runs of cycles *)

Lemma new_ordered options : ids_ordered (new_ObjectTracker options).
Proof. split; simpl; constructor. Qed.

Lemma cycles_snoc t batches dets fid now :
  cycles t (batches ++ [(dets, fid, now)])
  = cycle (cycles t batches) dets fid now.
Proof. unfold cycles. rewrite fold_left_app. reflexivity. Qed.

Lemma cycles_ordered t batches :
  ids_ordered t ->
  ids_ordered (cycles t batches) /\
  (nextTrackId t <= nextTrackId (cycles t batches))%positive /\
  minHits (cycles t batches) = minHits t.
Proof.
  revert t. induction batches as [|[[dets fid] now] batches IH]; intros t Inv.
  - simpl. split; [exact Inv|]. split; [lia | reflexivity].
  - simpl. destruct (cycle_ordered t dets fid now Inv) as (Inv' & Hn & Hm & _).
    destruct (IH _ Inv') as (Inv'' & Hn' & Hm').
    split; [exact Inv''|]. split; [lia | congruence].
Qed.

Lemma reachable_ordered t : reachable t -> ids_ordered t.
Proof.
  intros (options & batches & ->). apply cycles_ordered, new_ordered.
Qed.

Lemma reachable_cycle t dets fid now :
  reachable t -> reachable (cycle t dets fid now).
Proof.
  intros (options & batches & ->).
  exists options, (batches ++ [(dets, fid, now)]).
  symmetry. apply cycles_snoc.
Qed.

Lemma live_below_counter t i :
  ids_ordered t -> live t i -> (i < nextTrackId t)%positive.
Proof.
  intros [_ Hb] H. rewrite Forall_forall in Hb. apply Hb.
  apply list_elem_of_In. exact H.
Qed.

Lemma live_predict t i : live (predict t) i <-> live t i.
Proof. unfold live. rewrite predict_ids. reflexivity. Qed.

(** A track that is live after a cycle was live before it, or carries an
    identifier at or above the counter the cycle started with. *)
Lemma cycle_live t dets fid now i :
  ids_ordered t ->
  live (cycle t dets fid now) i ->
  live t i \/
  ((nextTrackId t <= i)%positive /\
   (i < nextTrackId (cycle t dets fid now))%positive).
Proof.
  intros Inv H. apply in_map_iff in H as (trk' & <- & H).
  destruct (cycle_origin t dets fid now Inv trk' H)
    as [(a & trk1 & H1 & Hid & _) | (Hlo & Hhi & _)].
  - left. apply live_predict. unfold live. rewrite Hid.
    apply in_map. apply In_lookup. eauto.
  - right. auto.
Qed.

Lemma removed_stays_removed t batches i :
  ids_ordered t -> (i < nextTrackId t)%positive -> ~ live t i ->
  ~ live (cycles t batches) i.
Proof.
  revert t. induction batches as [|[[dets fid] now] batches IH];
    intros t Inv Hi Hn; simpl; [exact Hn|].
  destruct (cycle_ordered t dets fid now Inv) as (Inv' & Hnext & _).
  apply IH; [exact Inv' | lia |].
  intros H. destruct (cycle_live t dets fid now i Inv H) as [H' | [H' _]];
    [contradiction | lia].
Qed.

(** What [pruneOldTracks] removes met one of its two conditions. *)
Lemma pruned_for_a_reason u track :
  NoDup (map id (tracks u)) ->
  In track (tracks u) ->
  ~ live (pruneOldTracks u) (id track) ->
  (maxAge u < timeSinceUpdate track)%nat \/
  ((hits track < minHits u)%nat /\ (10 < age track + 1)%nat).
Proof.
  intros Hnd Hin Hgone.
  destruct (shouldRemove u (growOlder track)) eqn:E.
  - unfold shouldRemove in E. simpl in E.
    apply orb_true_iff in E as [E | E].
    + left. apply Nat.ltb_lt in E. exact E.
    + right. apply andb_true_iff in E as [E1 E2].
      apply Nat.ltb_lt in E1. apply Nat.ltb_lt in E2. auto.
  - exfalso. apply Hgone. unfold live. apply in_map_iff.
    exists (growOlder track). split; [reflexivity|].
    apply pruneOldTracks_In. exists track. split; [exact Hin|].
    split; [reflexivity|]. intros (other & Ho & Hid & Hrm).
    assert (other = track); [|congruence].
    apply In_lookup in Ho as (a & Ha). apply In_lookup in Hin as (b & Hb).
    assert (a = b); [|congruence].
    apply (NoDup_lookup (map id (tracks u)) a b (id track) Hnd).
    + rewrite lookup_map, Ha. simpl. congruence.
    + rewrite lookup_map, Hb. reflexivity.
Qed.

(** C5.  In every tracker reached from a new one, the live tracks are
    listed in strictly increasing order of trackId, so no two of them
    share one, and every live trackId is below the counter.  A cycle
    never lowers the counter, and a track it adds takes its trackId from
    the counter upwards, above every trackId assigned before.  What
    [pruneOldTracks] removes met one of its two conditions
    ([timeSinceUpdate] above [maxAge], or [hits] below [minHits] with an
    age above 10).  A trackId that was live and is live no more is never
    live again. *)
Theorem trackIds_unique_never_reused (options : Options)
  (before between after : list Batch)
  (detections : list Detection) (frameId : FrameId) (currentTime : Z)
  (i : positive) :
  let t := cycles (new_ObjectTracker options) before in
  let t' := cycle t detections frameId currentTime in
  StronglySorted Pos.lt (map id (tracks t)) /\
  NoDup (map id (tracks t)) /\
  Forall (fun j => (j < nextTrackId t)%positive) (map id (tracks t)) /\
  (nextTrackId t <= nextTrackId t')%positive /\
  (forall j, live t' j -> ~ live t j ->
             (nextTrackId t <= j)%positive /\ (j < nextTrackId t')%positive) /\
  (forall u track, NoDup (map id (tracks u)) -> In track (tracks u) ->
                   ~ live (pruneOldTracks u) (id track) ->
                   (maxAge u < timeSinceUpdate track)%nat \/
                   ((hits track < minHits u)%nat /\ (10 < age track + 1)%nat)) /\
  (live t i -> ~ live (cycles t between) i ->
   ~ live (cycles (cycles t between) after) i).
Proof.
  cbv zeta. set (t := cycles (new_ObjectTracker options) before).
  assert (Inv : ids_ordered t) by apply cycles_ordered, new_ordered.
  split; [apply Inv|]. split; [apply sorted_ids_NoDup, Inv|].
  split; [apply Inv|].
  split; [apply (cycle_ordered t detections frameId currentTime Inv)|].
  split.
  { intros j Hj Hn.
    destruct (cycle_live t detections frameId currentTime j Inv Hj); tauto. }
  split; [apply pruned_for_a_reason|].
  intros Hlive Hgone.
  destruct (cycles_ordered t between Inv) as (Inv' & Hn & _).
  apply removed_stays_removed; [exact Inv' | | exact Hgone].
  pose proof (live_below_counter t i Inv Hlive). lia.
Qed.

(** ** Confirmation *)

Lemma exposed_iff t i :
  exposed t i <->
  exists track, In track (tracks t) /\ id track = i /\
                (minHits t <= hits track)%nat.
Proof.
  unfold exposed, getConfirmedTracks. rewrite map_map. simpl.
  rewrite in_map_iff. split.
  - intros (trk & E & H). apply filter_In in H as [H C].
    apply Nat.leb_le in C. eauto.
  - intros (trk & H & E & C). exists trk. split; [exact E|].
    apply filter_In. split; [exact H|]. apply Nat.leb_le. exact C.
Qed.

Lemma streak_spec i k t :
  streak i k t ->
  reachable t /\
  (forall track, In track (tracks t) -> id track = i -> hits track = k) /\
  ((minHits t <= k)%nat -> live t i).
Proof.
  induction 1 as [t dets fid now Hr Hnot Hlive
                 |k t dets fid now Hs (Hr & Hhits & _) Hm].
  - split; [apply reachable_cycle, Hr|]. split; [|auto].
    intros trk' Hin Hid.
    destruct (cycle_origin t dets fid now (reachable_ordered t Hr) trk' Hin)
      as [(a & trk1 & H1 & Hid1 & _) | (_ & _ & Hh)]; [|exact Hh].
    exfalso. apply Hnot. apply live_predict. unfold live.
    rewrite <- Hid, Hid1. apply in_map. apply In_lookup. eauto.
  - pose proof (reachable_ordered t Hr) as Inv.
    destruct Hm as (a & b & trk1 & Hin & H1 & Hid1).
    assert (Hk : hits trk1 = k).
    { rewrite predict_lookup in H1.
      destruct (tracks t !! a) as [trk0|] eqn:E0; [|discriminate].
      simpl in H1. injection H1 as <-. simpl in *.
      apply Hhits; [apply In_lookup; eauto | exact Hid1]. }
    destruct (cycle_ordered t dets fid now Inv) as (_ & _ & Hmin & _).
    split; [apply reachable_cycle, Hr|]. split.
    + intros trk' Hin' Hid'.
      destruct (cycle_origin t dets fid now Inv trk' Hin')
        as [(a' & trk1' & H1' & Hid1' & Hcase) | (Hlo & _ & _)].
      * assert (a' = a).
        { apply (sorted_ids_same_index (tracks (predict t)) a' a trk1' trk1);
            auto; [|congruence].
          rewrite predict_ids. apply Inv. }
        subst a'. assert (trk1' = trk1) by congruence. subst trk1'.
        destruct Hcase as [(b' & _ & Hh) | (Hn & _)]; [lia|].
        exfalso. apply Hn. apply in_map_fst. eauto.
      * exfalso.
        assert (live t i).
        { apply live_predict. unfold live. rewrite <- Hid1.
          apply in_map. apply In_lookup. eauto. }
        pose proof (live_below_counter t i Inv H). lia.
    + intros Hreach. rewrite <- Hid1.
      apply (cycle_matched_survives t dets fid now Inv a b trk1 Hin H1).
      lia.
Qed.

(** C4.  After any number of update cycles, [getConfirmedTracks] exposes
    exactly the trackIds of the live tracks with [hits >= minHits].  A
    track paired with a detection in every cycle since the one that
    created it is, after its [k]-th cycle (the creating cycle is the
    first, where [hits] starts at 1), live and exposed when
    [k >= minHits] and not exposed when [k < minHits]: it first appears
    at its [minHits]-th cycle.  An exposed track stays exposed after
    every later cycle that it survives, and a track with
    [hits < minHits] is never exposed. *)
Theorem confirmation_gating (t : ObjectTracker) (i : positive) (k : nat) :
  reachable t ->
  (exposed t i <->
   exists track, In track (tracks t) /\ id track = i /\
                 (minHits t <= hits track)%nat) /\
  (streak i k t ->
   ((minHits t <= k)%nat -> live t i /\ exposed t i) /\
   ((k < minHits t)%nat -> ~ exposed t i)) /\
  (exposed t i ->
   forall detections frameId currentTime,
     live (cycle t detections frameId currentTime) i ->
     exposed (cycle t detections frameId currentTime) i).
Proof.
  intros Hr. split; [apply exposed_iff|]. split.
  - intros Hs. destruct (streak_spec i k t Hs) as (_ & Hhits & Hlive). split.
    + intros Hk. split; [auto|]. apply exposed_iff.
      specialize (Hlive Hk). apply in_map_iff in Hlive as (trk & Hid & Hin).
      exists trk. rewrite (Hhits trk Hin Hid). auto.
    + intros Hk He. apply exposed_iff in He as (trk & Hin & Hid & Hc).
      rewrite (Hhits trk Hin Hid) in Hc. lia.
  - intros He dets fid now Hl.
    pose proof (reachable_ordered t Hr) as Inv.
    apply exposed_iff in He as (trk0 & Hin0 & Hid0 & Hc0).
    apply in_map_iff in Hl as (trk' & Hid' & Hin').
    destruct (cycle_ordered t dets fid now Inv) as (_ & _ & Hmin & _).
    apply exposed_iff. exists trk'. split; [exact Hin'|].
    split; [exact Hid'|]. rewrite Hmin.
    destruct (cycle_origin t dets fid now Inv trk' Hin')
      as [(a & trk1 & H1 & Hid1 & Hcase) | (Hlo & _ & _)].
    + rewrite predict_lookup in H1.
      destruct (tracks t !! a) as [trk0'|] eqn:E0; [|discriminate].
      simpl in H1. injection H1 as <-. simpl in *.
      assert (trk0' = trk0).
      { apply (sorted_ids_same_track (tracks t)); auto.
        - apply Inv.
        - apply In_lookup. eauto.
        - congruence. }
      subst trk0'. destruct Hcase as [(b & _ & Hh) | (_ & Hh)]; lia.
    + exfalso.
      assert (live t i).
      { unfold live. rewrite <- Hid0. apply in_map. exact Hin0. }
      pose proof (live_below_counter t i Inv H). lia.
Qed.

(** ** associate and the scheme of the specification *)

Lemma costAt_costMatrix ts dets a b c :
  costAt (costMatrix ts dets) a b = Some c <->
  exists track detection,
    ts !! a = Some track /\ dets !! b = Some detection /\
    c = 1 - calculateIoU (prediction track) (box detection).
Proof.
  unfold costAt, costMatrix. rewrite lookup_map.
  destruct (ts !! a) as [trk|]; simpl.
  - rewrite lookup_map. destruct (dets !! b) as [det|]; simpl.
    + split.
      * intros E. injection E as <-. eauto.
      * intros (trk' & det' & E1 & E2 & ->). congruence.
    + split; [discriminate|]. intros (? & ? & _ & ? & _). discriminate.
  - split; [discriminate|]. intros (? & ? & ? & _). discriminate.
Qed.

(** C6 as the code has it.  [associate] takes the tracks in registry
    order.  Every pair it commits is a track and a detection whose cost
    (1 - IoU of the predicted box and the detection box) is strictly
    below [1 - iouThreshold]; no track and no detection is in two pairs.
    The detection of a matched track has the lowest cost among the
    detections that no earlier track took, the first such in scan order;
    a track left unmatched had no detection below the threshold among
    those.  The unmatched lists are the indices outside the pairs. *)
Theorem associate_is_trackwise_greedy (t : ObjectTracker)
  (detections : list Detection) :
  let m := associate t detections in
  let cost a b := costAt (costMatrix (tracks t) detections) a b in
  let free_for a b := forall a', (a' < a)%nat -> ~ In (a', b) (matched m) in
  (forall a b, In (a, b) (matched m) ->
     exists track detection,
       tracks t !! a = Some track /\ detections !! b = Some detection /\
       1 - calculateIoU (prediction track) (box detection)
       < 1 - iouThreshold t) /\
  NoDup (map fst (matched m)) /\
  NoDup (map snd (matched m)) /\
  (forall a b c, In (a, b) (matched m) -> cost a b = Some c ->
     forall b' c', cost a b' = Some c' -> free_for a b' ->
                   c <= c' /\ ((b' < b)%nat -> c < c')) /\
  (forall a, (a < length (tracks t))%nat -> ~ In a (map fst (matched m)) ->
     forall b' c', cost a b' = Some c' -> free_for a b' ->
                   1 - iouThreshold t <= c') /\
  (forall a, In a (unmatchedTracks m) <->
             (a < length (tracks t))%nat /\ ~ In a (map fst (matched m))) /\
  (forall b, In b (unmatchedDetections m) <->
             (b < length detections)%nat /\ ~ In b (map snd (matched m))).
Proof.
  cbv zeta. destruct (associate_inv t detections) as [R F Sd UT UD B N].
  assert (Hcol : forall a b' c',
             costAt (costMatrix (tracks t) detections) a b' = Some c' ->
             (b' < length detections)%nat).
  { intros a b' c' H. apply costAt_costMatrix in H as (? & det & _ & H & _).
    eapply lookup_lt_Some. exact H. }
  split.
  { intros a b H. destruct (R a b H) as (_ & _ & _ & c & Hc & Hlt).
    apply costAt_costMatrix in Hc as (trk & det & E1 & E2 & ->). eauto 10. }
  split; [exact F|]. split; [exact Sd|]. split.
  { intros a b c H Hc b' c' Hc' Hfree. apply (B a b c H Hc b' c' Hc'); eauto. }
  split.
  { intros a Ha Hn b' c' Hc' Hfree. apply (N a Ha Hn b' c' Hc'); eauto. }
  split; [exact UT | exact UD].
Qed.

(** ** The scheme of the specification always stops *)

Lemma lowestCell_from_In cs best :
  match fold_left lowerCell cs best with
  | Some cell => In cell cs \/ best = Some cell
  | None => best = None /\ cs = []
  end.
Proof.
  revert best. induction cs as [|cell cs IH]; intros best; simpl.
  - destruct best; auto.
  - specialize (IH (lowerCell best cell)).
    destruct (fold_left lowerCell cs (lowerCell best cell)) as [found|].
    + destruct IH as [IH | IH]; [auto|].
      unfold lowerCell in IH.
      destruct best as [[[i j] bc]|]; [|injection IH as <-; auto].
      destruct (Qltb (snd cell) bc); [injection IH as <-; auto | auto].
    + destruct IH as [IH _]. unfold lowerCell in IH.
      destruct best as [[[i j] bc]|]; [|discriminate].
      destruct (Qltb (snd cell) bc); discriminate.
Qed.

Lemma lowestCell_In cs cell : lowestCell cs = Some cell -> In cell cs.
Proof.
  intros H. pose proof (lowestCell_from_In cs None) as L.
  unfold lowestCell in H. rewrite H in L. destruct L; [auto | discriminate].
Qed.

Lemma filter_drops_one {A} (p : A -> bool) (l : list A) x :
  In x l -> p x = false -> (length (List.filter p l) < length l)%nat.
Proof.
  induction l as [|y l IH]; intros Hin Hp; simpl in *; [contradiction|].
  pose proof (List.filter_length_le p l) as Hle.
  destruct Hin as [->|Hin].
  - rewrite Hp. lia.
  - specialize (IH Hin Hp). destruct (p y); simpl; lia.
Qed.

(** More rounds than there are cells change nothing: each round that
    commits a pair removes at least the committed cell. *)
Lemma commitLowest_rounds threshold n n' cs :
  (length cs <= n)%nat -> (length cs <= n')%nat ->
  commitLowest n threshold cs = commitLowest n' threshold cs.
Proof.
  revert n' cs. induction n as [|n IH]; intros n' cs Hn Hn'.
  - destruct cs; [|simpl in Hn; lia]. destruct n'; reflexivity.
  - destruct n' as [|n'].
    + destruct cs; [reflexivity | simpl in Hn'; lia].
    + simpl. destruct (lowestCell cs) as [[[i j] c]|] eqn:L; [|reflexivity].
      destruct (Qltb c (1 - threshold)); [|reflexivity].
      f_equal.
      assert (Hlt : (length (withoutRowColumn i j cs) < length cs)%nat).
      { apply (filter_drops_one _ cs (i, j, c)).
        - apply lowestCell_In. exact L.
        - rewrite Nat.eqb_refl. reflexivity. }
      apply IH; lia.
Qed.

(** ** Concrete runs *)

Import Examples.

Lemma two_tracks_reachable : reachable two_tracks.
Proof.
  exists default_options,
    [([wide (15 # 100) (65 # 100) "person";
       wide (275 # 1000) (775 # 1000) "person"], FrameNum 0, 0%Z)].
  reflexivity.
Qed.

(** C6, refuted as stated.  Tracks 1 and 2 stand side by side and two
    detections arrive; the costs are 6/13 and 1/3 for the first track,
    22/31 and 2/21 for the second, the threshold is 7/10.  [associate]
    gives the first track its best detection (index 1) and leaves the
    second track unmatched; the scheme of the specification commits
    (1, 1) first, the lowest cell, and then (0, 0). *)
Lemma associate_not_globally_greedy :
  let t := predict two_tracks in
  map (map Qred) (costMatrix (tracks t) next_batch)
  = [[6 # 13; 1 # 3]; [22 # 31; 2 # 21]] /\
  matched (associate t next_batch) = [(0, 1)]%nat /\
  globallyGreedy t next_batch = [(1, 1); (0, 0)]%nat /\
  ~ same_pairs (matched (associate t next_batch))
               (globallyGreedy t next_batch).
Proof.
  cbv zeta.
  assert (E1 : matched (associate (predict two_tracks) next_batch)
               = [(0, 1)]%nat) by (vm_compute; reflexivity).
  assert (E2 : globallyGreedy (predict two_tracks) next_batch
               = [(1, 1); (0, 0)]%nat) by (vm_compute; reflexivity).
  split; [vm_compute; reflexivity|]. split; [exact E1|]. split; [exact E2|].
  rewrite E1, E2. intros H. destruct (H (1, 1)%nat) as [_ H'].
  destruct H' as [H' | []]; [left; reflexivity | discriminate].
Qed.

Lemma associate_is_trackwise_greedy_witness :
  NoDup (map fst (matched (associate (predict two_tracks) next_batch))) /\
  (forall c', costAt (costMatrix (tracks (predict two_tracks)) next_batch) 1 0
              = Some c' -> 1 - iouThreshold (predict two_tracks) <= c').
Proof.
  destruct (associate_is_trackwise_greedy (predict two_tracks) next_batch)
    as (_ & Hnd & _ & _ & Hnone & _).
  split; [exact Hnd|].
  intros c' Hc. apply (Hnone 1%nat) with (b' := 0%nat).
  - vm_compute. lia.
  - vm_compute. intros [H | []]. discriminate.
  - exact Hc.
  - intros a' Ha'. vm_compute. intros [H | []].
    injection H as H1 H2. discriminate.
Defined.


(** The scenario of the specification: the same box in three frames
    gives one track, exposed from the third cycle on. *)
Lemma streak_of_person : streak 1 3 (after_tick 3).
Proof.
  change (after_tick 3)
    with (cycle (after_tick 2) [person] (FrameNum 2) 66%Z).
  apply streak_matched.
  - change (after_tick 2)
      with (cycle (after_tick 1) [person] (FrameNum 1) 33%Z).
    apply streak_matched.
    + change (after_tick 1)
        with (cycle (after_tick 0) [person] (FrameNum 0) 0%Z).
      apply streak_created.
      * exists default_options, []. reflexivity.
      * vm_compute. tauto.
      * vm_compute. auto.
    + exists 0%nat, 0%nat. eexists. split; [vm_compute; auto|].
      split; [vm_compute; reflexivity | reflexivity].
  - exists 0%nat, 0%nat. eexists. split; [vm_compute; auto|].
    split; [vm_compute; reflexivity | reflexivity].
Defined.

Lemma confirmation_gating_witness :
  exposed (after_tick 3) 1 /\ ~ exposed (after_tick 2) 1.
Proof.
  split.
  - assert (Hr : reachable (after_tick 3)).
    { exists default_options,
        [([person], FrameNum 0, 0%Z); ([person], FrameNum 1, 33%Z);
         ([person], FrameNum 2, 66%Z)].
      reflexivity. }
    destruct (confirmation_gating (after_tick 3) 1 3 Hr) as (_ & Hs & _).
    destruct (Hs streak_of_person) as [Hyes _].
    apply Hyes. vm_compute. lia.
  - vm_compute. tauto.
Defined.

(** A track seen once and never again is pruned at its eleventh cycle;
    the next detection gets trackId 2. *)
Lemma trackIds_unique_never_reused_witness :
  let seen_once := [([person], FrameNum 0, 0%Z)] in
  let silence := repeat ([], FrameNum 1, 33%Z) 10 in
  let seen_again := [([person], FrameNum 2, 66%Z)] in
  let t := cycles (new_ObjectTracker default_options) seen_once in
  live t 1 /\
  ~ live (cycles t silence) 1 /\
  ~ live (cycles (cycles t silence) seen_again) 1 /\
  live (cycles (cycles t silence) seen_again) 2.
Proof.
  cbv zeta.
  assert (H1 : live (cycles (new_ObjectTracker default_options)
                       [([person], FrameNum 0, 0%Z)]) 1)
    by (vm_compute; auto).
  assert (H2 : ~ live (cycles (cycles (new_ObjectTracker default_options)
                                 [([person], FrameNum 0, 0%Z)])
                         (repeat ([], FrameNum 1, 33%Z) 10)) 1)
    by (vm_compute; tauto).
  split; [exact H1|]. split; [exact H2|]. split.
  - destruct (trackIds_unique_never_reused default_options
                [([person], FrameNum 0, 0%Z)]
                (repeat ([], FrameNum 1, 33%Z) 10)
                [([person], FrameNum 2, 66%Z)]
                [] (FrameNum 0) 0%Z 1) as (_ & _ & _ & _ & _ & _ & Hgone).
    exact (Hgone H1 H2).
  - vm_compute. auto.
Defined.

End TrackerFacts.

Module MetricsFacts.

Import Metrics.

#[local] Open Scope Z_scope.

(** ** The sorted copy *)

Lemma sort_ascending_sorted arr : StronglySorted Z.le (sort_ascending arr).
Proof. apply StronglySorted_merge_sort; apply _. Qed.

Lemma sort_ascending_perm arr : sort_ascending arr ≡ₚ arr.
Proof. apply merge_sort_Permutation. Qed.

Lemma sort_ascending_length arr : length (sort_ascending arr) = length arr.
Proof. apply Permutation_length, sort_ascending_perm. Qed.

(** Two arrays with the same elements have the same sorted copy. *)
Lemma sort_ascending_unique (arr1 arr2 : list Z) :
  arr1 ≡ₚ arr2 -> sort_ascending arr1 = sort_ascending arr2.
Proof.
  intros HP.
  apply (Sorted_unique Z.le).
  - apply Sorted_merge_sort; apply _.
  - apply Sorted_merge_sort; apply _.
  - rewrite !sort_ascending_perm. exact HP.
Qed.

Lemma sorted_lookup_le (l : list Z) (i j : nat) x y :
  StronglySorted Z.le l -> (i <= j)%nat ->
  l !! i = Some x -> l !! j = Some y -> x <= y.
Proof.
  intros HS. revert i j x y.
  induction HS as [|a l HS IH Ha]; intros i j x y Hij Hi Hj.
  - discriminate.
  - destruct i as [|i], j as [|j]; simpl in *.
    + assert (x = y) by congruence. lia.
    + injection Hi as <-. rewrite Forall_forall in Ha. apply Ha.
      eapply list_elem_of_lookup_2. exact Hj.
    + lia.
    + apply (IH i j); [lia | assumption | assumption].
Qed.

Lemma at_index_lookup (l : list Z) i :
  (i < length l)%nat -> l !! i = Some (at_index l i).
Proof.
  intros H. unfold at_index.
  destruct (lookup_lt_is_Some_2 l i H) as [x ->]. reflexivity.
Qed.

Lemma at_index_le (l : list Z) i j :
  StronglySorted Z.le l -> (i <= j)%nat -> (j < length l)%nat ->
  at_index l i <= at_index l j.
Proof.
  intros HS Hij Hj.
  apply (sorted_lookup_le l i j); [assumption | assumption | |];
    apply at_index_lookup; lia.
Qed.

(** The four indices read by the function are ordered and within range. *)
Lemma stat_indices n :
  (1 <= n)%nat ->
  (0 <= n / 2)%nat /\ (n / 2 <= floor_95_percent n)%nat /\
  (floor_95_percent n <= n - 1)%nat /\ (n - 1 < n)%nat.
Proof.
  intros Hn. unfold floor_95_percent.
  pose proof (Nat.div_mod_eq n 2) as E2.
  pose proof (Nat.mod_upper_bound n 2) as B2.
  pose proof (Nat.div_mod_eq (n * 19) 20) as E20.
  pose proof (Nat.mod_upper_bound (n * 19) 20) as B20.
  lia.
Qed.

(** ** Sum and average *)

Lemma fold_sum_shift (arr : list Z) (a : Z) :
  fold_left (fun sum val => sum + val) arr a
  = a + fold_left (fun sum val => sum + val) arr 0.
Proof.
  revert a. induction arr as [|x arr IH]; intros a; simpl.
  - lia.
  - rewrite (IH (a + x)), (IH (0 + x)). lia.
Qed.

Lemma reduce_sum_cons x arr : reduce_sum (x :: arr) = x + reduce_sum arr.
Proof.
  unfold reduce_sum. simpl. rewrite fold_sum_shift. lia.
Qed.

Lemma reduce_sum_perm (arr1 arr2 : list Z) :
  arr1 ≡ₚ arr2 -> reduce_sum arr1 = reduce_sum arr2.
Proof.
  induction 1 as [|x l l' _ IH|x y l|l l' l'' _ IH1 _ IH2].
  - reflexivity.
  - rewrite !reduce_sum_cons, IH. reflexivity.
  - rewrite !reduce_sum_cons. lia.
  - congruence.
Qed.

(** ** calculateLatencyStats *)

Lemma stats_nonempty (latencies : list Z) :
  latencies <> [] ->
  calculateLatencyStats latencies =
  let sorted := sort_ascending latencies in
  let n := length sorted in
  {| median := at_index sorted (n / 2);
     p95 := at_index sorted (floor_95_percent n);
     min := at_index sorted 0;
     max := at_index sorted (n - 1);
     avg := (inject_Z (reduce_sum latencies)
             / inject_Z (Z.of_nat (length latencies)))%Q |}.
Proof.
  destruct latencies; [congruence | reflexivity].
Qed.

Lemma stats_perm (arr1 arr2 : list Z) :
  arr1 ≡ₚ arr2 -> calculateLatencyStats arr1 = calculateLatencyStats arr2.
Proof.
  intros HP.
  destruct arr1 as [|x arr1].
  - apply Permutation_nil_l in HP. subst. reflexivity.
  - destruct arr2 as [|y arr2].
    + apply Permutation_nil_r in HP. discriminate.
    + rewrite !stats_nonempty by discriminate. cbv zeta.
      rewrite (sort_ascending_unique _ _ HP), (reduce_sum_perm _ _ HP),
        (Permutation_length HP).
      reflexivity.
Qed.

Lemma stats_unmutated (latencies : list Z) :
  snd (calculateLatencyStats_run latencies) = latencies.
Proof.
  destruct latencies; reflexivity.
Qed.

Lemma stats_ordered (latencies : list Z) :
  latencies <> [] ->
  let s := calculateLatencyStats latencies in
  min s <= median s /\ median s <= p95 s /\ p95 s <= max s.
Proof.
  intros Hne. rewrite stats_nonempty by assumption.
  cbv zeta. cbn [min median p95 max].
  set (sorted := sort_ascending latencies).
  assert (Hn : (1 <= length sorted)%nat).
  { unfold sorted. rewrite sort_ascending_length.
    destruct latencies; [congruence | simpl; lia]. }
  destruct (stat_indices _ Hn) as (I1 & I2 & I3 & I4).
  pose proof (sort_ascending_sorted latencies) as HS. fold sorted in HS.
  repeat split; apply at_index_le; try assumption; lia.
Qed.

(** C8.  [calculateLatencyStats] leaves the caller's array as it was, so
    a second call on it returns the same statistics; the statistics are
    the same for the array and for its sorted copy (indeed for every
    rearrangement of it); and on a non-empty array
    min <= median <= p95 <= max. *)
Theorem calculateLatencyStats_stable_and_ordered (latencies : list Z) :
  let '(stats, after) := calculateLatencyStats_run latencies in
  after = latencies /\
  fst (calculateLatencyStats_run after) = stats /\
  calculateLatencyStats (sort_ascending latencies) = stats /\
  (forall rearranged, rearranged ≡ₚ latencies ->
                      calculateLatencyStats rearranged = stats) /\
  (latencies <> [] ->
   min stats <= median stats /\ median stats <= p95 stats /\
   p95 stats <= max stats).
Proof.
  destruct (calculateLatencyStats_run latencies) as [stats after] eqn:E.
  assert (Ea : after = latencies).
  { pose proof (stats_unmutated latencies) as H. rewrite E in H. exact H. }
  assert (Es : stats = calculateLatencyStats latencies).
  { unfold calculateLatencyStats. rewrite E. reflexivity. }
  subst after. subst stats. split; [reflexivity|]. split; [reflexivity|].
  split; [apply stats_perm, sort_ascending_perm|].
  split; [intros r Hr; apply stats_perm, Hr|].
  apply stats_ordered.
Qed.

Lemma calculateLatencyStats_stable_and_ordered_witness :
  let stats := calculateLatencyStats [30; 10; 20; 50; 40] in
  calculateLatencyStats [10; 20; 30; 40; 50] = stats /\
  min stats <= median stats /\ median stats <= p95 stats /\
  p95 stats <= max stats.
Proof.
  pose proof (calculateLatencyStats_stable_and_ordered [30; 10; 20; 50; 40])
    as H.
  change (calculateLatencyStats_run [30; 10; 20; 50; 40])
    with (calculateLatencyStats [30; 10; 20; 50; 40], [30; 10; 20; 50; 40])
    in H.
  cbv beta iota in H. destruct H as (_ & _ & _ & Hperm & Hord).
  split.
  - apply Hperm.
    apply perm_trans with [10; 30; 20; 40; 50];
      [apply perm_skip, perm_swap|].
    apply perm_trans with [30; 10; 20; 40; 50]; [apply perm_swap|].
    do 3 apply perm_skip. apply perm_swap.
  - apply Hord. discriminate.
Defined.

End MetricsFacts.

Module PipelineFacts.

Import Metrics Pipeline.

Section Config.

Variable maxQueueSize : Z.
Variable maxFrames : nat.

#[local] Abbreviation enqueue := (Pipeline.enqueue maxQueueSize).
#[local] Abbreviation handlePhoneFrame := (Pipeline.handlePhoneFrame maxQueueSize).
#[local] Abbreviation handleAll := (Pipeline.handleAll maxQueueSize).
#[local] Abbreviation step := (Pipeline.step maxQueueSize maxFrames).
#[local] Abbreviation run := (Pipeline.run maxQueueSize maxFrames).

(** ** The queue *)

Lemma enqueue_succeeds queue frame :
  (0 < maxQueueSize)%Z ->
  exists queue', enqueue queue frame = Some queue' /\
                 last queue' = Some frame /\
                 (queue' = queue ++ [frame] \/ queue' = tl queue ++ [frame]).
Proof.
  intros Hpos. unfold Pipeline.enqueue.
  destruct (maxQueueSize <=? Z.of_nat (length queue))%Z eqn:E.
  - destruct queue as [|dropped rest].
    + apply Z.leb_le in E. simpl in E. lia.
    + exists (rest ++ [frame]). rewrite last_snoc. auto.
  - exists (queue ++ [frame]). rewrite last_snoc. auto.
Qed.

(** While a detector call is in flight, [handlePhoneFrame] only stores
    the frame and returns [null]. *)
Lemma handlePhoneFrame_busy s frame :
  (0 < maxQueueSize)%Z -> isProcessing s = true ->
  exists queue',
    handlePhoneFrame s frame
    = ({| frameQueue := queue'; isProcessing := true |}, ReturnedNull) /\
    last queue' = Some frame.
Proof.
  intros Hpos Hbusy.
  destruct (enqueue_succeeds (frameQueue s) frame Hpos) as (q & E & L & _).
  exists q. unfold Pipeline.handlePhoneFrame. rewrite E. simpl.
  rewrite Hbusy. simpl. auto.
Qed.

(** With no call in flight, [handlePhoneFrame] hands the frame it was
    given to the detector at once. *)
Lemma handlePhoneFrame_idle s frame :
  (0 < maxQueueSize)%Z -> isProcessing s = false ->
  handlePhoneFrame s frame
  = ({| frameQueue := []; isProcessing := true |}, AwaitingDetector frame).
Proof.
  intros Hpos Hidle.
  destruct (enqueue_succeeds (frameQueue s) frame Hpos) as (q & E & L & _).
  unfold Pipeline.handlePhoneFrame. rewrite E. simpl. rewrite Hidle. simpl.
  unfold processNextFrame_begin. simpl. rewrite L. reflexivity.
Qed.

Lemma handleAll_busy s frames :
  (0 < maxQueueSize)%Z -> isProcessing s = true ->
  isProcessing (handleAll s frames) = true.
Proof.
  intros Hpos. revert s. induction frames as [|f frames IH]; intros s Hbusy.
  - exact Hbusy.
  - simpl. apply IH.
    destruct (handlePhoneFrame_busy s f Hpos Hbusy) as (q & -> & _).
    reflexivity.
Qed.

Lemma handleAll_snoc s frames frame :
  handleAll s (frames ++ [frame])
  = fst (handlePhoneFrame (handleAll s frames) frame).
Proof.
  unfold Pipeline.handleAll. rewrite fold_left_app. reflexivity.
Qed.

Lemma handleAll_last s earlier frame :
  (0 < maxQueueSize)%Z -> isProcessing s = true ->
  last (frameQueue (handleAll s (earlier ++ [frame]))) = Some frame /\
  isProcessing (handleAll s (earlier ++ [frame])) = true.
Proof.
  intros Hpos Hbusy. rewrite handleAll_snoc.
  pose proof (handleAll_busy s earlier Hpos Hbusy) as Hb.
  destruct (handlePhoneFrame_busy _ frame Hpos Hb) as (q & -> & L).
  simpl. auto.
Qed.

Lemma processNextFrame_begin_last s frame :
  last (frameQueue s) = Some frame ->
  processNextFrame_begin s
  = ({| frameQueue := []; isProcessing := true |}, Some frame).
Proof.
  intros L. unfold processNextFrame_begin. rewrite L. reflexivity.
Qed.

Lemma processNextFrame_end_result s frame outcome ts :
  match snd (processNextFrame_end s frame outcome ts) with
  | Some r =>
      frame_id r = Pipeline.frameId frame /\
      capture_ts r = Pipeline.captureTs frame /\
      recv_ts r = Pipeline.recvTs frame /\
      inference_ts r = ts /\
      exists detections,
        outcome = Resolved detections /\
        Metrics.detections r = map toResultDetection detections
  | None => outcome = Rejected
  end.
Proof.
  destruct outcome; simpl; eauto 10.
Qed.

(** C1.  With a positive queue capacity and a detector call in flight,
    let [n >= 1] frames arrive ([earlier] and then [frame]); no call to
    [handlePhoneFrame] dequeues.  Once the call in flight has settled,
    the next [processNextFrame] hands [frame], the most recent arrival,
    to the detector, and what it returns is the record of [frame] (or
    [null] when the detector rejects), never the record of an older
    frame.  The same holds when the call in flight settles before the
    last arrival, whose own [handlePhoneFrame] then does the dequeue. *)
Theorem keep_latest (s : WebRTCService) (earlier : list Frame) (frame : Frame) :
  (0 < maxQueueSize)%Z ->
  isProcessing s = true ->
  let settled s' inflight outcome ts :=
    fst (processNextFrame_end s' inflight outcome ts) in
  let is_record_of (result : option FrameResult) (outcome : DetectorOutcome) ts :=
    match outcome with
    | Resolved detections =>
        result = Some {| frame_id := Pipeline.frameId frame;
                         capture_ts := Pipeline.captureTs frame;
                         recv_ts := Pipeline.recvTs frame;
                         inference_ts := ts;
                         detections := map toResultDetection detections |}
    | Rejected => result = None
    end in
  (forall inflight outcome ts outcome' ts',
      let s1 := handleAll s (earlier ++ [frame]) in
      exists s2,
        processNextFrame_begin (settled s1 inflight outcome ts)
        = (s2, Some frame) /\
        is_record_of (snd (processNextFrame_end s2 frame outcome' ts'))
                     outcome' ts') /\
  (forall inflight outcome ts outcome' ts',
      let s1 := handleAll s earlier in
      exists s2,
        handlePhoneFrame (settled s1 inflight outcome ts) frame
        = (s2, AwaitingDetector frame) /\
        is_record_of (snd (processNextFrame_end s2 frame outcome' ts'))
                     outcome' ts').
Proof.
  intros Hpos Hbusy. cbv zeta. split.
  - intros inflight outcome ts outcome' ts'.
    destruct (handleAll_last s earlier frame Hpos Hbusy) as [L _].
    eexists. split.
    + apply processNextFrame_begin_last.
      destruct outcome; simpl; exact L.
    + destruct outcome'; reflexivity.
  - intros inflight outcome ts outcome' ts'.
    eexists. split.
    + apply handlePhoneFrame_idle; [exact Hpos|].
      destruct outcome; reflexivity.
    + destruct outcome'; reflexivity.
Qed.

(** ** One detector call at a time *)

Lemma processNextFrame_begin_cases s :
  (frameQueue s = [] /\ processNextFrame_begin s = (s, None)) \/
  (exists frame, last (frameQueue s) = Some frame /\
                 processNextFrame_begin s
                 = ({| frameQueue := []; isProcessing := true |}, Some frame)).
Proof.
  unfold processNextFrame_begin.
  destruct (last (frameQueue s)) as [frame|] eqn:L.
  - right. eauto.
  - left. split; [|reflexivity]. apply last_None. exact L.
Qed.

Lemma settled_call_was_the_only_one sv k p :
  flag_counts_calls sv -> inFlight sv !! k = Some p ->
  delete k (inFlight sv) = [].
Proof.
  unfold flag_counts_calls. intros Inv K.
  destruct (isProcessing (webrtcService sv)).
  - destruct (inFlight sv) as [|p0 [|p1 rest]]; try discriminate.
    destruct k; [reflexivity | discriminate].
  - rewrite Inv in K. discriminate.
Qed.

Lemma step_flag_counts_calls sv e :
  flag_counts_calls sv -> flag_counts_calls (step sv e).
Proof.
  intros Inv0. assert (Inv := Inv0). revert Inv.
  unfold flag_counts_calls. intros Inv.
  destruct e as [frame| |k outcome its dts]; simpl.
  - unfold Pipeline.handlePhoneFrame.
    destruct (enqueue (frameQueue (webrtcService sv)) frame) as [q|]; simpl.
    + destruct (isProcessing (webrtcService sv)) eqn:B; simpl.
      * exact Inv.
      * destruct (processNextFrame_begin_cases
                    {| frameQueue := q; isProcessing := false |})
          as [[_ ->] | (f & _ & ->)]; simpl.
        -- exact Inv.
        -- rewrite Inv. reflexivity.
    + exact Inv.
  - destruct (isProcessing (webrtcService sv)) eqn:B; simpl.
    + rewrite B. exact Inv.
    + destruct (0 <? length (frameQueue (webrtcService sv)))%nat; simpl.
      * destruct (processNextFrame_begin_cases (webrtcService sv))
          as [[_ ->] | (f & _ & ->)]; simpl.
        -- rewrite B. exact Inv.
        -- rewrite Inv. reflexivity.
      * rewrite B. exact Inv.
  - destruct (inFlight sv !! k) as [p|] eqn:K.
    + pose proof (settled_call_was_the_only_one sv k p Inv0 K) as Hdel.
      destruct outcome, (p_origin p); simpl; exact Hdel.
    + exact Inv.
Qed.

Lemma run_flag_counts_calls sv events :
  flag_counts_calls sv -> flag_counts_calls (run sv events).
Proof.
  revert sv. induction events as [|e events IH]; intros sv Inv.
  - exact Inv.
  - simpl. apply IH, step_flag_counts_calls, Inv.
Qed.

Lemma new_Server_flag_counts_calls now : flag_counts_calls (new_Server now).
Proof. reflexivity. Qed.

Lemma busy_step_starts_nothing sv e :
  isProcessing (webrtcService sv) = true ->
  match e with DetectorSettles _ _ _ _ => False | _ => True end ->
  inFlight (step sv e) = inFlight sv.
Proof.
  intros B He. destruct e as [frame| |]; [| |contradiction]; simpl.
  - unfold Pipeline.handlePhoneFrame.
    destruct (enqueue (frameQueue (webrtcService sv)) frame); simpl;
      [rewrite B|]; reflexivity.
  - rewrite B. reflexivity.
Qed.

Lemma idle_step_starts_one sv e :
  flag_counts_calls sv ->
  calls_processNextFrame maxQueueSize sv e ->
  exists frame origin,
    inFlight (step sv e) = [{| p_frame := frame; p_origin := origin |}] /\
    isProcessing (webrtcService (step sv e)) = true /\
    frameQueue (webrtcService (step sv e)) = [] /\
    metricsService (step sv e) = metricsService sv /\
    broadcast (step sv e) = broadcast sv.
Proof.
  unfold flag_counts_calls. intros Inv [B He]. rewrite B in Inv.
  destruct e as [frame| |]; [| |contradiction]; simpl in *.
  - unfold Pipeline.handlePhoneFrame.
    destruct (enqueue (frameQueue (webrtcService sv)) frame) as [q|] eqn:E;
      [|congruence].
    simpl. rewrite B. simpl.
    assert (Hq : q <> []).
    { unfold Pipeline.enqueue in E.
      destruct (maxQueueSize <=? _)%Z; [destruct (frameQueue _)|];
        simplify_eq; intros H; eapply app_cons_not_nil; eauto. }
    destruct (processNextFrame_begin_cases
                {| frameQueue := q; isProcessing := false |})
      as [[Hnil _] | (f & _ & ->)]; [contradiction|].
    simpl. rewrite Inv. eauto 10.
  - rewrite B. simpl.
    destruct (frameQueue (webrtcService sv)) as [|f0 q] eqn:Q; [congruence|].
    simpl.
    destruct (processNextFrame_begin_cases (webrtcService sv))
      as [[Hnil _] | (f & _ & ->)]; [congruence|].
    simpl. rewrite Inv. eauto 10.
Qed.

(** C2.  In every state the server reaches from its start, at most one
    detector call is pending, and the flag is set exactly when there is
    one.  While the flag is set, neither a timer tick nor an arriving
    frame starts a call; while it is clear, nothing else holds a call
    back: a tick that finds a frame queued, and an arriving frame that is
    stored, each start exactly one. *)
Theorem at_most_one_detector_call (now : Z) (events : list Event) :
  let sv := run (new_Server now) events in
  (length (inFlight sv) <= 1)%nat /\
  (isProcessing (webrtcService sv) = true <-> length (inFlight sv) = 1%nat) /\
  (isProcessing (webrtcService sv) = true ->
   inFlight (step sv TimerTick) = inFlight sv /\
   forall frame, inFlight (step sv (PhoneStream frame)) = inFlight sv) /\
  (forall e, calls_processNextFrame maxQueueSize sv e ->
             length (inFlight (step sv e)) = 1%nat).
Proof.
  cbv zeta.
  pose proof (run_flag_counts_calls _ events (new_Server_flag_counts_calls now))
    as Inv.
  set (sv := run (new_Server now) events) in *.
  assert (Inv' := Inv). unfold flag_counts_calls in Inv'.
  split; [|split; [|split]].
  - destruct (isProcessing (webrtcService sv)); rewrite Inv'; simpl; lia.
  - destruct (isProcessing (webrtcService sv)); rewrite Inv'; simpl;
      split; congruence.
  - intros B. split; [|intros frame];
      apply busy_step_starts_nothing; simpl; auto.
  - intros e He.
    destruct (idle_step_starts_one sv e Inv He) as (f & o & -> & _).
    reflexivity.
Qed.

(** ** What processNextFrame discards *)

Lemma enqueue_nonempty queue frame queue' :
  enqueue queue frame = Some queue' -> last queue' = Some frame.
Proof.
  unfold Pipeline.enqueue.
  destruct (maxQueueSize <=? _)%Z; [destruct queue|]; intros E;
    simplify_eq; apply last_snoc.
Qed.

(** C10.  A call to [processNextFrame] that finds the queue non-empty
    sets the queue to empty, whatever the capacity, and hands only the
    newest frame to the detector; the timer tick or arriving frame that
    makes the call leaves the metrics service, and so the dropped, total
    and processed counters, as they were. *)
Theorem processNextFrame_discards_silently (sv : Server) (e : Event) :
  calls_processNextFrame maxQueueSize sv e ->
  (forall s, frameQueue s <> [] ->
             frameQueue (fst (processNextFrame_begin s)) = [] /\
             snd (processNextFrame_begin s) = last (frameQueue s)) /\
  frameQueue (webrtcService (step sv e)) = [] /\
  (exists frame origin,
      inFlight (step sv e)
      = inFlight sv ++ [{| p_frame := frame; p_origin := origin |}] /\
      match e with
      | PhoneStream arrived => frame = arrived
      | _ => last (frameQueue (webrtcService sv)) = Some frame
      end) /\
  metricsService (step sv e) = metricsService sv /\
  droppedFrames (metricsService (step sv e)) = droppedFrames (metricsService sv) /\
  totalFrames (metricsService (step sv e)) = totalFrames (metricsService sv) /\
  processedFrames (metricsService (step sv e))
  = processedFrames (metricsService sv).
Proof.
  intros [B He]. split.
  { intros s Hs.
    destruct (processNextFrame_begin_cases s) as [[Hnil _] | (f & L & ->)];
      [contradiction | simpl; auto]. }
  assert (H : frameQueue (webrtcService (step sv e)) = [] /\
              (exists frame origin,
                  inFlight (step sv e)
                  = inFlight sv ++ [{| p_frame := frame; p_origin := origin |}] /\
                  match e with
                  | PhoneStream arrived => frame = arrived
                  | _ => last (frameQueue (webrtcService sv)) = Some frame
                  end) /\
              metricsService (step sv e) = metricsService sv).
  { destruct e as [frame| |]; [| |contradiction]; simpl in *.
    - unfold Pipeline.handlePhoneFrame.
      destruct (enqueue (frameQueue (webrtcService sv)) frame) as [q|] eqn:E;
        [|congruence].
      simpl. rewrite B. simpl.
      unfold processNextFrame_begin. simpl.
      rewrite (enqueue_nonempty _ _ _ E). simpl. eauto 10.
    - rewrite B. simpl.
      destruct (frameQueue (webrtcService sv)) as [|f0 q] eqn:Q; [congruence|].
      simpl.
      destruct (processNextFrame_begin_cases (webrtcService sv))
        as [[Hnil _] | (f & L & ->)]; [congruence|].
      simpl. rewrite Q in L. eauto 10. }
  destruct H as (H1 & H2 & H3). rewrite H3. auto 10.
Qed.

(** ** The dropped-frame counter *)









End Config.

(** ** Concrete runs *)

Import Examples.


(** ** Witnesses *)

Lemma keep_latest_witness :
  exists s2,
    processNextFrame_begin
      (fst (processNextFrame_end
              (Pipeline.handleAll default_maxQueueSize
                 (webrtcService busy_server)
                 [frame_n 1; frame_n 2; frame_n 3])
              (frame_n 0) (Resolved []) 40))
    = (s2, Some (frame_n 3)).
Proof.
  destruct (keep_latest default_maxQueueSize (webrtcService busy_server)
              [frame_n 1; frame_n 2] (frame_n 3)) as [H _].
  - reflexivity.
  - reflexivity.
  - destruct (H (frame_n 0) (Resolved []) 40%Z Rejected 0%Z) as (s2 & E & _).
    exists s2. exact E.
Defined.

Lemma at_most_one_detector_call_witness :
  (length (inFlight (Pipeline.run default_maxQueueSize default_maxFrames
                       (new_Server 0) (arrivals [0; 1; 2]%Z ++ [TimerTick])))
   <= 1)%nat.
Proof.
  exact (proj1 (at_most_one_detector_call default_maxQueueSize
                  default_maxFrames 0 (arrivals [0; 1; 2]%Z ++ [TimerTick]))).
Defined.

Lemma processNextFrame_discards_silently_witness :
  let sv := idle_server_with_backlog in
  let sv' := Pipeline.step default_maxQueueSize default_maxFrames sv TimerTick in
  length (frameQueue (webrtcService sv)) = 2%nat /\
  frameQueue (webrtcService sv') = [] /\
  metricsService sv' = metricsService sv.
Proof.
  cbv zeta. split; [reflexivity|].
  destruct (processNextFrame_discards_silently default_maxQueueSize
              default_maxFrames idle_server_with_backlog TimerTick)
    as (_ & Hq & _ & Hm & _).
  - split; [reflexivity | discriminate].
  - split; [exact Hq | exact Hm].
Defined.



End PipelineFacts.

Module TrackerLifeFacts.

Import Tracker TrackerLife TrackerFacts.

(** ** calculateIoU lies between 0 and 1 *)

Lemma iou_parts box1 box2 :
  Qleb (Qmin (xmax box1) (xmax box2)) (Qmax (xmin box1) (xmin box2))
  || Qleb (Qmin (ymax box1) (ymax box2)) (Qmax (ymin box1) (ymin box2)) = false ->
  let inter := (Qmin (xmax box1) (xmax box2) - Qmax (xmin box1) (xmin box2))
               * (Qmin (ymax box1) (ymax box2) - Qmax (ymin box1) (ymin box2)) in
  0 < inter /\
  inter <= (xmax box1 - xmin box1) * (ymax box1 - ymin box1) /\
  inter <= (xmax box2 - xmin box2) * (ymax box2 - ymin box2).
Proof.
  intros H. apply iou_overlap_test_false in H as [Hx Hy]. cbv zeta.
  pose proof (Q.le_max_l (xmin box1) (xmin box2)) as A1.
  pose proof (Q.le_max_r (xmin box1) (xmin box2)) as A2.
  pose proof (Q.le_min_l (xmax box1) (xmax box2)) as A3.
  pose proof (Q.le_min_r (xmax box1) (xmax box2)) as A4.
  pose proof (Q.le_max_l (ymin box1) (ymin box2)) as B1.
  pose proof (Q.le_max_r (ymin box1) (ymin box2)) as B2.
  pose proof (Q.le_min_l (ymax box1) (ymax box2)) as B3.
  pose proof (Q.le_min_r (ymax box1) (ymax box2)) as B4.
  set (x1 := Qmax (xmin box1) (xmin box2)) in *.
  set (x2 := Qmin (xmax box1) (xmax box2)) in *.
  set (y1 := Qmax (ymin box1) (ymin box2)) in *.
  set (y2 := Qmin (ymax box1) (ymax box2)) in *.
  assert (Hw : 0 < x2 - x1) by lra.
  assert (Hh : 0 < y2 - y1) by lra.
  split; [apply Qmult_lt_0_compat; assumption|].
  split.
  - apply Qle_trans with ((xmax box1 - xmin box1) * (y2 - y1)).
    + apply Qmult_le_compat_r; lra.
    + rewrite (Qmult_comm _ (y2 - y1)), (Qmult_comm _ (ymax box1 - ymin box1)).
      apply Qmult_le_compat_r; lra.
  - apply Qle_trans with ((xmax box2 - xmin box2) * (y2 - y1)).
    + apply Qmult_le_compat_r; lra.
    + rewrite (Qmult_comm _ (y2 - y1)), (Qmult_comm _ (ymax box2 - ymin box2)).
      apply Qmult_le_compat_r; lra.
Qed.

(** X1.  [calculateIoU] is a ratio between 0 and 1 for any two boxes,
    valid or not, and it is positive exactly when the boxes overlap in
    both directions. *)
Theorem calculateIoU_range (box1 box2 : Box) :
  0 <= calculateIoU box1 box2 <= 1 /\
  (0 < calculateIoU box1 box2 <->
   Qmax (xmin box1) (xmin box2) < Qmin (xmax box1) (xmax box2) /\
   Qmax (ymin box1) (ymin box2) < Qmin (ymax box1) (ymax box2)).
Proof.
  unfold calculateIoU.
  destruct (Qleb _ _ || Qleb _ _) eqn:E.
  - split; [split; [apply Qle_refl | discriminate]|].
    split; [intros H; exfalso; exact (Qlt_irrefl 0 H)|].
    intros [Hx Hy]. apply orb_true_iff in E as [E | E]; apply Qleb_le in E; lra.
  - destruct (iou_parts box1 box2 E) as (Hi & H1 & H2).
    pose proof (iou_divisor_positive box1 box2 E) as Hu.
    cbv zeta in *.
    set (inter := (Qmin (xmax box1) (xmax box2) - Qmax (xmin box1) (xmin box2))
                  * (Qmin (ymax box1) (ymax box2) - Qmax (ymin box1) (ymin box2))) in *.
    set (union := (xmax box1 - xmin box1) * (ymax box1 - ymin box1)
                  + (xmax box2 - xmin box2) * (ymax box2 - ymin box2) - inter) in *.
    assert (Hpos : 0 < inter / union).
    { apply Qlt_shift_div_l; [exact Hu | lra]. }
    split; [split|].
    + apply Qlt_le_weak. exact Hpos.
    + apply Qle_shift_div_r; [exact Hu|]. unfold union. lra.
    + split; [intros _; apply iou_overlap_test_false; exact E | intros _; exact Hpos].
Qed.

(** ** predict *)


(** ** The trajectories *)

Lemma history_kept_same_keys t t' :
  map key (tracks t') = map key (tracks t) ->
  trackHistory t' = trackHistory t ->
  history_kept t -> history_kept t'.
Proof.
  intros Hk Hh [H1 H2]. split.
  - intros trk' Hin. apply In_lookup in Hin as (a & Ha).
    assert (Hka : map key (tracks t') !! a = Some (key trk'))
      by (rewrite lookup_map, Ha; reflexivity).
    rewrite Hk, lookup_map in Hka.
    destruct (tracks t !! a) as [trk|] eqn:E; [|discriminate].
    simpl in Hka. assert (Hkey : key trk = key trk') by congruence.
    assert (Hid : id trk = id trk') by exact (f_equal fst Hkey).
    assert (Hce : currentEntry trk = currentEntry trk')
      by exact (f_equal snd Hkey).
    destruct (H1 trk) as (older & Hl & Hlen); [apply In_lookup; eauto|].
    exists older. rewrite Hh, <- Hid, <- Hce. auto.
  - intros i Hi. rewrite Hh in Hi. specialize (H2 i Hi).
    unfold live in *.
    assert (E : map id (tracks t') = map id (tracks t)).
    { apply (f_equal (map fst)) in Hk. rewrite !map_map in Hk. exact Hk. }
    rewrite E. exact H2.
Qed.

Lemma predict_history t : history_kept t -> history_kept (predict t).
Proof.
  apply history_kept_same_keys; [|reflexivity].
  simpl. rewrite map_map. reflexivity.
Qed.

Lemma markUnmatched_keys t idxs :
  map key (tracks (markUnmatched t idxs)) = map key (tracks t) /\
  trackHistory (markUnmatched t idxs) = trackHistory t.
Proof.
  revert t. induction idxs as [|a idxs IH]; intros t; simpl; [auto|].
  destruct (IH (with_tracks t (alter markLost a (tracks t)))) as [-> ->].
  split; [|reflexivity]. simpl.
  apply list_eq. intros a'. rewrite !lookup_map, list_lookup_alter.
  destruct (decide (a = a')) as [->|]; [|reflexivity].
  destruct (tracks t !! a'); reflexivity.
Qed.

Lemma pushHistory_spec history entry :
  (0 < length history <= 50)%nat ->
  exists older, pushHistory history entry = older ++ [entry] /\
                (length older < 50)%nat.
Proof.
  intros Hlen. unfold pushHistory. rewrite length_app. simpl.
  destruct (50 <? length history + 1)%nat eqn:E.
  - apply Nat.ltb_lt in E. destruct history as [|e0 history]; [simpl in *; lia|].
    exists history. simpl in *. split; [reflexivity | lia].
  - apply Nat.ltb_ge in E. exists history. split; [reflexivity | lia].
Qed.

Lemma updateTrack_history t a det fid now :
  ids_ordered t -> history_kept t ->
  history_kept (updateTrack t a det fid now).
Proof.
  intros [Hs _] [H1 H2]. unfold updateTrack.
  destruct (tracks t !! a) as [trk|] eqn:E; [|split; assumption].
  destruct (H1 trk) as (older & Hl & Hlen); [apply In_lookup; eauto|].
  split; simpl.
  - intros trk' Hin. apply In_lookup in Hin as (a' & Ha').
    apply list_lookup_insert_Some in Ha' as [(-> & <- & _) | (Hne & Ha')].
    + rewrite lookup_insert_eq. simpl. rewrite Hl. simpl.
      destruct (pushHistory_spec (older ++ [currentEntry trk])
                  {| h_bbox := det; h_timestamp := now; h_frameId := fid |})
        as (older' & -> & Hlen').
      { rewrite length_app. simpl. lia. }
      exists older'. auto.
    + assert (Hid : id trk <> id trk').
      { intros Heq. apply Hne.
        eapply (sorted_ids_same_index (tracks t)); eauto. }
      rewrite lookup_insert_ne by exact Hid.
      apply H1. apply In_lookup. eauto.
  - intros i Hi. unfold live. simpl.
    assert (Hids : map id (<[a:=updatedTrack trk det fid now]> (tracks t))
                   = map id (tracks t)).
    { apply list_eq. intros a'. rewrite !lookup_map.
      destruct (decide (a = a')) as [<-|Hne].
      - rewrite list_lookup_insert_eq by (eapply lookup_lt_Some; eauto).
        rewrite E. reflexivity.
      - rewrite list_lookup_insert_ne by exact Hne. reflexivity. }
    rewrite Hids.
    destruct (decide (i = id trk)) as [->|Hne].
    + apply in_map. apply In_lookup. eauto.
    + rewrite lookup_insert_ne in Hi by congruence. apply H2. exact Hi.
Qed.

Lemma updateTrack_ordered t a det fid now :
  ids_ordered t -> ids_ordered (updateTrack t a det fid now).
Proof.
  intros [Hs Hb]. unfold ids_ordered.
  rewrite updateTrack_ids.
  destruct (updateTrack_fields t a det fid now) as (-> & _). auto.
Qed.

Lemma updateMatched_history dets fid now pairs t :
  ids_ordered t -> history_kept t ->
  ids_ordered (updateMatched dets fid now t pairs) /\
  history_kept (updateMatched dets fid now t pairs).
Proof.
  revert t. induction pairs as [|[a b] pairs IH]; intros t Ho Hh; simpl; [auto|].
  destruct (dets !! b) as [det|]; [|apply IH; assumption].
  apply IH; [apply updateTrack_ordered | apply updateTrack_history]; assumption.
Qed.

Lemma createTrack_is_newTrack t det fid now :
  Forall (fun i => (i < nextTrackId t)%positive) (map id (tracks t)) ->
  tracks (createTrack t det fid now)
  = tracks t ++ [newTrack (nextTrackId t) det fid now] /\
  trackHistory (createTrack t det fid now)
  = <[nextTrackId t := [currentEntry (newTrack (nextTrackId t) det fid now)]]>
      (trackHistory t) /\
  nextTrackId (createTrack t det fid now) = Pos.succ (nextTrackId t).
Proof.
  intros Hb. unfold createTrack. cbn [tracks id trackHistory nextTrackId].
  rewrite tracks_set_fresh by exact Hb. auto.
Qed.

Lemma createTrack_history t det fid now :
  ids_ordered t -> history_kept t ->
  history_kept (createTrack t det fid now).
Proof.
  intros [Hs Hb] [H1 H2].
  destruct (createTrack_is_newTrack t det fid now Hb) as (Ht & Hh & _).
  split; rewrite ?Ht, Hh.
  - intros trk Hin. apply in_app_or in Hin as [Hin | [<- | []]].
    + assert (Hlt : (id trk < nextTrackId t)%positive).
      { rewrite Forall_forall in Hb. apply Hb. apply list_elem_of_In.
        apply in_map. exact Hin. }
      rewrite lookup_insert_ne by lia. apply H1. exact Hin.
    + simpl. rewrite lookup_insert_eq. exists []. simpl. split; [reflexivity | lia].
  - intros i Hi. unfold live. rewrite Ht, map_app, in_app_iff. simpl.
    destruct (decide (i = nextTrackId t)) as [->|Hne]; [auto|].
    rewrite lookup_insert_ne in Hi by congruence. left. apply H2. exact Hi.
Qed.

Lemma createUnmatched_history dets fid now idxs t :
  ids_ordered t -> history_kept t ->
  history_kept (createUnmatched dets fid now t idxs).
Proof.
  revert t. induction idxs as [|b idxs IH]; intros t Ho Hh; simpl; [auto|].
  destruct (dets !! b) as [det|]; [|apply IH; assumption].
  apply IH; [apply createTrack_spec, Ho | apply createTrack_history; assumption].
Qed.

Lemma lookup_delete_all (h : gmap positive (list HistoryEntry)) ks i :
  fold_left (fun h k => delete k h) ks h !! i
  = if decide (i ∈ ks) then None else h !! i.
Proof.
  revert h. induction ks as [|k ks IH]; intros h; simpl.
  - reflexivity.
  - rewrite IH. destruct (decide (i ∈ ks)) as [Hin|Hnin].
    + rewrite decide_True by (right; exact Hin). reflexivity.
    + destruct (decide (k = i)) as [->|Hne].
      * rewrite lookup_delete_eq, decide_True by left. reflexivity.
      * rewrite lookup_delete_ne by exact Hne.
        rewrite decide_False; [reflexivity|].
        intros H. apply elem_of_cons in H as [->|H]; contradiction.
Qed.

Lemma pruneOldTracks_history t :
  history_kept t -> history_kept (pruneOldTracks t).
Proof.
  intros [H1 H2].
  set (toRemove := map id (List.filter (shouldRemove t)
                                        (map growOlder (tracks t)))).
  assert (Hin : forall x, In x (tracks (pruneOldTracks t)) <->
                          In x (map growOlder (tracks t)) /\
                          ~ In (id x) toRemove).
  { intros x. unfold pruneOldTracks. simpl. apply tracks_delete_all_In. }
  assert (Hh : forall i, trackHistory (pruneOldTracks t) !! i
                         = if decide (i ∈ toRemove) then None
                           else trackHistory t !! i).
  { intros i. unfold pruneOldTracks. simpl. apply lookup_delete_all. }
  split.
  - intros x Hx. apply Hin in Hx as [Hx Hn].
    apply in_map_iff in Hx as (trk & <- & Htrk).
    rewrite Hh. rewrite decide_False by (rewrite list_elem_of_In; exact Hn).
    apply (H1 trk Htrk).
  - intros i Hi. rewrite Hh in Hi.
    destruct (decide (i ∈ toRemove)) as [|Hn]; [destruct Hi; discriminate|].
    rewrite list_elem_of_In in Hn.
    specialize (H2 i Hi). unfold live in *.
    apply in_map_iff in H2 as (trk & <- & Htrk).
    apply in_map_iff. exists (growOlder trk). split; [reflexivity|].
    apply Hin. split; [apply in_map; exact Htrk | exact Hn].
Qed.

Lemma cycle_history t dets fid now :
  ids_ordered t -> history_kept t ->
  history_kept (cycle t dets fid now).
Proof.
  intros Ho Hh. unfold cycle.
  apply pruneOldTracks_history.
  match goal with |- history_kept (markUnmatched ?t3 ?idxs) =>
    destruct (markUnmatched_keys t3 idxs) as [Hk Hhist];
    apply (history_kept_same_keys t3); [exact Hk | exact Hhist |] end.
  assert (Ho1 : ids_ordered (predict t)).
  { destruct Ho as [Hs Hb]. split; rewrite predict_ids; assumption. }
  destruct (updateMatched_history dets fid now
              (matched (associate (predict t) dets)) (predict t) Ho1
              (predict_history t Hh)) as [Ho2 Hh2].
  apply createUnmatched_history; assumption.
Qed.

(** X3.  In every tracker reached from a new one, each live track has a
    trajectory of at least 1 and at most 50 entries whose last entry
    holds the track's current box, frame and update time, and
    [trackHistory] holds no entry for a track that is not live: the
    [|| []] fallback of [getConfirmedTracks] is never taken. *)
Theorem trajectories_kept (t : ObjectTracker) :
  reachable t ->
  (forall track, In track (tracks t) ->
     exists older,
       trackHistory t !! id track = Some (older ++ [currentEntry track]) /\
       (length older < 50)%nat) /\
  (forall i, is_Some (trackHistory t !! i) -> live t i) /\
  (forall c, In c (getConfirmedTracks t) ->
     (1 <= length (trajectory c) <= 50)%nat /\
     trackHistory t !! trackId c = Some (trajectory c)).
Proof.
  intros (options & batches & ->).
  assert (H : ids_ordered (cycles (new_ObjectTracker options) batches) /\
              history_kept (cycles (new_ObjectTracker options) batches)).
  { generalize (new_ordered options).
    assert (Hnew : history_kept (new_ObjectTracker options)).
    { split; simpl; [tauto|]. intros i [x Hx]. rewrite lookup_empty in Hx.
      discriminate. }
    revert Hnew. generalize (new_ObjectTracker options).
    induction batches as [|[[dets fid] now] batches IH]; intros t Hh Ho;
      simpl; [auto|].
    apply IH; [apply cycle_history; assumption | apply cycle_ordered, Ho]. }
  destruct H as [_ [H1 H2]]. split; [exact H1|]. split; [exact H2|].
  intros c Hc. unfold getConfirmedTracks in Hc.
  apply in_map_iff in Hc as (trk & <- & Htrk). apply filter_In in Htrk as [Htrk _].
  destruct (H1 trk Htrk) as (older & Hl & Hlen). simpl. rewrite Hl. simpl.
  rewrite length_app. simpl. split; [lia | reflexivity].
Qed.

(** ** The loops of a cycle in closed form *)

Lemma pairedWith_In pairs a b :
  NoDup (map fst pairs) -> (pairedWith pairs a = Some b <-> In (a, b) pairs).
Proof.
  induction pairs as [|[a' b'] pairs IH]; intros Hnd; simpl.
  - split; [discriminate | tauto].
  - simpl in Hnd. apply NoDup_cons in Hnd as [Hfresh Hnd].
    rewrite list_elem_of_In in Hfresh.
    destruct (Nat.eqb_spec a' a) as [->|Hne].
    + split.
      * intros E. injection E as <-. auto.
      * intros [E | Hin]; [congruence|].
        exfalso. apply Hfresh. apply in_map_fst. eauto.
    + rewrite (IH Hnd). split; [auto|]. intros [E | Hin]; [congruence | exact Hin].
Qed.

Lemma pairedWith_None pairs a :
  pairedWith pairs a = None <-> ~ In a (map fst pairs).
Proof.
  induction pairs as [|[a' b'] pairs IH]; simpl; [tauto|].
  destruct (Nat.eqb_spec a' a) as [->|Hne].
  - split; [discriminate | tauto].
  - rewrite IH. tauto.
Qed.

Lemma updateMatched_closed dets fid now pairs t :
  NoDup (map fst pairs) ->
  tracks (updateMatched dets fid now t pairs)
  = imap (fun a track =>
            match pairedWith pairs a with
            | Some b =>
                match dets !! b with
                | Some det => updatedTrack track det fid now
                | None => track
                end
            | None => track
            end)
         (tracks t).
Proof.
  revert t. induction pairs as [|[a0 b0] pairs IH]; intros t Hnd.
  - simpl. apply list_eq. intros a. rewrite list_lookup_imap.
    destruct (tracks t !! a); reflexivity.
  - simpl in Hnd. apply NoDup_cons in Hnd as [Hfresh Hnd].
    rewrite list_elem_of_In in Hfresh. apply pairedWith_None in Hfresh.
    simpl. apply list_eq. intros a. rewrite list_lookup_imap.
    destruct (dets !! b0) as [det0|] eqn:Edet.
    + rewrite IH by exact Hnd. rewrite list_lookup_imap, updateTrack_lookup.
      destruct (Nat.eq_dec a0 a) as [->|Hne].
      * rewrite Nat.eqb_refl, Hfresh.
        destruct (tracks t !! a); simpl; rewrite ?Edet; reflexivity.
      * apply Nat.eqb_neq in Hne. rewrite Hne. reflexivity.
    + rewrite IH by exact Hnd. rewrite list_lookup_imap.
      destruct (Nat.eqb_spec a0 a) as [->|Hne]; [|reflexivity].
      rewrite Hfresh. destruct (tracks t !! a); simpl; rewrite ?Edet; reflexivity.
Qed.

Lemma markUnmatched_closed t idxs :
  NoDup idxs ->
  tracks (markUnmatched t idxs)
  = imap (fun a track => if set_has idxs a then markLost track else track)
         (tracks t).
Proof.
  revert t. induction idxs as [|a0 idxs IH]; intros t Hnd.
  - simpl. apply list_eq. intros a. rewrite list_lookup_imap.
    destruct (tracks t !! a); reflexivity.
  - apply NoDup_cons in Hnd as [Hfresh Hnd].
    rewrite list_elem_of_In, <- set_has_In in Hfresh.
    simpl. rewrite IH by exact Hnd. simpl.
    apply list_eq. intros a.
    rewrite !list_lookup_imap, list_lookup_alter.
    unfold set_has in *. simpl.
    destruct (decide (a0 = a)) as [->|Hne].
    + rewrite Nat.eqb_refl. simpl.
      destruct (existsb (Nat.eqb a) idxs); [congruence|].
      destruct (tracks t !! a); reflexivity.
    + assert (E : Nat.eqb a a0 = false) by (apply Nat.eqb_neq; congruence).
      rewrite E. reflexivity.
Qed.

Lemma newTracks_length i dets fid now :
  length (newTracks i dets fid now) = length dets.
Proof.
  revert i. induction dets as [|d dets IH]; intros i; simpl; [|rewrite IH];
    reflexivity.
Qed.

Lemma newTracks_lookup i dets fid now k det :
  dets !! k = Some det ->
  exists j, newTracks i dets fid now !! k = Some (newTrack j det fid now) /\
            Pos.to_nat j = (Pos.to_nat i + k)%nat.
Proof.
  revert i k. induction dets as [|d dets IH]; intros i k H; [discriminate|].
  destruct k as [|k]; simpl in *.
  - injection H as <-. exists i. split; [reflexivity | lia].
  - destruct (IH (Pos.succ i) k H) as (j & Hj & Hn).
    exists j. split; [exact Hj | lia].
Qed.

Lemma newTracks_In i dets fid now x :
  In x (newTracks i dets fid now) ->
  exists j det, x = newTrack j det fid now /\ In det dets /\
                (i <= j)%positive /\
                (Pos.to_nat j < Pos.to_nat i + length dets)%nat.
Proof.
  revert i. induction dets as [|d dets IH]; intros i H; simpl in *;
    [contradiction|].
  destruct H as [<- | H].
  - exists i, d. split; [reflexivity|]. split; [auto|]. lia.
  - destruct (IH _ H) as (j & det & -> & Hin & Hlo & Hhi).
    exists j, det. split; [reflexivity|]. split; [auto|]. lia.
Qed.

Lemma picked_cons dets b idxs :
  picked dets (b :: idxs)
  = match dets !! b with
    | Some det => det :: picked dets idxs
    | None => picked dets idxs
    end.
Proof. reflexivity. Qed.

Lemma createUnmatched_closed dets fid now idxs t :
  ids_ordered t ->
  tracks (createUnmatched dets fid now t idxs)
  = tracks t ++ newTracks (nextTrackId t) (picked dets idxs) fid now /\
  Pos.to_nat (nextTrackId (createUnmatched dets fid now t idxs))
  = (Pos.to_nat (nextTrackId t) + length (picked dets idxs))%nat.
Proof.
  revert t. induction idxs as [|b idxs IH]; intros t Ho.
  - simpl. rewrite app_nil_r. split; [reflexivity | lia].
  - rewrite picked_cons. cbn [createUnmatched fold_left].
    fold (createUnmatched dets fid now).
    destruct (dets !! b) as [det|] eqn:E.
    + destruct (createTrack_is_newTrack t det fid now (proj2 Ho))
        as (Ht & _ & Hn).
      destruct (IH (createTrack t det fid now))
        as [Ht' Hn']; [apply createTrack_spec, Ho|].
      change (fold_left _ idxs (createTrack t det fid now))
        with (createUnmatched dets fid now (createTrack t det fid now) idxs).
      rewrite Ht', Hn', Ht, Hn, <- app_assoc. cbn [newTracks length app].
      split; [reflexivity | lia].
    + apply IH. exact Ho.
Qed.

Lemma tracks_delete_all_filter ks ts :
  fold_left (fun ts k => tracks_delete k ts) ks ts
  = List.filter (fun x => negb (existsb (Pos.eqb (id x)) ks)) ts.
Proof.
  revert ts. induction ks as [|k ks IH]; intros ts; simpl.
  - induction ts as [|x ts IHts]; simpl; [|rewrite <- IHts]; reflexivity.
  - rewrite IH. unfold tracks_delete.
    induction ts as [|x ts IHts]; simpl; [reflexivity|].
    destruct (Pos.eqb (id x) k); simpl; [exact IHts|].
    destruct (existsb (Pos.eqb (id x)) ks); simpl; [exact IHts|].
    rewrite IHts. reflexivity.
Qed.

Lemma pruneOldTracks_closed u :
  NoDup (map id (tracks u)) ->
  tracks (pruneOldTracks u) = afterPruning u (tracks u).
Proof.
  intros Hnd. unfold pruneOldTracks, afterPruning.
  cbn [tracks]. rewrite tracks_delete_all_filter.
  apply filter_ext_in. intros x Hx. f_equal.
  destruct (shouldRemove u x) eqn:E.
  - apply existsb_exists. exists (id x). split; [|apply Pos.eqb_refl].
    apply in_map. apply filter_In. auto.
  - apply not_true_iff_false. intros H.
    apply existsb_exists in H as (k & Hk & Heq). apply Pos.eqb_eq in Heq.
    subst k. apply in_map_iff in Hk as (y & Hid & Hy).
    apply filter_In in Hy as [Hy Hrm].
    apply in_map_iff in Hx as (x0 & <- & Hx0).
    apply in_map_iff in Hy as (y0 & <- & Hy0).
    simpl in Hid.
    apply In_lookup in Hx0 as (a & Ha). apply In_lookup in Hy0 as (b & Hb).
    assert (b = a).
    { apply (NoDup_lookup (map id (tracks u)) b a (id y0) Hnd).
      - rewrite lookup_map, Hb. reflexivity.
      - rewrite lookup_map, Ha. simpl. congruence. }
    subst b. assert (y0 = x0) by congruence. subst y0. congruence.
Qed.

Lemma NoDup_bool_filter {A} (f : A -> bool) (l : list A) :
  NoDup l -> NoDup (List.filter f l).
Proof.
  induction 1 as [|x l Hx Hl IH]; simpl; [constructor|].
  destruct (f x); [|exact IH]. constructor; [|exact IH].
  rewrite list_elem_of_In, filter_In, <- list_elem_of_In. tauto.
Qed.

(** The unmatched lists keep each index once. *)
Lemma assignFrom_NoDup threshold rows i m :
  NoDup (unmatchedTracks m) -> NoDup (unmatchedDetections m) ->
  NoDup (unmatchedTracks (assignFrom threshold rows i m)) /\
  NoDup (unmatchedDetections (assignFrom threshold rows i m)).
Proof.
  revert i m. induction rows as [|row rows IH]; intros i m HT HD; simpl; [auto|].
  apply IH; unfold assignTrack;
    destruct (bestMatch row 0 (unmatchedDetections m) None) as [[bj bc]|];
    try assumption;
    destruct (Qltb bc (1 - threshold)); try assumption; simpl;
    apply NoDup_bool_filter; assumption.
Qed.

Lemma associate_NoDup t dets :
  NoDup (unmatchedTracks (associate t dets)) /\
  NoDup (unmatchedDetections (associate t dets)).
Proof.
  apply assignFrom_NoDup; simpl; apply NoDup_seq.
Qed.

Lemma cycle_closed t dets fid now :
  ids_ordered t ->
  tracks (cycle t dets fid now)
  = afterPruning t (beforePruning t dets fid now) /\
  Pos.to_nat (nextTrackId (cycle t dets fid now))
  = (Pos.to_nat (nextTrackId t)
     + length (picked dets (unmatchedDetections (associate (predict t) dets))))%nat.
Proof.
  intros Ho. unfold cycle.
  set (t1 := predict t).
  set (m := associate t1 dets).
  set (t2 := updateMatched dets fid now t1 (matched m)).
  set (t3 := createUnmatched dets fid now t2 (unmatchedDetections m)).
  set (t4 := markUnmatched t3 (unmatchedTracks m)).
  pose proof (associate_inv t1 dets) as Inv. fold m in Inv.
  destruct (associate_NoDup t1 dets) as [HndT HndD]. fold m in HndT, HndD.
  destruct (phase2_ordered t dets fid now Ho) as (Ho2 & Hn2 & Hm2 & Ha2).
  fold t1 m t2 in Ho2, Hn2, Hm2, Ha2.
  destruct (createUnmatched_closed dets fid now (unmatchedDetections m) t2 Ho2)
    as [Ht3 Hn3].
  fold t3 in Ht3, Hn3.
  destruct (phase4_spec t dets fid now Ho) as (Ho4 & Hn4 & Hm4 & Ha4).
  fold t1 m t2 t3 t4 in Ho4, Hn4, Hm4, Ha4.
  assert (Ht2 : tracks t2
                = imap (fun a track =>
                          match pairedWith (matched m) a with
                          | Some b =>
                              match dets !! b with
                              | Some det => updatedTrack track det fid now
                              | None => track
                              end
                          | None => track
                          end) (tracks t1)).
  { apply updateMatched_closed. apply (ai_fst _ _ _ _ _ _ Inv). }
  assert (Ht4 : tracks t4 = beforePruning t dets fid now).
  { unfold t4. rewrite markUnmatched_closed by exact HndT.
    rewrite Ht3, Ht2, Hn2. unfold beforePruning. fold t1 m.
    rewrite imap_app. f_equal.
    - apply list_eq. intros a. rewrite !list_lookup_imap.
      change (tracks t1) with (map predictTrack (tracks t)).
      destruct (map predictTrack (tracks t) !! a) as [trk|] eqn:E;
        [|reflexivity].
      simpl. unfold afterAssociation.
      assert (Ha : (a < length (tracks t1))%nat).
      { eapply lookup_lt_Some. exact E. }
      destruct (pairedWith (matched m) a) as [b|] eqn:P.
      + assert (Hno : set_has (unmatchedTracks m) a = false).
        { apply not_true_iff_false. rewrite set_has_In.
          intros Hu. apply (ai_unmT _ _ _ _ _ _ Inv) in Hu as [_ Hu].
          apply Hu. apply pairedWith_None in Hu. congruence. }
        rewrite Hno. reflexivity.
      + assert (Hyes : set_has (unmatchedTracks m) a = true).
        { apply set_has_In. apply (ai_unmT _ _ _ _ _ _ Inv).
          split; [exact Ha | apply pairedWith_None; exact P]. }
        rewrite Hyes. reflexivity.
    - apply list_eq. intros k. rewrite list_lookup_imap.
      destruct (newTracks _ _ _ _ !! k) as [x|]; [|reflexivity].
      simpl. rewrite length_imap.
      match goal with |- context [set_has _ ?n] =>
        assert (Hno : set_has (unmatchedTracks m) n = false) end.
      { apply not_true_iff_false. rewrite set_has_In.
        intros Hu. apply (ai_unmT _ _ _ _ _ _ Inv) in Hu as [Hu _].
        unfold t1 in Hu. simpl in Hu. lia. }
      rewrite Hno. reflexivity. }
  split.
  - rewrite pruneOldTracks_closed by (apply sorted_ids_NoDup, Ho4).
    rewrite Ht4. unfold afterPruning.
    apply filter_ext. intros x. unfold shouldRemove. rewrite Hm4, Ha4.
    reflexivity.
  - change (nextTrackId (pruneOldTracks t4)) with (nextTrackId t4).
    rewrite Hn4, Hn3, Hn2. reflexivity.
Qed.

(** X4.  One [update] cycle in closed form.  For a tracker reached from
    a new one, the registry after the cycle is: every track with its
    prediction refreshed, then updated with the detection it was paired
    with or else marked lost; followed by one new track per unmatched
    detection, in detection order, numbered from the counter; all of
    them one cycle older; without the tracks that fail the pruning test.
    The counter advances by the number of unmatched detections. *)
Theorem cycle_in_closed_form (t : ObjectTracker) (detections : list Detection)
  (frameId : FrameId) (currentTime : Z) :
  reachable t ->
  let m := associate (predict t) detections in
  tracks (cycle t detections frameId currentTime)
  = List.filter (fun track => negb (shouldRemove t track))
      (map growOlder
         (imap (afterAssociation detections frameId currentTime m)
               (map predictTrack (tracks t))
          ++ newTracks (nextTrackId t)
               (picked detections (unmatchedDetections m))
               frameId currentTime)) /\
  Pos.to_nat (nextTrackId (cycle t detections frameId currentTime))
  = (Pos.to_nat (nextTrackId t)
     + length (picked detections (unmatchedDetections m)))%nat.
Proof.
  intros Hr. apply (cycle_closed t detections frameId currentTime).
  apply reachable_ordered, Hr.
Qed.

(** ** Counting the pairs *)

Lemma set_delete_length s j :
  NoDup s -> In j s -> S (length (set_delete s j)) = length s.
Proof.
  induction 1 as [|x s Hx Hs IH]; intros Hin; simpl in *; [contradiction|].
  rewrite list_elem_of_In in Hx.
  destruct (Nat.eqb_spec j x) as [->|Hne]; simpl.
  - f_equal. unfold set_delete.
    assert (E : List.filter (fun k => negb (Nat.eqb x k)) s = s).
    { clear IH Hs Hin. induction s as [|y s IHs]; simpl; [reflexivity|].
      destruct (Nat.eqb_spec x y) as [->|_]; simpl.
      - exfalso. apply Hx. left. reflexivity.
      - rewrite IHs; [reflexivity|]. intros H. apply Hx. right. exact H. }
    rewrite E. reflexivity.
  - f_equal. apply IH. destruct Hin as [E|Hin]; [congruence | exact Hin].
Qed.

Lemma assignTrack_counted threshold matrix nt nd i row m :
  (i < nt)%nat ->
  assoc_inv threshold matrix nt nd i m ->
  counted nt nd m ->
  counted nt nd (assignTrack threshold i row m).
Proof.
  intros Hi Inv (HT & HD & LT & LD). unfold assignTrack.
  pose proof (bestMatch_spec (unmatchedDetections m) row) as Hbest.
  destruct (bestMatch row 0 (unmatchedDetections m) None) as [[bj bc]|];
    [|repeat split; assumption].
  destruct (Qltb bc (1 - threshold)); [|repeat split; assumption].
  destruct Hbest as (_ & Hin & _).
  assert (HiT : In i (unmatchedTracks m)).
  { apply (ai_unmT _ _ _ _ _ _ Inv). split; [exact Hi|].
    intros H. apply in_map_fst in H as (b & H).
    apply (ai_range _ _ _ _ _ _ Inv) in H. lia. }
  pose proof (set_delete_length _ _ HT HiT).
  pose proof (set_delete_length _ _ HD Hin).
  split; [apply NoDup_bool_filter, HT|].
  split; [apply NoDup_bool_filter, HD|].
  simpl. rewrite !length_app. simpl. lia.
Qed.

Lemma assignFrom_counted threshold matrix nt nd rows i m :
  (forall k, rows !! k = matrix !! (i + k)%nat) ->
  (i + length rows <= nt)%nat ->
  assoc_inv threshold matrix nt nd i m ->
  counted nt nd m ->
  counted nt nd (assignFrom threshold rows i m).
Proof.
  revert i m. induction rows as [|row rows IH]; intros i m Hrows Hlen Inv Hc;
    simpl in *; [exact Hc|].
  apply IH.
  - intros k. specialize (Hrows (S k)). simpl in Hrows. rewrite Hrows.
    f_equal. lia.
  - lia.
  - apply assignTrack_inv; [|lia|exact Inv].
    specialize (Hrows 0%nat). simpl in Hrows.
    rewrite Nat.add_0_r in Hrows. auto.
  - apply (assignTrack_counted threshold matrix); [lia | exact Inv | exact Hc].
Qed.

Lemma associate_counted t dets :
  counted (length (tracks t)) (length dets) (associate t dets).
Proof.
  unfold associate.
  apply (assignFrom_counted (iouThreshold t) (costMatrix (tracks t) dets)
           (length (tracks t)) (length dets)).
  - intros k. reflexivity.
  - unfold costMatrix. rewrite length_map. lia.
  - apply assoc_inv_start.
  - split; [apply NoDup_seq|]. split; [apply NoDup_seq|]. simpl.
    rewrite !length_seq. auto.
Qed.

Lemma picked_in_range dets idxs :
  (forall b, In b idxs -> (b < length dets)%nat) ->
  length (picked dets idxs) = length idxs.
Proof.
  induction idxs as [|b idxs IH]; intros H; [reflexivity|].
  rewrite picked_cons.
  destruct (lookup_lt_is_Some_2 dets b) as [det ->]; [apply H; left; auto|].
  simpl. rewrite IH; [reflexivity|]. intros b' Hb'. apply H. right. exact Hb'.
Qed.

(** X5.  Every detection of a batch is used once: it is paired with one
    track or it starts one new track.  The pairs and the unmatched
    detections add up to the batch, the pairs and the unmatched tracks
    add up to the registry, no index is listed twice, and the counter
    advances by the number of detections that were not paired. *)
Theorem every_detection_used_once (t : ObjectTracker)
  (detections : list Detection) (frameId : FrameId) (currentTime : Z) :
  reachable t ->
  let m := associate (predict t) detections in
  (length (matched m) + length (unmatchedDetections m)
   = length detections)%nat /\
  (length (matched m) + length (unmatchedTracks m) = length (tracks t))%nat /\
  NoDup (unmatchedDetections m) /\ NoDup (unmatchedTracks m) /\
  (Pos.to_nat (nextTrackId (cycle t detections frameId currentTime))
   + length (matched m)
   = Pos.to_nat (nextTrackId t) + length detections)%nat.
Proof.
  intros Hr. cbv zeta.
  destruct (associate_counted (predict t) detections) as (HT & HD & LT & LD).
  replace (length (tracks (predict t))) with (length (tracks t)) in LT
    by (symmetry; apply length_map).
  destruct (cycle_closed t detections frameId currentTime
              (reachable_ordered t Hr)) as [_ Hn].
  rewrite picked_in_range in Hn.
  - repeat split; try assumption. lia.
  - intros b Hb.
    apply (ai_unmD _ _ _ _ _ _ (associate_inv (predict t) detections)) in Hb.
    tauto.
Qed.

(** ** Empty registry, empty batch *)

Lemma picked_all pre dets :
  picked (pre ++ dets) (seq (length pre) (length dets)) = dets.
Proof.
  revert pre. induction dets as [|d dets IH]; intros pre; [reflexivity|].
  cbn [length seq]. rewrite picked_cons.
  rewrite lookup_app_r, Nat.sub_diag by lia. cbn [lookup list_lookup]. f_equal.
  specialize (IH (pre ++ [d])). rewrite <- app_assoc, length_app in IH.
  simpl in IH. rewrite Nat.add_1_r in IH. exact IH.
Qed.

Lemma newTracks_kept u i dets fid now :
  afterPruning u (newTracks i dets fid now)
  = map growOlder (newTracks i dets fid now).
Proof.
  unfold afterPruning. revert i.
  induction dets as [|d dets IH]; intros i; simpl; [reflexivity|].
  unfold shouldRemove at 1. simpl.
  rewrite andb_false_r. simpl. rewrite IH. reflexivity.
Qed.

(** X6.  On a registry with no track, a cycle creates one track per
    detection, in detection order and numbered from the counter, each
    with the detection as its box, one hit and age 1; none is pruned,
    whatever [maxAge] and [minHits] are. *)
Theorem cycle_on_empty_registry (t : ObjectTracker)
  (detections : list Detection) (frameId : FrameId) (currentTime : Z) :
  tracks t = [] ->
  let t' := cycle t detections frameId currentTime in
  tracks t'
  = map growOlder (newTracks (nextTrackId t) detections frameId currentTime) /\
  Pos.to_nat (nextTrackId t')
  = (Pos.to_nat (nextTrackId t) + length detections)%nat /\
  (forall k detection, detections !! k = Some detection ->
     exists track, tracks t' !! k = Some track /\
                   bbox track = detection /\
                   Pos.to_nat (id track) = (Pos.to_nat (nextTrackId t) + k)%nat /\
                   hits track = 1%nat /\ age track = 1%nat /\
                   timeSinceUpdate track = 0%nat).
Proof.
  intros Hempty. cbv zeta.
  assert (Ho : ids_ordered t).
  { split; rewrite Hempty; constructor. }
  destruct (cycle_closed t detections frameId currentTime Ho) as [Ht Hn].
  assert (Hm : unmatchedDetections (associate (predict t) detections)
               = seq 0 (length detections)).
  { unfold associate, predict. simpl. rewrite Hempty. reflexivity. }
  assert (Hp : picked detections
                 (unmatchedDetections (associate (predict t) detections))
               = detections).
  { rewrite Hm. apply (picked_all [] detections). }
  assert (Hb : beforePruning t detections frameId currentTime
               = newTracks (nextTrackId t) detections frameId currentTime).
  { unfold beforePruning. rewrite Hp, Hempty. reflexivity. }
  rewrite Hb, newTracks_kept in Ht. rewrite Hp in Hn.
  split; [exact Ht|]. split; [exact Hn|].
  intros k det Hk.
  destruct (newTracks_lookup (nextTrackId t) detections frameId currentTime
              k det Hk) as (j & Hj & Hnum).
  exists (growOlder (newTrack j det frameId currentTime)).
  rewrite Ht, lookup_map, Hj. simpl.
  split; [reflexivity|]. split; [reflexivity|]. split; [exact Hnum|]. auto.
Qed.

(** X7.  With an empty batch a cycle pairs nothing and creates nothing:
    the counter keeps its value, and the registry is its former tracks,
    each marked lost once and one cycle older, without those that fail
    the pruning test. *)
Theorem cycle_on_empty_batch (t : ObjectTracker) (frameId : FrameId)
  (currentTime : Z) :
  reachable t ->
  let t' := cycle t [] frameId currentTime in
  nextTrackId t' = nextTrackId t /\
  tracks t'
  = List.filter (fun track => negb (shouldRemove t track))
      (map (fun track => growOlder (markLost (predictTrack track))) (tracks t)) /\
  (forall track', In track' (tracks t') ->
     exists track, In track (tracks t) /\ id track' = id track /\
                   bbox track' = bbox track /\ hits track' = hits track /\
                   timeSinceUpdate track' = (timeSinceUpdate track + 1)%nat /\
                   age track' = (age track + 1)%nat).
Proof.
  intros Hr. cbv zeta.
  destruct (cycle_closed t [] frameId currentTime (reachable_ordered t Hr))
    as [Ht Hn].
  pose proof (associate_inv (predict t) []) as Inv.
  assert (Hm : matched (associate (predict t) []) = []).
  { destruct (matched (associate (predict t) [])) as [|[a b] l] eqn:E;
      [reflexivity|].
    destruct (ai_range _ _ _ _ _ _ Inv a b) as (_ & _ & Hb & _);
      [rewrite E; left; reflexivity | simpl in Hb; lia]. }
  assert (Hp : picked [] (unmatchedDetections (associate (predict t) [])) = []).
  { generalize (unmatchedDetections (associate (predict t) [])).
    intros l. induction l as [|b l IH]; [reflexivity|].
    rewrite picked_cons. simpl. exact IH. }
  rewrite Hp in Hn. cbn [length] in Hn. rewrite Nat.add_0_r in Hn.
  apply Pos2Nat.inj in Hn.
  assert (Hlist : tracks (cycle t [] frameId currentTime)
                  = List.filter (fun track => negb (shouldRemove t track))
                      (map (fun track => growOlder (markLost (predictTrack track)))
                           (tracks t))).
  { rewrite Ht. unfold afterPruning, beforePruning. rewrite Hp.
    cbn [newTracks]. rewrite app_nil_r. f_equal.
    rewrite <- (map_map (fun x => markLost (predictTrack x)) growOlder).
    f_equal.
    apply list_eq. intros a. rewrite list_lookup_imap, !lookup_map.
    destruct (tracks t !! a) as [trk|]; [|reflexivity]. simpl.
    unfold afterAssociation. rewrite Hm. reflexivity. }
  split; [exact Hn|]. split; [exact Hlist|].
  intros x Hx. rewrite Hlist in Hx. apply filter_In in Hx as [Hx _].
  apply in_map_iff in Hx as (trk & <- & Htrk).
  exists trk. simpl. auto 10.
Qed.

(** ** What every live track satisfies *)

Lemma cycle_member t dets fid now x :
  ids_ordered t ->
  In x (tracks (cycle t dets fid now)) ->
  shouldRemove t x = false /\
  ((exists a track,
       tracks t !! a = Some track /\
       x = growOlder (afterAssociation dets fid now
                        (associate (predict t) dets) a (predictTrack track))) \/
   (exists j det,
       x = growOlder (newTrack j det fid now) /\
       In det (picked dets (unmatchedDetections (associate (predict t) dets))) /\
       (nextTrackId t <= j)%positive)).
Proof.
  intros Ho Hx.
  destruct (cycle_closed t dets fid now Ho) as [Ht _]. rewrite Ht in Hx.
  unfold afterPruning in Hx. apply filter_In in Hx as [Hx Hkeep].
  apply negb_true_iff in Hkeep. split; [exact Hkeep|].
  apply in_map_iff in Hx as (y & <- & Hy).
  unfold beforePruning in Hy. apply in_app_or in Hy as [Hy | Hy].
  - left. apply In_lookup in Hy as (a & Ha).
    rewrite list_lookup_imap, lookup_map in Ha.
    destruct (tracks t !! a) as [trk|] eqn:E; [|discriminate].
    simpl in Ha. injection Ha as <-. eauto.
  - right. apply newTracks_In in Hy as (j & det & -> & Hin & Hlo & _). eauto.
Qed.

Lemma cycle_counters t dets fid now :
  ids_ordered t ->
  Forall counters_consistent (tracks t) ->
  Forall counters_consistent (tracks (cycle t dets fid now)).
Proof.
  intros Ho Hc. rewrite Forall_forall in *. intros x Hx.
  apply list_elem_of_In in Hx.
  destruct (cycle_member t dets fid now x Ho Hx)
    as [_ [(a & trk & Ha & ->) | (j & det & -> & _)]].
  - assert (Htrk : trk ∈ tracks t) by (apply list_elem_of_In, In_lookup; eauto).
    destruct (Hc trk Htrk) as [H1 H2].
    unfold counters_consistent, afterAssociation.
    destruct (pairedWith _ a) as [b|]; [destruct (dets !! b)|]; simpl; lia.
  - unfold counters_consistent. simpl. lia.
Qed.

(** X8.  In every tracker reached from a new one, each live track has at
    least one hit, and its hits and its cycles since the last update
    together do not exceed its age.  After any cycle each live track
    passes the pruning test: it was updated within the last [maxAge]
    cycles, and it is confirmed or at most 10 cycles old. *)
Theorem live_tracks_invariant (t : ObjectTracker) (track : Track) :
  reachable t -> In track (tracks t) ->
  (1 <= hits track)%nat /\
  (hits track + timeSinceUpdate track <= age track)%nat /\
  (timeSinceUpdate track <= maxAge t)%nat /\
  ((minHits t <= hits track)%nat \/ (age track <= 10)%nat).
Proof.
  intros (options & batches & ->) Hin.
  assert (Hc : Forall counters_consistent
                 (tracks (cycles (new_ObjectTracker options) batches))).
  { clear Hin.
    induction batches as [|[[dets fid] now] batches IH] using rev_ind.
    - constructor.
    - rewrite cycles_snoc. apply cycle_counters; [|apply IH].
      apply cycles_ordered, new_ordered. }
  rewrite Forall_forall in Hc.
  assert (Hel : track ∈ tracks (cycles (new_ObjectTracker options) batches))
    by (apply list_elem_of_In; exact Hin).
  destruct (Hc track Hel) as [H1 H2]. clear Hc Hel.
  split; [exact H1|]. split; [exact H2|].
  destruct batches as [|[[dets fid] now] batches _] using rev_ind;
    [contradiction|].
  rewrite cycles_snoc in *.
  set (u := cycles (new_ObjectTracker options) batches) in *.
  assert (Ho : ids_ordered u) by apply cycles_ordered, new_ordered.
  destruct (cycle_member u dets fid now track Ho Hin) as [Hkeep _].
  destruct (cycle_ordered u dets fid now Ho) as (_ & _ & Hm & Ha).
  rewrite Hm, Ha. unfold shouldRemove in Hkeep.
  apply orb_false_iff in Hkeep as [K1 K2].
  apply Nat.ltb_ge in K1. split; [exact K1|].
  apply andb_false_iff in K2 as [K2 | K2]; apply Nat.ltb_ge in K2; auto.
Qed.

(** ** The association threshold *)

Lemma picked_In dets idxs b det :
  In b idxs -> dets !! b = Some det -> In det (picked dets idxs).
Proof.
  induction idxs as [|b0 idxs IH]; intros Hin Hdet; [contradiction|].
  rewrite picked_cons. destruct Hin as [->|Hin].
  - rewrite Hdet. left. reflexivity.
  - destruct (dets !! b0); [right|]; apply IH; assumption.
Qed.

Lemma newTracks_has i dets fid now det :
  In det dets ->
  exists j, In (newTrack j det fid now) (newTracks i dets fid now) /\
            (i <= j)%positive.
Proof.
  revert i. induction dets as [|d dets IH]; intros i Hin; [contradiction|].
  destruct Hin as [->|Hin].
  - exists i. split; [left; reflexivity | lia].
  - destruct (IH (Pos.succ i) Hin) as (j & Hj & Hlo).
    exists j. split; [right; exact Hj | lia].
Qed.

(** X9.  The threshold test is made on the cost cells the loop
    compares.  A pair is committed only if its cell is below
    [1 - iouThreshold].  A detection whose cell is at least
    [1 - iouThreshold] against every track is paired with no track and
    starts a new one, which is live after the cycle with the detection
    as its box. *)
Theorem threshold_decides_new_tracks (t : ObjectTracker)
  (detections : list Detection) (frameId : FrameId) (currentTime : Z)
  (j : nat) (detection : Detection) :
  reachable t ->
  detections !! j = Some detection ->
  let m := associate (predict t) detections in
  let matrix := costMatrix (tracks (predict t)) detections in
  (forall a, In (a, j) (matched m) ->
     exists c, costAt matrix a j = Some c /\ c < 1 - iouThreshold t) /\
  ((forall a c, costAt matrix a j = Some c -> 1 - iouThreshold t <= c) ->
   In j (unmatchedDetections m) /\
   exists track', In track' (tracks (cycle t detections frameId currentTime)) /\
                  bbox track' = detection /\ hits track' = 1%nat /\
                  age track' = 1%nat /\
                  (nextTrackId t <= id track')%positive).
Proof.
  intros Hr Hdet. cbv zeta.
  pose proof (associate_inv (predict t) detections) as Inv.
  assert (Hpair : forall a, In (a, j) (matched (associate (predict t) detections)) ->
            exists c, costAt (costMatrix (tracks (predict t)) detections) a j
                      = Some c /\ c < 1 - iouThreshold t).
  { intros a Hin.
    destruct (ai_range _ _ _ _ _ _ Inv a j Hin) as (_ & _ & _ & c & Hc & Hlt).
    exists c. split; [exact Hc | exact Hlt]. }
  split; [exact Hpair|].
  intros Hlow.
  assert (Hun : In j (unmatchedDetections (associate (predict t) detections))).
  { apply (ai_unmD _ _ _ _ _ _ Inv). split.
    - eapply lookup_lt_Some. exact Hdet.
    - intros Hin. apply in_map_snd in Hin as (a & Hin).
      destruct (Hpair a Hin) as (c & Hc & Hlt).
      specialize (Hlow a c Hc). lra. }
  split; [exact Hun|].
  destruct (newTracks_has (nextTrackId t)
              (picked detections
                 (unmatchedDetections (associate (predict t) detections)))
              frameId currentTime detection
              (picked_In _ _ _ _ Hun Hdet)) as (i & Hi & Hlo).
  exists (growOlder (newTrack i detection frameId currentTime)).
  split; [|simpl; auto].
  destruct (cycle_closed t detections frameId currentTime
              (reachable_ordered t Hr)) as [-> _].
  unfold afterPruning. apply filter_In. split.
  - apply in_map. unfold beforePruning. apply in_or_app. right. exact Hi.
  - unfold shouldRemove. simpl. rewrite andb_false_r. reflexivity.
Qed.

(** ** What becomes of a track that was paired *)

Lemma afterAssociation_id dets fid now m a track :
  id (afterAssociation dets fid now m a track) = id track.
Proof.
  unfold afterAssociation.
  destruct (pairedWith (matched m) a) as [b|]; [|reflexivity].
  destruct (dets !! b); reflexivity.
Qed.

(** X10.  A track paired with a detection survives the cycle exactly
    when this hit confirms it or it is at most 10 cycles old after the
    cycle.  If it survives it holds the detection, one hit more and no
    cycle without update.  The detection starts no new track either
    way: an unconfirmed track found again too late is removed together
    with the detection that found it. *)
Theorem paired_track_fate (t : ObjectTracker) (detections : list Detection)
  (frameId : FrameId) (currentTime : Z) (a b : nat) (track : Track) :
  reachable t ->
  tracks t !! a = Some track ->
  In (a, b) (matched (associate (predict t) detections)) ->
  let t' := cycle t detections frameId currentTime in
  (live t' (id track) <->
   (minHits t <= hits track + 1)%nat \/ (age track + 1 <= 10)%nat) /\
  (forall track', In track' (tracks t') -> id track' = id track ->
     hits track' = (hits track + 1)%nat /\
     timeSinceUpdate track' = 0%nat /\
     age track' = (age track + 1)%nat /\
     detections !! b = Some (bbox track')) /\
  ~ In b (unmatchedDetections (associate (predict t) detections)).
Proof.
  intros Hr Ha Hin. cbv zeta.
  pose proof (reachable_ordered t Hr) as Ho.
  pose proof (associate_inv (predict t) detections) as Inv.
  set (m := associate (predict t) detections) in *.
  destruct (ai_range _ _ _ _ _ _ Inv a b Hin) as (_ & _ & Hb & _).
  destruct (lookup_lt_is_Some_2 detections b Hb) as [det Hdet].
  assert (Hp : pairedWith (matched m) a = Some b)
    by (apply pairedWith_In; [exact (ai_fst _ _ _ _ _ _ Inv) | exact Hin]).
  set (u := growOlder (updatedTrack (predictTrack track) det frameId currentTime)).
  assert (Hu : growOlder (afterAssociation detections frameId currentTime m a
                            (predictTrack track)) = u).
  { unfold afterAssociation. rewrite Hp, Hdet. reflexivity. }
  assert (Htest : shouldRemove t u = false <->
                  (minHits t <= hits track + 1)%nat \/ (age track + 1 <= 10)%nat).
  { unfold shouldRemove, u. simpl.
    destruct (Nat.ltb_spec (hits track + 1) (minHits t));
      destruct (Nat.ltb_spec 10 (age track + 1)); simpl;
      split; intros H'; try reflexivity; try discriminate; lia. }
  assert (Hsame : forall track', In track' (tracks (cycle t detections frameId currentTime)) ->
                    id track' = id track -> track' = u /\ shouldRemove t u = false).
  { intros track' Hin' Hid.
    destruct (cycle_member t detections frameId currentTime track' Ho Hin')
      as [Hkeep [(a' & trk' & Ha' & ->) | (j & det' & -> & _ & Hj)]].
    - fold m in Hkeep |- *.
      assert (Hid' : id trk' = id track).
      { rewrite <- Hid. simpl. rewrite afterAssociation_id. reflexivity. }
      assert (a' = a)
        by (eapply sorted_ids_same_index; [exact (proj1 Ho) | eauto | eauto | exact Hid']).
      subst a'. assert (trk' = track) by congruence. subst trk'.
      rewrite Hu in Hkeep |- *. auto.
    - exfalso. simpl in Hid.
      assert (Hl : (id track < nextTrackId t)%positive).
      { apply live_below_counter; [exact Ho|]. unfold live.
        apply in_map, In_lookup. eauto. }
      lia. }
  split; [|split].
  - split.
    + intros Hl. unfold live in Hl. apply in_map_iff in Hl as (track' & Hid & Hin').
      apply Htest. exact (proj2 (Hsame track' Hin' Hid)).
    + intros Hc. apply Htest in Hc.
      destruct (cycle_closed t detections frameId currentTime Ho) as [Ht _].
      unfold live. apply in_map_iff. exists u. split; [reflexivity|].
      rewrite Ht. unfold afterPruning. apply filter_In.
      split; [|rewrite Hc; reflexivity].
      rewrite <- Hu. apply in_map. unfold beforePruning. apply in_or_app. left.
      apply In_lookup. exists a.
      rewrite list_lookup_imap, lookup_map, Ha. reflexivity.
  - intros track' Hin' Hid. destruct (Hsame track' Hin' Hid) as [-> _].
    unfold u. simpl. rewrite Hdet. auto.
  - intros Hun. apply (ai_unmD _ _ _ _ _ _ Inv) in Hun as [_ Hun].
    apply Hun. apply in_map_iff. exists (a, b). auto.
Qed.

(** ** The properties at work *)

Import Examples Scenes.

Lemma two_tracks_is_reachable : reachable two_tracks.
Proof.
  exists default_options,
    [([wide (15 # 100) (65 # 100) "person";
       wide (275 # 1000) (775 # 1000) "person"], FrameNum 0, 0%Z)].
  reflexivity.
Defined.

Lemma after_tick_3_is_reachable : reachable (after_tick 3).
Proof.
  exists default_options,
    [([person], FrameNum 0, 0%Z); ([person], FrameNum 1, 33%Z);
     ([person], FrameNum 2, 66%Z)].
  reflexivity.
Defined.


Lemma trajectories_kept_witness :
  Forall (fun c => (1 <= length (trajectory c) <= 50)%nat /\
                   trackHistory (after_tick 3) !! trackId c
                   = Some (trajectory c))
         (getConfirmedTracks (after_tick 3)) /\
  getConfirmedTracks (after_tick 3) <> [].
Proof.
  destruct (trajectories_kept (after_tick 3) after_tick_3_is_reachable)
    as (_ & _ & H).
  split; [|vm_compute; discriminate].
  apply Forall_forall. intros c Hc. apply list_elem_of_In in Hc.
  exact (H c Hc).
Defined.

Lemma cycle_in_closed_form_witness :
  Pos.to_nat (nextTrackId (cycle two_tracks next_batch (FrameNum 1) 33))
  = (Pos.to_nat (nextTrackId two_tracks)
     + length (picked next_batch
                 (unmatchedDetections
                    (associate (predict two_tracks) next_batch))))%nat.
Proof.
  exact (proj2 (cycle_in_closed_form two_tracks next_batch (FrameNum 1) 33
                  two_tracks_is_reachable)).
Defined.

Lemma every_detection_used_once_witness :
  (length (matched (associate (predict two_tracks) next_batch))
   + length (unmatchedDetections (associate (predict two_tracks) next_batch))
   = length next_batch)%nat /\
  NoDup (unmatchedDetections (associate (predict two_tracks) next_batch)).
Proof.
  destruct (every_detection_used_once two_tracks next_batch (FrameNum 1) 33
              two_tracks_is_reachable) as (H1 & _ & H2 & _).
  split; assumption.
Defined.

Lemma cycle_on_empty_registry_witness :
  tracks (cycle (new_ObjectTracker default_options) next_batch (FrameNum 0) 0)
  = map growOlder (newTracks 1 next_batch (FrameNum 0) 0).
Proof.
  exact (proj1 (cycle_on_empty_registry (new_ObjectTracker default_options)
                  next_batch (FrameNum 0) 0 eq_refl)).
Defined.

Lemma cycle_on_empty_batch_witness :
  nextTrackId (cycle two_tracks [] (FrameNum 1) 33) = nextTrackId two_tracks.
Proof.
  exact (proj1 (cycle_on_empty_batch two_tracks (FrameNum 1) 33
                  two_tracks_is_reachable)).
Defined.

Lemma live_tracks_invariant_witness :
  exists track,
    In track (tracks (after_tick 3)) /\
    (1 <= hits track)%nat /\
    (hits track + timeSinceUpdate track <= age track)%nat.
Proof.
  destruct (tracks (after_tick 3)) as [|track rest] eqn:E;
    [vm_compute in E; discriminate|].
  assert (Hin : In track (tracks (after_tick 3)))
    by (rewrite E; left; reflexivity).
  destruct (live_tracks_invariant (after_tick 3) track
              after_tick_3_is_reachable Hin) as (H1 & H2 & _).
  exists track. split; [left; reflexivity|]. split; assumption.
Defined.

Lemma threshold_decides_new_tracks_witness :
  In 0%nat (unmatchedDetections
              (associate (predict two_tracks) [far_right])) /\
  exists track',
    In track' (tracks (cycle two_tracks [far_right] (FrameNum 1) 33)) /\
    bbox track' = far_right.
Proof.
  destruct (threshold_decides_new_tracks two_tracks [far_right] (FrameNum 1)
              33 0 far_right two_tracks_is_reachable eq_refl) as [_ H].
  destruct H as (Hun & track' & Hin & Hb & _).
  - intros a c Hc. destruct a as [|[|a]]; vm_compute in Hc;
      [injection Hc as <- | injection Hc as <- | discriminate Hc];
      vm_compute; intros C; discriminate C.
  - split; [exact Hun|]. exists track'. split; [exact Hin | exact Hb].
Defined.

Lemma paired_track_fate_witness :
  live seen_long_ago 1 /\
  ~ live (cycle seen_long_ago [person] (FrameNum 10) 330) 1.
Proof.
  assert (Hr : reachable seen_long_ago).
  { exists default_options,
      (([person], FrameNum 0, 0%Z) :: repeat ([], FrameNum 1, 33%Z) 9).
    reflexivity. }
  destruct (tracks seen_long_ago !! 0%nat) as [track|] eqn:E;
    [|vm_compute in E; discriminate].
  assert (Hf : id track = 1%positive /\ hits track = 1%nat /\
               age track = 10%nat).
  { assert (E' := E). vm_compute in E'. injection E' as <-. auto. }
  destruct Hf as (Hid & Hh & Hage).
  assert (Hin : In (0%nat, 0%nat)
                   (matched (associate (predict seen_long_ago) [person])))
    by (vm_compute; auto).
  destruct (paired_track_fate seen_long_ago [person] (FrameNum 10) 330 0 0
              track Hr E Hin) as [Hiff _].
  assert (Hm : minHits seen_long_ago = 3%nat) by (vm_compute; reflexivity).
  rewrite Hid, Hh, Hage, Hm in Hiff.
  split; [vm_compute; left; reflexivity|].
  intros Hl. pose proof (proj1 Hiff Hl) as Hc. clear - Hc. lia.
Defined.

End TrackerLifeFacts.

Module CollectionFacts.

Import Metrics Collection MetricsFacts.

Section Config.

Variable enabled : bool.
Variable maxFrames : nat.

#[local] Abbreviation call := (Collection.call enabled maxFrames).
#[local] Abbreviation calls := (Collection.calls enabled maxFrames).
#[local] Abbreviation startCollection := (Collection.startCollection enabled).
#[local] Abbreviation window_bounded := (Collection.window_bounded maxFrames).

(** ** The report timer *)

Lemma clearInterval_only h : clearInterval h [h] = [].
Proof. unfold clearInterval. simpl. rewrite Nat.eqb_refl. reflexivity. Qed.

Lemma call_timer c op :
  timer_in_step enabled c -> timer_in_step enabled (call c op).
Proof.
  intros Hinv. assert (Hinv' := Hinv). destruct Hinv' as (Hi & Ht & Hh).
  destruct op as [r now| | |now|now|now|now]; simpl.
  - unfold timer_in_step. simpl.
    assert (E : isCollecting (recordFrame maxFrames (service c) r now)
                = isCollecting (service c)).
    { unfold recordFrame. destruct r; [|reflexivity].
      destruct (isCollecting (service c)) eqn:C; simpl; [reflexivity | exact C]. }
    rewrite E. auto.
  - unfold timer_in_step. simpl.
    assert (E : isCollecting (recordDroppedFrame (service c))
                = isCollecting (service c)).
    { unfold recordDroppedFrame.
      destruct (isCollecting (service c)) eqn:C; simpl; [reflexivity | exact C]. }
    rewrite E. auto.
  - unfold timer_in_step. simpl.
    assert (E : isCollecting (recordTotalFrame (service c))
                = isCollecting (service c)).
    { unfold recordTotalFrame.
      destruct (isCollecting (service c)) eqn:C; simpl; [reflexivity | exact C]. }
    rewrite E. auto.
  - unfold Collection.startCollection.
    destruct (isCollecting (service c)) eqn:C; [exact Hinv|].
    assert (Hnone : reportTimer c = None).
    { destruct (reportTimer c) as [h0|] eqn:R; [|reflexivity].
      destruct Ht as [Ht _]. assert (Hs : is_Some (Some h0)) by eauto.
      apply Ht in Hs as [Hs _]. congruence. }
    destruct enabled eqn:En; unfold timer_in_step; simpl.
    + rewrite Hnone in *. rewrite Hi. split; [reflexivity|].
      split; [split; eauto|]. intros h E. injection E as <-. lia.
    + rewrite Hnone in *. rewrite Hi. split; [reflexivity|].
      split; [|discriminate]. split; [intros [x Hx]; discriminate|].
      intros [_ H]. discriminate.
  - unfold Collection.stopCollection.
    destruct (isCollecting (service c)) eqn:C; simpl; [|exact Hinv].
    destruct (reportTimer c) as [h|] eqn:R; unfold timer_in_step; simpl.
    + rewrite Hi, clearInterval_only. split; [reflexivity|].
      split; [|discriminate]. split; [intros [x Hx]; discriminate|].
      intros [H _]. discriminate.
    + rewrite Hi. split; [reflexivity|].
      split; [|discriminate]. split; [intros [x Hx]; discriminate|].
      intros [H _]. discriminate.
  - unfold timer_in_step. simpl. auto.
  - unfold Collection.cleanup, Collection.stopCollection.
    destruct (isCollecting (service c)) eqn:C; simpl.
    + destruct (reportTimer c) as [h|] eqn:R; unfold timer_in_step; simpl.
      * rewrite Hi, clearInterval_only. split; [reflexivity|].
        split; [|discriminate]. split; [intros [x Hx]; discriminate|].
        intros [H _]. discriminate.
      * rewrite Hi. split; [reflexivity|].
        split; [|discriminate]. split; [intros [x Hx]; discriminate|].
        intros [H _]. discriminate.
    + unfold timer_in_step. simpl. rewrite C. auto.
Qed.

Lemma new_Collector_timer now :
  timer_in_step enabled (new_Collector enabled now).
Proof.
  unfold new_Collector, Collection.startCollection. simpl.
  destruct enabled eqn:En; unfold timer_in_step; simpl.
  - split; [reflexivity|]. split; [split; eauto|].
    intros h E. injection E as <-. lia.
  - split; [reflexivity|]. split; [|discriminate].
    split; [intros [x Hx]; discriminate | intros [_ H]; discriminate].
Qed.

(** X11.  Whatever is called on the metrics service, and in whatever
    order, at most one report interval is scheduled: exactly one while
    the service is collecting with reports enabled, none otherwise.
    [startCollection] never schedules a second one and [stopCollection]
    and [cleanup] leave none behind. *)
Theorem report_timer_never_leaks (now : Z) (ops : list Call) :
  let c := calls (new_Collector enabled now) ops in
  intervals c = match reportTimer c with Some h => [h] | None => [] end /\
  (length (intervals c) <= 1)%nat /\
  (is_Some (reportTimer c) <->
   isCollecting (service c) = true /\ enabled = true).
Proof.
  cbv zeta.
  assert (H : timer_in_step enabled (calls (new_Collector enabled now) ops)).
  { generalize (new_Collector_timer now).
    generalize (new_Collector enabled now).
    induction ops as [|op ops IH]; intros c Hc; simpl; [exact Hc|].
    apply IH, call_timer, Hc. }
  destruct H as (Hi & Ht & _). split; [exact Hi|]. split; [|exact Ht].
  rewrite Hi. destruct (reportTimer _); simpl; lia.
Qed.

(** ** The rolling window *)

Lemma recordFrame_collecting m r now :
  isCollecting m = true ->
  recordFrame maxFrames m (Some r) now
  = {| frames :=
         (let pushed := frames m ++ [frameMetricsOf r now] in
          if (maxFrames <? length pushed)%nat
          then slice_last maxFrames pushed else pushed);
       startTime := startTime m; endTime := endTime m;
       totalFrames := totalFrames m;
       processedFrames := processedFrames m + 1;
       droppedFrames := droppedFrames m;
       isCollecting := isCollecting m |}.
Proof.
  intros C. unfold recordFrame. rewrite C. reflexivity.
Qed.

Lemma recordFrame_window m r now :
  window_bounded m -> window_bounded (recordFrame maxFrames m r now).
Proof.
  intros [H1 H2]. destruct r as [r|]; [|split; assumption].
  destruct (isCollecting m) eqn:C.
  - rewrite recordFrame_collecting by exact C. unfold Collection.window_bounded. simpl.
    rewrite length_app. simpl.
    destruct (maxFrames <? length (frames m) + 1)%nat eqn:E.
    + apply Nat.ltb_lt in E. unfold slice_last.
      destruct maxFrames as [|k] eqn:Ek.
      * rewrite length_app. simpl. split; lia.
      * rewrite length_drop, length_app. simpl. split; lia.
    + apply Nat.ltb_ge in E. rewrite length_app. simpl. split; lia.
  - unfold recordFrame. rewrite C. split; assumption.
Qed.

Lemma call_window c op :
  window_bounded (service c) -> window_bounded (service (call c op)).
Proof.
  intros H. assert (H' := H). destruct H' as [H1 H2].
  destruct op as [r now| | |now|now|now|now]; simpl.
  - apply recordFrame_window. exact H.
  - unfold recordDroppedFrame. destruct (isCollecting (service c)); exact H.
  - unfold recordTotalFrame. destruct (isCollecting (service c)); exact H.
  - unfold Collection.startCollection.
    destruct (isCollecting (service c)); [exact H|].
    destruct enabled; exact H.
  - unfold Collection.stopCollection.
    destruct (isCollecting (service c)); [|exact H].
    destruct (reportTimer c); exact H.
  - split; simpl; lia.
  - unfold Collection.cleanup. split; simpl; lia.
Qed.

(** X12.  Whatever is called on the metrics service, the window never
    holds more samples than frames were counted as processed, and with a
    window size of at least 1 it never holds more than that size. *)
Theorem window_never_overflows (now : Z) (ops : list Call) :
  let m := service (calls (new_Collector enabled now) ops) in
  (length (frames m) <= processedFrames m)%nat /\
  ((1 <= maxFrames)%nat -> (length (frames m) <= maxFrames)%nat).
Proof.
  cbv zeta.
  assert (Hnew : window_bounded (service (new_Collector enabled now))).
  { unfold new_Collector, Collection.startCollection. simpl.
    destruct enabled; split; simpl; lia. }
  revert Hnew. generalize (new_Collector enabled now).
  induction ops as [|op ops IH]; intros c Hc; simpl; [exact Hc|].
  apply IH, call_window, Hc.
Qed.

(** X13.  While the service is not collecting, [recordFrame],
    [recordDroppedFrame] and [recordTotalFrame] change nothing, however
    many times they are called; and [stopCollection] followed by
    [startCollection] keeps the window and the three counters. *)
Theorem paused_service_records_nothing (c : Collector) (ops : list Call)
  (stopped started : Z) :
  (isCollecting (service c) = false ->
   forallb is_record ops = true -> calls c ops = c) /\
  (let c' := startCollection (Collection.stopCollection c stopped) started in
   frames (service c') = frames (service c) /\
   processedFrames (service c') = processedFrames (service c) /\
   droppedFrames (service c') = droppedFrames (service c) /\
   totalFrames (service c') = totalFrames (service c) /\
   isCollecting (service c') = true).
Proof.
  split.
  - intros C. induction ops as [|op ops IH]; intros Hops; [reflexivity|].
    simpl in Hops. apply andb_true_iff in Hops as [Hop Hops].
    assert (E : call c op = c).
    { destruct c as [m rt iv nh]. simpl in C.
      destruct op as [r now| | |now|now|now|now]; try discriminate;
        unfold Collection.call, with_service; simpl; f_equal.
      - unfold recordFrame. destruct r; [rewrite C|]; reflexivity.
      - unfold recordDroppedFrame. rewrite C. reflexivity.
      - unfold recordTotalFrame. rewrite C. reflexivity. }
    simpl. rewrite E. apply IH. exact Hops.
  - cbv zeta. unfold Collection.startCollection, Collection.stopCollection.
    destruct (isCollecting (service c)) eqn:C; simpl.
    + destruct (reportTimer c); simpl; destruct enabled; simpl; auto.
    + rewrite C. destruct enabled; simpl; auto.
Qed.

Lemma recordFrames_cons m r now results :
  recordFrames maxFrames m ((r, now) :: results)
  = recordFrames maxFrames (recordFrame maxFrames m (Some r) now) results.
Proof. reflexivity. Qed.

Lemma recordFrames_collecting m results :
  isCollecting m = true ->
  isCollecting (recordFrames maxFrames m results) = true.
Proof.
  revert m. induction results as [|[r now] results IH]; intros m C; [exact C|].
  rewrite recordFrames_cons. apply IH.
  rewrite recordFrame_collecting by exact C. exact C.
Qed.

Lemma drop_drop_app {A} (l1 l2 : list A) n :
  drop (length (drop (length l1 - n) l1 ++ l2) - n)
       (drop (length l1 - n) l1 ++ l2)
  = drop (length (l1 ++ l2) - n) (l1 ++ l2).
Proof.
  rewrite <- (drop_app_le l1 l2) by lia.
  rewrite drop_drop. f_equal.
  rewrite length_drop, !length_app. lia.
Qed.

(** X14.  With a window size of at least 1, a collecting service that
    records a run of results keeps the newest [maxFrames] samples, in
    arrival order, and counts every result as processed whether its
    sample is still in the window or not. *)
Theorem window_keeps_newest (m : MetricsService)
  (results : list (FrameResult * Z)) :
  (1 <= maxFrames)%nat ->
  isCollecting m = true ->
  (length (frames m) <= maxFrames)%nat ->
  let m' := recordFrames maxFrames m results in
  let all := frames m ++ map (fun '(r, now) => frameMetricsOf r now) results in
  frames m' = drop (length all - maxFrames) all /\
  length (frames m') = Nat.min (length all) maxFrames /\
  processedFrames m' = (processedFrames m + length results)%nat /\
  droppedFrames m' = droppedFrames m /\ totalFrames m' = totalFrames m.
Proof.
  intros Hmax. revert m.
  induction results as [|[r now] results IH]; intros m C Hlen; cbv zeta.
  - simpl. rewrite app_nil_r.
    replace (length (frames m) - maxFrames)%nat with 0%nat by lia.
    simpl. repeat split; lia.
  - rewrite recordFrames_cons. cbn [map length].
    set (m1 := recordFrame maxFrames m (Some r) now).
    assert (E1 : m1 = _) by (apply recordFrame_collecting; exact C).
    assert (Hf1 : frames m1
                  = drop (length (frames m ++ [frameMetricsOf r now]) - maxFrames)
                         (frames m ++ [frameMetricsOf r now])).
    { rewrite E1. cbn [frames]. cbv zeta.
      destruct (maxFrames <? _)%nat eqn:E.
      - unfold slice_last. destruct maxFrames; [lia | reflexivity].
      - apply Nat.ltb_ge in E.
        replace (_ - maxFrames)%nat with 0%nat by lia. reflexivity. }
    assert (Hl1 : (length (frames m1) <= maxFrames)%nat).
    { rewrite Hf1, length_drop, length_app. simpl. lia. }
    assert (C1 : isCollecting m1 = true) by (rewrite E1; exact C).
    destruct (IH m1 C1 Hl1) as (Hf & Hl & Hp & Hd & Ht).
    rewrite Hf, Hf1.
    assert (Hall : drop (length (drop (length (frames m ++ [frameMetricsOf r now])
                                       - maxFrames)
                                  (frames m ++ [frameMetricsOf r now])
                                 ++ map (fun '(r0, now0) => frameMetricsOf r0 now0)
                                        results) - maxFrames)
                        (drop (length (frames m ++ [frameMetricsOf r now])
                               - maxFrames)
                              (frames m ++ [frameMetricsOf r now])
                         ++ map (fun '(r0, now0) => frameMetricsOf r0 now0) results)
                   = drop (length (frames m ++ frameMetricsOf r now
                                     :: map (fun '(r0, now0) => frameMetricsOf r0 now0)
                                            results) - maxFrames)
                          (frames m ++ frameMetricsOf r now
                             :: map (fun '(r0, now0) => frameMetricsOf r0 now0)
                                    results)).
    { rewrite drop_drop_app, <- app_assoc. reflexivity. }
    split; [exact Hall|].
    split.
    { rewrite Hall, length_drop. lia. }
    rewrite Hp, Hd, Ht, E1. simpl. repeat split; lia.
Qed.

(** X15.  With a window size of 0 nothing is ever trimmed:
    [frames.slice(-0)] is the whole array, so the window grows with every
    recorded result. *)
Theorem zero_window_keeps_everything (m : MetricsService)
  (results : list (FrameResult * Z)) :
  maxFrames = 0%nat ->
  isCollecting m = true ->
  frames (recordFrames maxFrames m results)
  = frames m ++ map (fun '(r, now) => frameMetricsOf r now) results.
Proof.
  intros Hzero. revert m.
  induction results as [|[r now] results IH]; intros m C.
  - simpl. rewrite app_nil_r. reflexivity.
  - rewrite recordFrames_cons. cbn [map].
    rewrite IH by (rewrite recordFrame_collecting by exact C; exact C).
    rewrite recordFrame_collecting by exact C. cbn [frames]. cbv zeta.
    rewrite Hzero. unfold slice_last.
    destruct (0 <? _)%nat; rewrite <- app_assoc; reflexivity.
Qed.

End Config.

(** ** calculateLatencyStats *)

#[local] Open Scope Z_scope.

Lemma sum_between (l : list Z) lo hi :
  (forall x, In x l -> lo <= x <= hi) ->
  Z.of_nat (length l) * lo <= reduce_sum l <= Z.of_nat (length l) * hi.
Proof.
  induction l as [|x l IH]; intros H.
  - unfold reduce_sum. simpl. lia.
  - rewrite reduce_sum_cons.
    assert (Hx : lo <= x <= hi) by (apply H; left; reflexivity).
    assert (Hl : Z.of_nat (length l) * lo <= reduce_sum l
                 <= Z.of_nat (length l) * hi).
    { apply IH. intros y Hy. apply H. right. exact Hy. }
    simpl length. lia.
Qed.

(** X16.  On an empty array [calculateLatencyStats] returns zeros.  On a
    non-empty one, [min] and [max] are the least and the greatest
    sample, the median and the 95th percentile are samples of the array,
    and the average lies between [min] and [max]. *)
Theorem latency_stats_are_samples (latencies : list Z) :
  calculateLatencyStats []
  = {| median := 0; p95 := 0; min := 0; max := 0; avg := 0%Q |} /\
  (latencies <> [] ->
   let s := calculateLatencyStats latencies in
   In (min s) latencies /\ In (max s) latencies /\
   In (median s) latencies /\ In (p95 s) latencies /\
   (forall x, In x latencies -> min s <= x <= max s) /\
   (inject_Z (min s) <= avg s <= inject_Z (max s))%Q).
Proof.
  split; [reflexivity|]. intros Hne. rewrite stats_nonempty by exact Hne.
  cbv zeta. cbn [min max median p95 avg].
  set (sorted := sort_ascending latencies).
  assert (Hlen : length sorted = length latencies)
    by apply sort_ascending_length.
  assert (Hn : (1 <= length sorted)%nat).
  { rewrite Hlen. destruct latencies; [congruence | simpl; lia]. }
  destruct (stat_indices _ Hn) as (I1 & I2 & I3 & I4).
  pose proof (sort_ascending_sorted latencies) as HS. fold sorted in HS.
  assert (Hmem : forall i, (i < length sorted)%nat ->
                           In (at_index sorted i) latencies).
  { intros i Hi. apply list_elem_of_In.
    rewrite <- (sort_ascending_perm latencies). fold sorted.
    eapply list_elem_of_lookup_2. apply at_index_lookup. exact Hi. }
  assert (Hbetween : forall x, In x latencies ->
            at_index sorted 0 <= x <= at_index sorted (length sorted - 1)).
  { intros x Hx. apply list_elem_of_In in Hx.
    rewrite <- (sort_ascending_perm latencies) in Hx. fold sorted in Hx.
    apply list_elem_of_lookup in Hx as (i & Hi).
    pose proof (lookup_lt_Some _ _ _ Hi) as Hlt.
    split.
    - apply (sorted_lookup_le sorted 0 i); [exact HS | lia | | exact Hi].
      apply at_index_lookup. lia.
    - apply (sorted_lookup_le sorted i (length sorted - 1));
        [exact HS | lia | exact Hi |].
      apply at_index_lookup. lia. }
  split; [apply Hmem; lia|]. split; [apply Hmem; lia|].
  split; [apply Hmem; lia|]. split; [apply Hmem; lia|].
  split; [exact Hbetween|].
  pose proof (sum_between latencies _ _ Hbetween) as [Hlo Hhi].
  assert (Hpos : (0 < inject_Z (Z.of_nat (length latencies)))%Q).
  { rewrite <- Hlen. change 0%Q with (inject_Z 0). rewrite <- Zlt_Qlt. lia. }
  split.
  - apply Qle_shift_div_l; [exact Hpos|].
    rewrite <- inject_Z_mult, <- Zle_Qle. lia.
  - apply Qle_shift_div_r; [exact Hpos|].
    rewrite <- inject_Z_mult, <- Zle_Qle. lia.
Qed.

(** ** The properties at work *)

Import Examples Scenes.

Lemma window_keeps_newest_witness :
  length (frames (recordFrames 2 (new_MetricsService 0) three_results))
  = 2%nat /\
  processedFrames (recordFrames 2 (new_MetricsService 0) three_results)
  = 3%nat.
Proof.
  destruct (window_keeps_newest 2 (new_MetricsService 0) three_results)
    as (_ & L & P & _).
  - lia.
  - reflexivity.
  - simpl. lia.
  - split; [exact L | exact P].
Defined.

Lemma zero_window_keeps_everything_witness :
  length (frames (recordFrames 0 (new_MetricsService 0) three_results))
  = 3%nat.
Proof.
  rewrite (zero_window_keeps_everything 0 (new_MetricsService 0)
             three_results eq_refl eq_refl).
  reflexivity.
Defined.

End CollectionFacts.

Module ServiceFacts.

Import Metrics Pipeline Service PipelineFacts.

(** ** The connection registry *)

Section Values.

Variable V : Type.
Variable number : Z -> V.

#[local] Abbreviation addConnection := (Service.addConnection V number).
#[local] Abbreviation removeConnection := (Service.removeConnection V).
#[local] Abbreviation getConnection := (Service.getConnection V).
#[local] Abbreviation getConnectionStats := (Service.getConnectionStats V).
#[local] Abbreviation cleanupService := (Service.cleanupService V).

(** X17.  The connection registry: a connection that was added is found
    under its id with [connectedAt] set to the time of the call, other
    ids are not affected, and adding under an id in use replaces the
    entry without changing the count; a removed id is no longer found;
    removing an id that is not registered changes nothing; adding a new
    id and removing it gives back the registry; none of this touches the
    frame queue or the flag; and after [cleanup] no id is found and the
    statistics are back at zero. *)
Theorem connection_registry (s : FullService V) (id other : string)
  (connection : ConnectionObject V) (now : Z) :
  let added := addConnection s id connection now in
  getConnection added id = Some (<["connectedAt" := number now]> connection) /\
  (other <> id -> getConnection added other = getConnection s other) /\
  activeConnections (getConnectionStats added)
  = match getConnection s id with
    | Some _ => activeConnections (getConnectionStats s)
    | None => S (activeConnections (getConnectionStats s))
    end /\
  getConnection (removeConnection added id) id = None /\
  (getConnection s id = None ->
   removeConnection s id = s /\
   connections V (removeConnection added id) = connections V s) /\
  core V added = core V s /\
  core V (removeConnection s id) = core V s /\
  getConnection (cleanupService added) id = None /\
  getConnectionStats (cleanupService added)
  = {| activeConnections := 0; queueLength := 0;
       stat_isProcessing := false |}.
Proof.
  cbv zeta. unfold Service.getConnection, Service.getConnectionStats,
    Service.addConnection. simpl.
  split; [apply lookup_insert_eq|].
  split; [intros Hne; apply lookup_insert_ne; congruence|].
  split.
  { destruct (connections V s !! id) as [g|] eqn:E.
    - rewrite <- (insert_delete_id (connections V s) id g E) at 2.
      rewrite <- insert_delete_eq.
      rewrite !map_size_insert_None by apply lookup_delete_eq. reflexivity.
    - apply map_size_insert_None. exact E. }
  split.
  { unfold Service.removeConnection. simpl. rewrite lookup_insert_eq. simpl.
    apply lookup_delete_eq. }
  split.
  { intros E. unfold Service.removeConnection. simpl.
    rewrite E, lookup_insert_eq. simpl. split; [reflexivity|].
    rewrite delete_insert_eq. apply delete_id. exact E. }
  split; [reflexivity|].
  split.
  { unfold Service.removeConnection.
    destruct (connections V s !! id); reflexivity. }
  split; [apply lookup_empty | reflexivity].
Qed.

End Values.

Section Config.

Variable maxQueueSize : Z.
Variable maxFrames : nat.

#[local] Abbreviation enqueue := (Pipeline.enqueue maxQueueSize).
#[local] Abbreviation step := (Pipeline.step maxQueueSize maxFrames).
#[local] Abbreviation run := (Pipeline.run maxQueueSize maxFrames).

(** ** The bound of the queue *)

Lemma enqueue_bounded queue frame queue' :
  (0 < maxQueueSize)%Z ->
  (Z.of_nat (length queue) <= maxQueueSize)%Z ->
  enqueue queue frame = Some queue' ->
  (Z.of_nat (length queue') <= maxQueueSize)%Z.
Proof.
  intros Hpos Hlen. unfold Pipeline.enqueue.
  destruct (maxQueueSize <=? Z.of_nat (length queue))%Z eqn:E.
  - destruct queue as [|d rest]; [discriminate|].
    intros H. injection H as <-. rewrite length_app. simpl in *. lia.
  - apply Z.leb_gt in E. intros H. injection H as <-.
    rewrite length_app. simpl. lia.
Qed.

Lemma step_queue_bounded sv e :
  (0 < maxQueueSize)%Z ->
  (Z.of_nat (length (frameQueue (webrtcService sv))) <= maxQueueSize)%Z ->
  (Z.of_nat (length (frameQueue (webrtcService (step sv e)))) <= maxQueueSize)%Z.
Proof.
  intros Hpos Hlen. destruct e as [frame| |k outcome its dts]; simpl.
  - unfold Pipeline.handlePhoneFrame.
    destruct (enqueue (frameQueue (webrtcService sv)) frame) as [q|] eqn:E;
      simpl; [|exact Hlen].
    pose proof (enqueue_bounded _ _ _ Hpos Hlen E) as Hq.
    destruct (isProcessing (webrtcService sv)); simpl; [exact Hq|].
    destruct (processNextFrame_begin_cases
                {| frameQueue := q; isProcessing := false |})
      as [[_ ->] | (f & _ & ->)]; simpl; [exact Hq | lia].
  - destruct (_ && _); [|exact Hlen].
    destruct (processNextFrame_begin_cases (webrtcService sv))
      as [[_ ->] | (f & _ & ->)]; simpl; [exact Hlen | lia].
  - destruct (inFlight sv !! k) as [p|]; [|exact Hlen].
    destruct outcome, (p_origin p); simpl; exact Hlen.
Qed.

(** X18.  With a positive [maxQueueSize] the frame queue never holds
    more than [maxQueueSize] frames, in any state the server reaches;
    [getConnectionStats] never reports a longer queue. *)
Theorem queue_never_exceeds_capacity (now : Z) (events : list Event) :
  (0 < maxQueueSize)%Z ->
  (Z.of_nat (length (frameQueue (webrtcService (run (new_Server now) events))))
   <= maxQueueSize)%Z.
Proof.
  intros Hpos.
  assert (Hnew : (Z.of_nat (length (frameQueue (webrtcService (new_Server now))))
                  <= maxQueueSize)%Z) by (simpl; lia).
  revert Hnew. generalize (new_Server now).
  induction events as [|e events IH]; intros sv Hsv; simpl; [exact Hsv|].
  apply IH, step_queue_bounded; assumption.
Qed.

(** X19.  With a [maxQueueSize] of zero or less, [handlePhoneFrame]
    throws on the empty queue before it stores the frame: no frame is
    ever queued, no detector call is ever started and nothing is ever
    broadcast.  The configuration replaces a missing or zero setting by
    5, so only a negative setting gets there. *)
Theorem nonpositive_capacity_stalls (now : Z) (events : list Event) :
  (maxQueueSize <= 0)%Z ->
  run (new_Server now) events = new_Server now /\
  (forall frame,
      Pipeline.handlePhoneFrame maxQueueSize new_WebRTCService frame
      = (new_WebRTCService, Threw)) /\
  (forall env, INFERENCE_maxQueueSize env <> 0%Z) /\
  INFERENCE_maxQueueSize None = 5%Z.
Proof.
  intros Hle.
  assert (Hthrow : forall frame,
             Pipeline.handlePhoneFrame maxQueueSize new_WebRTCService frame
             = (new_WebRTCService, Threw)).
  { intros frame. unfold Pipeline.handlePhoneFrame, Pipeline.enqueue.
    change (Z.of_nat (length (frameQueue new_WebRTCService))) with 0%Z.
    assert (E : (maxQueueSize <=? 0)%Z = true) by (apply Z.leb_le; exact Hle).
    rewrite E. reflexivity. }
  split; [|split; [exact Hthrow|split; [|reflexivity]]].
  - induction events as [|e events IH]; [reflexivity|].
    simpl. replace (step (new_Server now) e) with (new_Server now); [exact IH|].
    destruct e as [frame| |k outcome its dts]; simpl.
    + change (webrtcService (new_Server now)) with new_WebRTCService.
      rewrite Hthrow. reflexivity.
    + reflexivity.
    + reflexivity.
  - intros [n|]; simpl; [|discriminate].
    destruct (n =? 0)%Z eqn:E; [discriminate|]. apply Z.eqb_neq. exact E.
Qed.

(** ** What reaches the viewers *)

Lemma step_outputs_accounted n sv e :
  (0 < maxQueueSize)%Z ->
  flag_counts_calls sv ->
  outputs_accounted n sv ->
  outputs_accounted (if is_arrival e then S n else n) (step sv e).
Proof.
  intros Hpos Inv (Hb & Hc & Hp).
  destruct e as [frame| |k outcome its dts]; simpl.
  - destruct (isProcessing (webrtcService sv)) eqn:B.
    + destruct (handlePhoneFrame_busy maxQueueSize (webrtcService sv) frame
                  Hpos B) as (q & -> & _).
      unfold outputs_accounted, deliver. simpl.
      rewrite ?List.filter_app, ?length_app. simpl.
      split; [lia|]. split; [exact Hc | lia].
    + rewrite (handlePhoneFrame_idle maxQueueSize (webrtcService sv) frame
                 Hpos B).
      unfold outputs_accounted, quiet. simpl.
      rewrite ?List.filter_app, ?length_app. simpl.
      split; [lia|]. split; [exact Hc | exact Hp].
  - destruct (_ && _); [|split; [exact Hb | split; [exact Hc | exact Hp]]].
    destruct (processNextFrame_begin_cases (webrtcService sv))
      as [[_ ->] | (f & _ & ->)]; unfold outputs_accounted, quiet; simpl.
    + auto.
    + rewrite ?List.filter_app, ?length_app. simpl.
      split; [lia|]. split; [exact Hc | exact Hp].
  - destruct (inFlight sv !! k) as [p|] eqn:K;
      [|split; [exact Hb | split; [exact Hc | exact Hp]]].
    pose proof (settled_call_was_the_only_one sv k p Inv K) as Hdel.
    assert (Hone : inFlight sv = [p]).
    { unfold flag_counts_calls in Inv.
      destruct (isProcessing (webrtcService sv)).
      - destruct (inFlight sv) as [|p0 [|p1 rest]]; try discriminate.
        destruct k; [|discriminate]. simpl in K. congruence.
      - rewrite Inv in K. discriminate. }
    rewrite Hone in Hb. simpl in Hb. unfold from_handler in Hb.
    destruct outcome as [dets|], (p_origin p) eqn:O;
      unfold outputs_accounted, deliver, quiet; simpl; rewrite Hdel; simpl;
      simpl in Hb; unfold recordFrame; rewrite ?Hc; simpl;
      rewrite ?List.filter_app, ?length_app; simpl;
      (split; [lia|]; split; [assumption || reflexivity | lia]).
Qed.

Lemma run_outputs_accounted n sv events :
  (0 < maxQueueSize)%Z ->
  flag_counts_calls sv ->
  outputs_accounted n sv ->
  outputs_accounted (n + length (List.filter is_arrival events))
                    (run sv events).
Proof.
  intros Hpos. revert n sv.
  induction events as [|e events IH]; intros n sv Inv Ho; simpl.
  - rewrite Nat.add_0_r. exact Ho.
  - pose proof (step_outputs_accounted n sv e Hpos Inv Ho) as Ho'.
    pose proof (step_flag_counts_calls maxQueueSize maxFrames sv e Inv) as Inv'.
    specialize (IH _ _ Inv' Ho').
    destruct (is_arrival e); simpl;
      [rewrite <- Nat.add_succ_comm|]; exact IH.
Qed.

(** X20.  With a positive [maxQueueSize], every frame that arrives is
    answered exactly once: at any moment the payloads broadcast so far
    ([null] or a record) and the handlers still waiting for the detector
    add up to the number of arrivals.  The processed counter of the
    metrics service is the number of records broadcast; what the timer
    processes is neither broadcast nor counted. *)
Theorem every_arrival_answered_once (now : Z) (events : list Event) :
  (0 < maxQueueSize)%Z ->
  let sv := run (new_Server now) events in
  (length (broadcast sv) + length (List.filter from_handler (inFlight sv))
   = length (List.filter is_arrival events))%nat /\
  processedFrames (metricsService sv)
  = length (List.filter carries_record (broadcast sv)) /\
  (forall k p outcome inferenceTs displayTs,
      inFlight sv !! k = Some p -> p_origin p = FromTimer ->
      let sv' := step sv (DetectorSettles k outcome inferenceTs displayTs) in
      broadcast sv' = broadcast sv /\ metricsService sv' = metricsService sv).
Proof.
  intros Hpos. cbv zeta.
  destruct (run_outputs_accounted 0 (new_Server now) events Hpos
              (new_Server_flag_counts_calls now))
    as (Hb & _ & Hp).
  { split; [reflexivity|]. split; reflexivity. }
  split; [exact Hb|]. split; [exact Hp|].
  intros k p outcome its dts K O. simpl. rewrite K.
  destruct outcome; simpl; rewrite O; split; reflexivity.
Qed.

(** X21.  [cleanup] clears the flag without waiting for the detector.
    If a call is in flight, the next frame that arrives starts a second
    call beside it, and when one of the two settles the flag is clear
    while the other is still pending. *)
Theorem cleanup_forgets_the_call_in_flight (sv : Server) (frame : Frame)
  (outcome : DetectorOutcome) (inferenceTs displayTs : Z) :
  (0 < maxQueueSize)%Z ->
  flag_counts_calls sv ->
  isProcessing (webrtcService sv) = true ->
  let sv1 := step (cleanupServer sv) (PhoneStream frame) in
  let sv2 := step sv1 (DetectorSettles 0 outcome inferenceTs displayTs) in
  length (inFlight sv1) = 2%nat /\
  (exists p, inFlight sv1 = [p; {| p_frame := frame; p_origin := FromHandler |}]) /\
  isProcessing (webrtcService sv2) = false /\
  inFlight sv2 = [{| p_frame := frame; p_origin := FromHandler |}] /\
  ~ flag_counts_calls sv1 /\ ~ flag_counts_calls sv2.
Proof.
  intros Hpos Inv B. cbv zeta.
  unfold flag_counts_calls in Inv. rewrite B in Inv.
  destruct (inFlight sv) as [|p [|p' rest]] eqn:F; try discriminate.
  assert (E1 : step (cleanupServer sv) (PhoneStream frame)
               = {| webrtcService := {| frameQueue := []; isProcessing := true |};
                    inFlight := [p; {| p_frame := frame; p_origin := FromHandler |}];
                    metricsService := metricsService sv;
                    broadcast := broadcast sv |}).
  { simpl.
    rewrite (handlePhoneFrame_idle maxQueueSize
               {| frameQueue := []; isProcessing := false |} frame Hpos eq_refl).
    unfold quiet. simpl. rewrite F. reflexivity. }
  rewrite E1. simpl.
  split; [reflexivity|]. split; [eauto|].
  destruct outcome, (p_origin p); simpl;
    (split; [reflexivity|]; split; [reflexivity|];
     split; unfold flag_counts_calls; simpl; discriminate).
Qed.

End Config.

(** ** The properties at work *)

Import Examples Scenes.

Lemma queue_never_exceeds_capacity_witness :
  (Z.of_nat
     (length
        (frameQueue
           (webrtcService
              (run default_maxQueueSize default_maxFrames (new_Server 0)
                 (arrivals [0; 1; 2; 3; 4; 5; 6; 7]%Z)))))
   <= default_maxQueueSize)%Z.
Proof.
  apply (queue_never_exceeds_capacity default_maxQueueSize default_maxFrames).
  reflexivity.
Defined.

Lemma nonpositive_capacity_stalls_witness :
  run (-1) default_maxFrames (new_Server 0) (arrivals [0; 1; 2]%Z)
  = new_Server 0.
Proof.
  apply (nonpositive_capacity_stalls (-1) default_maxFrames 0
           (arrivals [0; 1; 2]%Z)).
  discriminate.
Defined.

Lemma every_arrival_answered_once_witness :
  let sv := run default_maxQueueSize default_maxFrames (new_Server 0)
              (arrivals [0; 1; 2]%Z ++ [DetectorSettles 0 (Resolved []) 70 71])
  in
  (length (broadcast sv) + length (List.filter from_handler (inFlight sv))
   = 3)%nat /\
  processedFrames (metricsService sv)
  = length (List.filter carries_record (broadcast sv)).
Proof.
  destruct (every_arrival_answered_once default_maxQueueSize default_maxFrames
              0 (arrivals [0; 1; 2]%Z ++ [DetectorSettles 0 (Resolved []) 70 71]))
    as (H1 & H2 & _).
  - reflexivity.
  - split; [exact H1 | exact H2].
Defined.

Lemma cleanup_forgets_the_call_in_flight_witness :
  length (inFlight (step default_maxQueueSize default_maxFrames
                      (cleanupServer busy_server) (PhoneStream (frame_n 1))))
  = 2%nat.
Proof.
  destruct (cleanup_forgets_the_call_in_flight default_maxQueueSize
              default_maxFrames busy_server (frame_n 1) Rejected 70 71)
    as (H & _).
  - reflexivity.
  - vm_compute. reflexivity.
  - reflexivity.
  - exact H.
Defined.

End ServiceFacts.

Module InferenceFacts.

Import Inference.

(** ** Mock detections *)

Lemma floor_of_unit_draw r (n : Z) :
  (0 < n)%Z -> 0 <= r -> r < 1 ->
  (0 <= Qfloor (r * inject_Z n) < n)%Z.
Proof.
  intros Hn H0 H1.
  assert (Hn' : 0 < inject_Z n) by (change 0 with (inject_Z 0); rewrite <- Zlt_Qlt; exact Hn).
  split.
  - change 0%Z with (Qfloor 0). apply Qfloor_resp_le.
    apply Qmult_le_0_compat; lra.
  - rewrite Zlt_Qlt.
    apply Qle_lt_trans with (r * inject_Z n); [apply Qfloor_le|].
    apply Qlt_le_trans with (1 * inject_Z n);
      [apply Qmult_lt_compat_r; assumption | lra].
Qed.



(** ** iou *)

Lemma Qltb_compat x x' y y' : x == x' -> y == y' -> Qltb x y = Qltb x' y'.
Proof.
  intros Hx Hy. destruct (Qltb x' y') eqn:E.
  - apply Qltb_lt. apply Qltb_lt in E. rewrite Hx, Hy. exact E.
  - apply Qltb_ge. apply Qltb_ge in E. rewrite Hx, Hy. exact E.
Qed.

Lemma Qmax_0_cases x : (x <= 0 /\ Qmax 0 x == 0) \/ (0 < x /\ Qmax 0 x == x).
Proof.
  destruct (Qlt_le_dec 0 x) as [H|H].
  - right. split; [exact H|]. apply Q.max_r. lra.
  - left. split; [exact H|]. apply Q.max_l. exact H.
Qed.

Lemma iou_sym a b : iou a b == iou b a.
Proof.
  unfold iou.
  assert (Hi : Qmax 0 (Qmin (x1 a) (x1 b) - Qmax (x0 a) (x0 b))
               * Qmax 0 (Qmin (y1 a) (y1 b) - Qmax (y0 a) (y0 b))
               == Qmax 0 (Qmin (x1 b) (x1 a) - Qmax (x0 b) (x0 a))
                  * Qmax 0 (Qmin (y1 b) (y1 a) - Qmax (y0 b) (y0 a))).
  { rewrite (Q.min_comm (x1 a)), (Q.max_comm (x0 a)),
      (Q.min_comm (y1 a)), (Q.max_comm (y0 a)). reflexivity. }
  cbv zeta.
  set (iab := Qmax 0 (Qmin (x1 a) (x1 b) - Qmax (x0 a) (x0 b))
              * Qmax 0 (Qmin (y1 a) (y1 b) - Qmax (y0 a) (y0 b))) in *.
  set (iba := Qmax 0 (Qmin (x1 b) (x1 a) - Qmax (x0 b) (x0 a))
              * Qmax 0 (Qmin (y1 b) (y1 a) - Qmax (y0 b) (y0 a))) in *.
  set (A := (x1 a - x0 a) * (y1 a - y0 a)).
  set (B := (x1 b - x0 b) * (y1 b - y0 b)).
  assert (Hu : A + B - iab == B + A - iba) by (rewrite Hi; ring).
  rewrite (Qleb_compat _ _ 0 0 Hu (Qeq_refl 0)).
  destruct (Qleb (B + A - iba) 0); [reflexivity|].
  rewrite Hu, Hi. reflexivity.
Qed.

(** The intersection term of [iou] on two well-formed boxes. *)
Lemma iou_inter_bounds a b :
  well_formed a -> well_formed b ->
  let inter := Qmax 0 (Qmin (x1 a) (x1 b) - Qmax (x0 a) (x0 b))
               * Qmax 0 (Qmin (y1 a) (y1 b) - Qmax (y0 a) (y0 b)) in
  0 <= inter /\
  inter <= (x1 a - x0 a) * (y1 a - y0 a) /\
  inter <= (x1 b - x0 b) * (y1 b - y0 b).
Proof.
  intros [Wa Ha] [Wb Hb]. cbv zeta.
  pose proof (Q.le_max_l (x0 a) (x0 b)) as A1.
  pose proof (Q.le_max_r (x0 a) (x0 b)) as A2.
  pose proof (Q.le_min_l (x1 a) (x1 b)) as A3.
  pose proof (Q.le_min_r (x1 a) (x1 b)) as A4.
  pose proof (Q.le_max_l (y0 a) (y0 b)) as B1.
  pose proof (Q.le_max_r (y0 a) (y0 b)) as B2.
  pose proof (Q.le_min_l (y1 a) (y1 b)) as B3.
  pose proof (Q.le_min_r (y1 a) (y1 b)) as B4.
  set (dx := Qmin (x1 a) (x1 b) - Qmax (x0 a) (x0 b)) in *.
  set (dy := Qmin (y1 a) (y1 b) - Qmax (y0 a) (y0 b)) in *.
  assert (W0 : 0 <= Qmax 0 dx) by apply Q.le_max_l.
  assert (H0 : 0 <= Qmax 0 dy) by apply Q.le_max_l.
  assert (Wla : Qmax 0 dx <= x1 a - x0 a).
  { destruct (Qmax_0_cases dx) as [[_ ->] | [_ ->]]; unfold dx; lra. }
  assert (Wlb : Qmax 0 dx <= x1 b - x0 b).
  { destruct (Qmax_0_cases dx) as [[_ ->] | [_ ->]]; unfold dx; lra. }
  assert (Hla : Qmax 0 dy <= y1 a - y0 a).
  { destruct (Qmax_0_cases dy) as [[_ ->] | [_ ->]]; unfold dy; lra. }
  assert (Hlb : Qmax 0 dy <= y1 b - y0 b).
  { destruct (Qmax_0_cases dy) as [[_ ->] | [_ ->]]; unfold dy; lra. }
  split; [apply Qmult_le_0_compat; assumption|].
  split.
  - apply Qle_trans with ((x1 a - x0 a) * Qmax 0 dy).
    + apply Qmult_le_compat_r; assumption.
    + rewrite (Qmult_comm _ (Qmax 0 dy)), (Qmult_comm _ (y1 a - y0 a)).
      apply Qmult_le_compat_r; lra.
  - apply Qle_trans with ((x1 b - x0 b) * Qmax 0 dy).
    + apply Qmult_le_compat_r; assumption.
    + rewrite (Qmult_comm _ (Qmax 0 dy)), (Qmult_comm _ (y1 b - y0 b)).
      apply Qmult_le_compat_r; lra.
Qed.

(** X23.  [iou] is symmetric; on two boxes whose corners are in order it
    lies between 0 and 1; and on two boxes of positive area it is the
    value the tracker's [calculateIoU] gives for the same boxes. *)
Theorem iou_is_a_ratio_and_agrees_with_tracker (a b : Candidate) :
  iou a b == iou b a /\
  (well_formed a -> well_formed b -> 0 <= iou a b <= 1) /\
  (Tracker.valid_box (boxOf a) -> Tracker.valid_box (boxOf b) ->
   iou a b == Tracker.calculateIoU (boxOf a) (boxOf b)).
Proof.
  split; [apply iou_sym|]. split.
  - intros Wa Wb.
    destruct (iou_inter_bounds a b Wa Wb) as (I0 & Ia & Ib).
    unfold iou. cbv zeta in *.
    set (inter := Qmax 0 (Qmin (x1 a) (x1 b) - Qmax (x0 a) (x0 b))
                  * Qmax 0 (Qmin (y1 a) (y1 b) - Qmax (y0 a) (y0 b))) in *.
    set (A := (x1 a - x0 a) * (y1 a - y0 a)) in *.
    set (B := (x1 b - x0 b) * (y1 b - y0 b)) in *.
    destruct (Qleb (A + B - inter) 0) eqn:E; [lra|].
    apply Qleb_gt in E. split.
    + apply Qle_shift_div_l; [exact E | lra].
    + apply Qle_shift_div_r; [exact E | lra].
  - intros [Va1 Va2] [Vb1 Vb2]. simpl in Va1, Va2, Vb1, Vb2.
    unfold iou, Tracker.calculateIoU. cbn [boxOf Tracker.xmin Tracker.ymin
      Tracker.xmax Tracker.ymax]. cbv zeta.
    set (dx := Qmin (x1 a) (x1 b) - Qmax (x0 a) (x0 b)).
    set (dy := Qmin (y1 a) (y1 b) - Qmax (y0 a) (y0 b)).
    set (A := (x1 a - x0 a) * (y1 a - y0 a)).
    set (B := (x1 b - x0 b) * (y1 b - y0 b)).
    assert (PA : 0 < A) by (apply Qmult_lt_0_compat; lra).
    assert (PB : 0 < B) by (apply Qmult_lt_0_compat; lra).
    destruct (Qleb (Qmin (x1 a) (x1 b)) (Qmax (x0 a) (x0 b))
              || Qleb (Qmin (y1 a) (y1 b)) (Qmax (y0 a) (y0 b))) eqn:T.
    + assert (Z0 : Qmax 0 dx * Qmax 0 dy == 0).
      { apply orb_true_iff in T as [T|T]; apply Qleb_le in T.
        - destruct (Qmax_0_cases dx) as [[_ ->] | [P _]];
            [ring | unfold dx in P; lra].
        - destruct (Qmax_0_cases dy) as [[_ ->] | [P _]];
            [ring | unfold dy in P; lra]. }
      assert (E : Qleb (A + B - Qmax 0 dx * Qmax 0 dy) 0 = false).
      { apply Qleb_gt. rewrite Z0. lra. }
      rewrite E, Z0. unfold Qdiv. ring.
    + pose proof (TrackerFacts.iou_divisor_positive (boxOf a) (boxOf b) T) as U.
      cbn [boxOf Tracker.xmin Tracker.ymin Tracker.xmax Tracker.ymax] in U.
      fold dx dy A B in U.
      apply orb_false_iff in T as [Tx Ty].
      apply Qleb_gt in Tx. apply Qleb_gt in Ty.
      assert (Ex : Qmax 0 dx == dx).
      { destruct (Qmax_0_cases dx) as [[P _] | [_ ->]];
          [unfold dx in P; lra | reflexivity]. }
      assert (Ey : Qmax 0 dy == dy).
      { destruct (Qmax_0_cases dy) as [[P _] | [_ ->]];
          [unfold dy in P; lra | reflexivity]. }
      assert (Eu : A + B - Qmax 0 dx * Qmax 0 dy == A + B - dx * dy)
        by (rewrite Ex, Ey; reflexivity).
      assert (E : Qleb (A + B - Qmax 0 dx * Qmax 0 dy) 0 = false).
      { apply Qleb_gt. rewrite Eu. exact U. }
      rewrite E, Ex, Ey. reflexivity.
Qed.

(** ** Grouping by class *)

Lemma byClass_push_keys byClass det :
  forall key, In key (map fst (byClass_push byClass det)) <->
              In key (map fst byClass) \/ key = classId det.
Proof.
  induction byClass as [|[k members] rest IH]; intros key; simpl.
  - intuition congruence.
  - destruct (k =? classId det)%Z eqn:E; simpl.
    + apply Z.eqb_eq in E. subst k. intuition congruence.
    + rewrite IH. tauto.
Qed.

Lemma byClass_push_grouped byClass det :
  grouped byClass -> grouped (byClass_push byClass det).
Proof.
  unfold grouped.
  induction byClass as [|[k members] rest IH]; simpl.
  - intros _. split.
    + constructor; [apply not_elem_of_nil | constructor].
    + constructor; [|constructor]. simpl. constructor; [reflexivity|constructor].
  - intros [ND F]. apply NoDup_cons in ND as [Hk ND].
    apply Forall_cons in F as [Fk F]. simpl in Fk.
    destruct (k =? classId det)%Z eqn:E; simpl.
    + apply Z.eqb_eq in E. split.
      * apply NoDup_cons. split; assumption.
      * constructor; [|exact F]. simpl.
        apply Forall_app. split; [exact Fk|].
        constructor; [symmetry; exact E | constructor].
    + apply Z.eqb_neq in E. destruct (IH (conj ND F)) as [ND' F'].
      split.
      * apply NoDup_cons. split; [|exact ND'].
        rewrite list_elem_of_In, byClass_push_keys.
        rewrite list_elem_of_In in Hk. intros [H|H]; [tauto | congruence].
      * constructor; [exact Fk | exact F'].
Qed.

Lemma byClass_push_members byClass det :
  concat (map snd (byClass_push byClass det))
  ≡ₚ concat (map snd byClass) ++ [det].
Proof.
  induction byClass as [|[k members] rest IH]; simpl.
  - reflexivity.
  - destruct (k =? classId det)%Z; simpl.
    + rewrite <- !app_assoc. apply Permutation_app_head.
      apply Permutation_app_comm.
    + rewrite IH, app_assoc. reflexivity.
Qed.

Lemma groupByClass_spec candidates :
  grouped (groupByClass candidates) /\
  concat (map snd (groupByClass candidates)) ≡ₚ candidates.
Proof.
  unfold groupByClass.
  assert (G : forall byClass,
             grouped byClass ->
             grouped (fold_left byClass_push candidates byClass) /\
             concat (map snd (fold_left byClass_push candidates byClass))
             ≡ₚ concat (map snd byClass) ++ candidates).
  { induction candidates as [|det candidates IH]; intros byClass Hg; simpl.
    - rewrite app_nil_r. split; [exact Hg | reflexivity].
    - destruct (IH _ (byClass_push_grouped byClass det Hg)) as [Hg' Hp].
      split; [exact Hg'|].
      rewrite Hp, byClass_push_members, <- app_assoc. reflexivity. }
  destruct (G [] (conj (NoDup_nil_2) (Forall_nil_2 _))) as [Hg Hp].
  split; [exact Hg | exact Hp].
Qed.

(** ** Sorting by score *)

Lemma insertByScore_perm det sorted :
  insertByScore det sorted ≡ₚ det :: sorted.
Proof.
  induction sorted as [|other rest IH]; simpl; [reflexivity|].
  destruct (Qleb (c_score other) (c_score det)); [reflexivity|].
  rewrite IH. apply perm_swap.
Qed.

Lemma insertByScore_sorted det sorted :
  StronglySorted higherFirst sorted ->
  StronglySorted higherFirst (insertByScore det sorted).
Proof.
  induction sorted as [|other rest IH]; simpl; intros Hs.
  - constructor; [constructor | constructor].
  - apply StronglySorted_cons in Hs as [Hall Hs].
    destruct (Qleb (c_score other) (c_score det)) eqn:E.
    + apply Qleb_le in E. apply StronglySorted_cons. split.
      * constructor; [exact E|].
        eapply Forall_impl; [exact Hall|].
        intros c Hc. unfold higherFirst in *. lra.
      * apply StronglySorted_cons. split; assumption.
    + apply Qleb_gt in E. apply StronglySorted_cons. split; [|apply IH, Hs].
      rewrite (insertByScore_perm det rest).
      constructor; [unfold higherFirst; lra | exact Hall].
Qed.

Lemma sortByScore_perm members : sortByScore members ≡ₚ members.
Proof.
  induction members as [|det members IH]; simpl; [reflexivity|].
  rewrite insertByScore_perm, IH. reflexivity.
Qed.

Lemma sortByScore_sorted members :
  StronglySorted higherFirst (sortByScore members).
Proof.
  induction members as [|det members IH]; simpl; [constructor|].
  apply insertByScore_sorted, IH.
Qed.

(** ** The suppression loop *)

Lemma overlapsKept_true t keep det :
  overlapsKept t keep det = true ->
  exists kept, In kept keep /\ t < iou det kept.
Proof.
  unfold overlapsKept. intros H. apply existsb_exists in H as (kept & Hin & H).
  apply Qltb_lt in H. eauto.
Qed.

Lemma overlapsKept_false t keep det :
  overlapsKept t keep det = false ->
  forall kept, In kept keep -> iou det kept <= t.
Proof.
  unfold overlapsKept. intros H kept Hin.
  apply Qltb_ge. apply not_true_iff_false in H.
  apply not_true_iff_false. intros C. apply H, existsb_exists. eauto.
Qed.

Lemma keepFrom_spec t sorted :
  forall keep,
    StronglySorted higherFirst sorted ->
    StronglySorted (apart t) keep ->
    (forall kept det, In kept keep -> In det sorted ->
                      c_score det <= c_score kept) ->
    exists added,
      keepFrom t keep sorted = keep ++ added /\
      added `sublist_of` sorted /\
      StronglySorted (apart t) (keep ++ added) /\
      forall det, In det sorted ->
        In det added \/
        exists kept, In kept (keep ++ added) /\
                     c_score det <= c_score kept /\ t < iou det kept.
Proof.
  induction sorted as [|det sorted IH]; intros keep Hs Hk Hc; simpl.
  - exists []. rewrite app_nil_r. split; [reflexivity|].
    split; [constructor|]. split; [exact Hk|]. intros det [].
  - apply StronglySorted_cons in Hs as [Hall Hs].
    destruct (overlapsKept t keep det) eqn:O.
    + destruct (IH keep Hs Hk) as (added & E & Sub & Sorted & Cov).
      { intros kept d Hin Hd. apply Hc; [exact Hin | right; exact Hd]. }
      exists added. split; [exact E|].
      split; [apply sublist_cons, Sub|]. split; [exact Sorted|].
      intros d [<-|Hd]; [|apply Cov, Hd].
      right. apply overlapsKept_true in O as (kept & Hin & Ho).
      exists kept. split; [apply in_or_app; left; exact Hin|].
      split; [apply Hc; [exact Hin | left; reflexivity] | exact Ho].
    + destruct (IH (keep ++ [det]) Hs) as (added & E & Sub & Sorted & Cov).
      { apply StronglySorted_app. split; [|split; [exact Hk|]].
        - intros kept d Hin Hd. apply list_elem_of_In in Hin.
          apply list_elem_of_In in Hd. destruct Hd as [<-|[]].
          split; [apply Hc; [exact Hin | left; reflexivity]|].
          apply (overlapsKept_false t keep det O), Hin.
        - constructor; [constructor | constructor]. }
      { intros kept d Hin Hd. apply in_app_or in Hin as [Hin|[<-|[]]].
        - apply Hc; [exact Hin | right; exact Hd].
        - rewrite Forall_forall in Hall. apply Hall, list_elem_of_In, Hd. }
      exists (det :: added). rewrite <- app_assoc in E, Sorted. simpl in E, Sorted.
      split; [exact E|]. split; [apply sublist_skip, Sub|].
      split; [exact Sorted|].
      intros d [<-|Hd]; [left; left; reflexivity|].
      destruct (Cov d Hd) as [Hin | (kept & Hin & Hsc & Ho)].
      * left. right. exact Hin.
      * right. exists kept. rewrite <- app_assoc in Hin. simpl in Hin. auto.
Qed.

Lemma keptOfClass_spec t members :
  keptOfClass t members ⊆+ members /\
  StronglySorted (apart t) (keptOfClass t members) /\
  forall det, In det members ->
    In det (keptOfClass t members) \/
    exists kept, In kept (keptOfClass t members) /\
                 c_score det <= c_score kept /\ t < iou det kept.
Proof.
  unfold keptOfClass.
  destruct (keepFrom_spec t (sortByScore members) []
              (sortByScore_sorted members)
              (SSorted_nil _))
    as (added & E & Sub & Sorted & Cov).
  { intros kept det []. }
  simpl in E, Sorted, Cov. rewrite E.
  split; [|split; [exact Sorted|]].
  - rewrite <- (sortByScore_perm members). apply sublist_submseteq, Sub.
  - intros det Hin. apply Cov.
    apply list_elem_of_In. rewrite sortByScore_perm. apply list_elem_of_In, Hin.
Qed.

(** ** The whole of the suppression *)

Lemma strongly_sorted_lookup {A} (R : A -> A -> Prop) l i j a b :
  StronglySorted R l -> (i < j)%nat ->
  l !! i = Some a -> l !! j = Some b -> R a b.
Proof.
  intros Hs. revert i j. induction Hs as [|x l Hs IH Hall]; intros i j Hij Hi Hj.
  - discriminate.
  - destruct j as [|j]; [lia|]. destruct i as [|i]; simpl in *.
    + injection Hi as <-. rewrite Forall_forall in Hall.
      apply Hall. eapply list_elem_of_lookup_2. exact Hj.
    + apply (IH i j); [lia | assumption | assumption].
Qed.

Lemma final_class t byClass det :
  Forall (fun g => Forall (fun c => classId c = fst g) (snd g)) byClass ->
  In det (flat_map (fun '(_, members) => keptOfClass t members) byClass) ->
  In (classId det) (map fst byClass).
Proof.
  intros F Hin. apply in_flat_map in Hin as ([k members] & Hg & Hin).
  rewrite Forall_forall in F. specialize (F _ (proj2 (list_elem_of_In _ _) Hg)).
  simpl in F. rewrite Forall_forall in F.
  destruct (keptOfClass_spec t members) as (Sub & _ & _).
  assert (Hm : det ∈ members).
  { eapply elem_of_submseteq; [apply list_elem_of_In; exact Hin | exact Sub]. }
  rewrite (F _ Hm). apply in_map_iff. exists (k, members). auto.
Qed.

Lemma final_apart t byClass :
  grouped byClass ->
  forall i j a b,
    (i < j)%nat ->
    flat_map (fun '(_, members) => keptOfClass t members) byClass !! i = Some a ->
    flat_map (fun '(_, members) => keptOfClass t members) byClass !! j = Some b ->
    classId a = classId b ->
    apart t a b.
Proof.
  induction byClass as [|[k members] rest IH]; intros [ND F] i j a b Hij Hi Hj Hc.
  - discriminate.
  - simpl in ND, Hi, Hj. apply NoDup_cons in ND as [Hk ND].
    apply Forall_cons in F as [Fk F]. simpl in Fk.
    destruct (keptOfClass_spec t members) as (Sub & Sorted & _).
    apply lookup_app_Some in Hi as [Hi | [Li Hi]];
      apply lookup_app_Some in Hj as [Hj | [Lj Hj]].
    + exact (strongly_sorted_lookup _ _ i j a b Sorted Hij Hi Hj).
    + exfalso. apply Hk. apply list_elem_of_In.
      assert (Ha : classId a = k).
      { rewrite Forall_forall in Fk. apply Fk.
        eapply elem_of_submseteq; [|exact Sub].
        eapply list_elem_of_lookup_2. exact Hi. }
      rewrite <- Ha, Hc. apply (final_class t rest b F).
      apply list_elem_of_In. eapply list_elem_of_lookup_2. exact Hj.
    + apply lookup_lt_Some in Hj. lia.
    + apply (IH (conj ND F) (i - length (keptOfClass t members))%nat
                (j - length (keptOfClass t members))%nat);
        [lia | assumption | assumption | assumption].
Qed.

(** X24.  Per-class suppression only selects: every candidate it
    reports is one it was given, none is reported more often than it was
    given, and two reported candidates of the same class are apart: the
    later one has no higher score, and its [iou] with the earlier one is
    at most the threshold. *)
Theorem nms_output_is_a_separated_selection (iouThresh : Q)
  (candidates : list Candidate) :
  nms iouThresh candidates ⊆+ candidates /\
  forall i j a b,
    (i < j)%nat ->
    nms iouThresh candidates !! i = Some a ->
    nms iouThresh candidates !! j = Some b ->
    classId a = classId b ->
    c_score b <= c_score a /\
    iou b a <= iouThresh /\ iou a b <= iouThresh.
Proof.
  destruct (groupByClass_spec candidates) as [Hg Hp].
  split.
  - assert (H : forall byClass : list (Z * list Candidate),
               flat_map (fun '(_, members) => keptOfClass iouThresh members)
                        byClass
               ⊆+ concat (map snd byClass)).
    { induction byClass as [|[k members] rest IH]; simpl.
      - reflexivity.
      - apply submseteq_app; [apply keptOfClass_spec | exact IH]. }
    unfold nms. etrans; [apply H|]. rewrite Hp. reflexivity.
  - intros i j a b Hij Hi Hj Hc.
    destruct (final_apart iouThresh _ Hg i j a b Hij Hi Hj Hc) as [Hs Ho].
    split; [exact Hs|]. split; [exact Ho|].
    rewrite (iou_sym a b). exact Ho.
Qed.

(** X25.  Per-class suppression loses no object: for every candidate
    there is a reported candidate of the same class with at least its
    score that is the candidate itself or overlaps it above the
    threshold. *)
Theorem nms_covers_every_candidate (iouThresh : Q)
  (candidates : list Candidate) (det : Candidate) :
  In det candidates ->
  exists kept,
    In kept (nms iouThresh candidates) /\
    classId kept = classId det /\
    c_score det <= c_score kept /\
    (kept = det \/ iouThresh < iou det kept).
Proof.
  intros Hin.
  destruct (groupByClass_spec candidates) as [[ND F] Hp].
  assert (Hc : In det (concat (map snd (groupByClass candidates)))).
  { apply list_elem_of_In. rewrite Hp. apply list_elem_of_In, Hin. }
  apply in_concat in Hc as (members & Hm & Hd).
  apply in_map_iff in Hm as ([k members'] & Ek & Hg). simpl in Ek. subst members'.
  rewrite Forall_forall in F.
  pose proof (F _ (proj2 (list_elem_of_In _ _) Hg)) as Fk. simpl in Fk.
  rewrite Forall_forall in Fk.
  destruct (keptOfClass_spec iouThresh members) as (Sub & _ & Cov).
  assert (Hfinal : forall kept, In kept (keptOfClass iouThresh members) ->
                     In kept (nms iouThresh candidates) /\
                     classId kept = classId det).
  { intros kept Hk. split.
    - unfold nms. apply in_flat_map. exists (k, members). auto.
    - rewrite (Fk det (proj2 (list_elem_of_In _ _) Hd)).
      apply Fk. eapply elem_of_submseteq; [|exact Sub].
      apply list_elem_of_In, Hk. }
  destruct (Cov det Hd) as [Hk | (kept & Hk & Hs & Ho)].
  - exists det. destruct (Hfinal det Hk) as [H1 H2].
    split; [exact H1|]. split; [reflexivity|]. split; [lra | left; reflexivity].
  - exists kept. destruct (Hfinal kept Hk) as [H1 H2]. auto.
Qed.

(** ** Mapping a box back to the image *)

Lemma clamp_range lo hi v : lo <= hi -> lo <= Qmax lo (Qmin hi v) <= hi.
Proof.
  intros H. split; [apply Q.le_max_l|].
  apply Q.max_lub; [exact H | apply Q.le_min_l].
Qed.

Lemma clamp_mono lo hi u v :
  u <= v -> Qmax lo (Qmin hi u) <= Qmax lo (Qmin hi v).
Proof.
  intros H. apply Q.max_le_compat_l. apply Q.min_le_compat_l. exact H.
Qed.

(** X26.  For a prediction of positive width and height, a positive
    scale and an image of positive size, the box mapped back to the
    image lies inside the image with its corners in order, and the
    normalised box lies in the unit square with its corners in order. *)
Theorem unletterbox_stays_inside_image (prep : Prep) (x y w h : Q)
  (label : string) (score : Q) (cls : Z) :
  0 < w -> 0 < h -> 0 < scale prep -> 0 < origW prep -> 0 < origH prep ->
  let '(bx0, by0, bx1, by1) := unletterbox prep x y w h in
  let d := {| c_label := label; c_score := score;
              x0 := bx0; y0 := by0; x1 := bx1; y1 := by1;
              classId := cls |} in
  let '(n0, n1, n2, n3) := Pipeline.r_bbox (normalise prep d) in
  (0 <= bx0 /\ bx0 <= bx1 /\ bx1 <= origW prep) /\
  (0 <= by0 /\ by0 <= by1 /\ by1 <= origH prep) /\
  well_formed d /\
  (0 <= n0 /\ n0 <= n2 /\ n2 <= 1) /\
  (0 <= n1 /\ n1 <= n3 /\ n3 <= 1).
Proof.
  intros Hw Hh Hs HW HH. unfold unletterbox. cbv zeta.
  cbn [normalise Pipeline.r_bbox x0 y0 x1 y1].
  set (l := (x - w / 2 - padX prep) / scale prep).
  set (r := (x + w / 2 - padX prep) / scale prep).
  set (t := (y - h / 2 - padY prep) / scale prep).
  set (b := (y + h / 2 - padY prep) / scale prep).
  assert (Hlr : l <= r).
  { unfold l, r, Qdiv. apply Qmult_le_compat_r.
    - assert (P : 0 < w * / 2)
        by (apply Qmult_lt_0_compat; [assumption | reflexivity]).
      set (half := w * / 2) in *. lra.
    - apply Qlt_le_weak, Qinv_lt_0_compat, Hs. }
  assert (Htb : t <= b).
  { unfold t, b, Qdiv. apply Qmult_le_compat_r.
    - assert (P : 0 < h * / 2)
        by (apply Qmult_lt_0_compat; [assumption | reflexivity]).
      set (half := h * / 2) in *. lra.
    - apply Qlt_le_weak, Qinv_lt_0_compat, Hs. }
  pose proof (clamp_range 0 (origW prep) l (Qlt_le_weak _ _ HW)) as [L0 L1].
  pose proof (clamp_range 0 (origW prep) r (Qlt_le_weak _ _ HW)) as [R0 R1].
  pose proof (clamp_range 0 (origH prep) t (Qlt_le_weak _ _ HH)) as [T0 T1].
  pose proof (clamp_range 0 (origH prep) b (Qlt_le_weak _ _ HH)) as [B0 B1].
  pose proof (clamp_mono 0 (origW prep) l r Hlr) as LR.
  pose proof (clamp_mono 0 (origH prep) t b Htb) as TB.
  set (bx0 := Qmax 0 (Qmin (origW prep) l)) in *.
  set (bx1 := Qmax 0 (Qmin (origW prep) r)) in *.
  set (by0 := Qmax 0 (Qmin (origH prep) t)) in *.
  set (by1 := Qmax 0 (Qmin (origH prep) b)) in *.
  split; [auto|]. split; [auto|]. split; [split; assumption|].
  split.
  - split; [apply Qle_shift_div_l; [exact HW | lra]|].
    split; [|apply Qle_shift_div_r; [exact HW | lra]].
    unfold Qdiv. apply Qmult_le_compat_r; [exact LR|].
    apply Qlt_le_weak, Qinv_lt_0_compat, HW.
  - split; [apply Qle_shift_div_l; [exact HH | lra]|].
    split; [|apply Qle_shift_div_r; [exact HH | lra]].
    unfold Qdiv. apply Qmult_le_compat_r; [exact TB|].
    apply Qlt_le_weak, Qinv_lt_0_compat, HH.
Qed.

(** ** The best class of a prediction *)

Lemma bestClass_snoc probs q :
  bestClass (probs ++ [q])
  = betterClass (bestClass probs) (Z.of_nat (length probs), q).
Proof.
  unfold bestClass. rewrite imap_app, fold_left_app. simpl.
  rewrite Nat.add_0_r. reflexivity.
Qed.

(** X27.  The class loop returns the first class of highest
    probability, when some probability is positive: no class has a
    higher probability and every class before it has a lower one.  When
    no probability is positive it returns class [-1] with probability 0. *)
Theorem bestClass_is_first_maximum (probs : list Q) :
  let '(c, p) := bestClass probs in
  (forall q, In q probs -> q <= p) /\
  (((c = -1)%Z /\ p = 0 /\ forall q, In q probs -> q <= 0) \/
   ((0 <= c)%Z /\ 0 < p /\ probs !! Z.to_nat c = Some p /\
    forall k q, (k < Z.to_nat c)%nat -> probs !! k = Some q -> q < p)).
Proof.
  induction probs as [|q probs IH] using rev_ind.
  - simpl. split; [intros q []|]. left. split; [reflexivity|].
    split; [reflexivity | intros q []].
  - rewrite bestClass_snoc. destruct (bestClass probs) as [c p].
    destruct IH as (Hmax & Hc). unfold betterClass. cbn [snd].
    destruct (Qltb p q) eqn:E.
    + apply Qltb_lt in E. split.
      * intros r Hr. apply in_app_or in Hr as [Hr|[<-|[]]]; [|lra].
        specialize (Hmax r Hr). lra.
      * right. rewrite Nat2Z.id. split; [lia|]. split.
        { destruct Hc as [(_ & -> & _) | (_ & Hp & _)]; lra. }
        split; [apply list_lookup_middle; reflexivity|].
        intros k r Hk Hr. rewrite lookup_app_l in Hr by exact Hk.
        assert (Hin : In r probs)
          by (apply list_elem_of_In; eapply list_elem_of_lookup_2; exact Hr).
        specialize (Hmax r Hin). lra.
    + apply Qltb_ge in E. split.
      * intros r Hr. apply in_app_or in Hr as [Hr|[<-|[]]]; [auto | exact E].
      * destruct Hc as [(Hc & Hp & Hall) | (Hc & Hp & Hl & Hbefore)].
        { left. split; [exact Hc|]. split; [exact Hp|].
          intros r Hr. apply in_app_or in Hr as [Hr|[<-|[]]]; [auto|].
          rewrite Hp in E. exact E. }
        { right. split; [exact Hc|]. split; [exact Hp|].
          split; [apply lookup_app_l_Some; exact Hl|].
          intros k r Hk Hr.
          assert (Hlt : (Z.to_nat c < length probs)%nat)
            by (eapply lookup_lt_Some; exact Hl).
          rewrite lookup_app_l in Hr by lia. eauto. }
Qed.

(** ** The letterbox *)

Lemma jsRound_integer (n : Z) : jsRound (inject_Z n) = n.
Proof.
  unfold jsRound.
  pose proof (Qfloor_le (inject_Z n + (1 # 2))) as U.
  pose proof (Qlt_floor (inject_Z n + (1 # 2))) as L.
  rewrite inject_Z_plus in L. change (inject_Z 1) with 1 in L.
  set (f := Qfloor (inject_Z n + (1 # 2))) in *.
  assert (A : (f < n + 1)%Z).
  { rewrite Zlt_Qlt, inject_Z_plus. change (inject_Z 1) with 1. lra. }
  assert (B : (n < f + 1)%Z).
  { rewrite Zlt_Qlt, inject_Z_plus. change (inject_Z 1) with 1.
    clearbody f. lra. }
  lia.
Qed.

Lemma jsRound_le (x : Q) (n : Z) : x <= inject_Z n -> (jsRound x <= n)%Z.
Proof.
  intros H. rewrite <- (jsRound_integer n). unfold jsRound.
  apply Qfloor_resp_le. lra.
Qed.

Lemma jsRound_nonneg (x : Q) : 0 <= x -> (0 <= jsRound x)%Z.
Proof.
  intros H. unfold jsRound. change 0%Z with (Qfloor 0).
  apply Qfloor_resp_le. lra.
Qed.

Lemma floor_half (n : Z) : Qfloor (inject_Z n / 2) = (n / 2)%Z.
Proof.
  unfold Qfloor, Qdiv, Qmult, inject_Z, Qinv. simpl.
  rewrite Z.mul_1_r. reflexivity.
Qed.

Lemma jsRound_positive (x : Q) : (1 # 2) <= x -> (1 <= jsRound x)%Z.
Proof.
  intros H. unfold jsRound.
  assert (F : (Qfloor 1 <= Qfloor (x + (1 # 2)))%Z)
    by (apply Qfloor_resp_le; lra).
  exact F.
Qed.

Lemma jsRound_zero (x : Q) : x < (1 # 2) -> (jsRound x <= 0)%Z.
Proof.
  intros H. unfold jsRound.
  pose proof (Qfloor_le (x + (1 # 2))) as U.
  assert (L : (Qfloor (x + (1 # 2)) < 1)%Z).
  { rewrite Zlt_Qlt. change (inject_Z 1) with 1.
    set (f := Qfloor (x + (1 # 2))) in *. clearbody f. lra. }
  lia.
Qed.

(** The resized length of a side of [n] pixels when the other side has
    [m]: at least half a pixel exactly when [m <= 2 * n * inputSize]. *)
Lemma resized_side (inputSize n m : Z) :
  (0 < inputSize)%Z -> (0 < n)%Z -> (0 < m)%Z ->
  let scale := Qmin (inject_Z inputSize / inject_Z n)
                    (inject_Z inputSize / inject_Z m) in
  inject_Z n * scale <= inject_Z inputSize /\
  ((m <= 2 * n * inputSize)%Z -> (1 # 2) <= inject_Z n * scale) /\
  ((2 * n * inputSize < m)%Z -> inject_Z n * scale < (1 # 2)) /\
  ((m <= n)%Z -> inject_Z n * scale == inject_Z inputSize).
Proof.
  intros HS Hn Hm. cbv zeta.
  assert (QS : 1 <= inject_Z inputSize)
    by (change 1 with (inject_Z 1); rewrite <- Zle_Qle; lia).
  assert (Qn : 0 < inject_Z n)
    by (change 0 with (inject_Z 0); rewrite <- Zlt_Qlt; exact Hn).
  assert (Qm : 0 < inject_Z m)
    by (change 0 with (inject_Z 0); rewrite <- Zlt_Qlt; exact Hm).
  set (sn := inject_Z inputSize / inject_Z n).
  set (sm := inject_Z inputSize / inject_Z m).
  assert (En : inject_Z n * sn == inject_Z inputSize) by (unfold sn; field; lra).
  assert (Em : inject_Z m * sm == inject_Z inputSize) by (unfold sm; field; lra).
  assert (Enm : inject_Z n * sm == inject_Z n * inject_Z inputSize / inject_Z m)
    by (unfold sm; field; lra).
  assert (Psn : 0 < sn) by (apply Qlt_shift_div_l; [exact Qn | lra]).
  assert (Psm : 0 < sm) by (apply Qlt_shift_div_l; [exact Qm | lra]).
  assert (Hge : (m <= 2 * n * inputSize)%Z -> (1 # 2) <= inject_Z n * sm).
  { intros H. rewrite Enm. apply Qle_shift_div_l; [exact Qm|].
    assert (H' : inject_Z m <= inject_Z (2 * n * inputSize))
      by (rewrite <- Zle_Qle; exact H).
    rewrite !inject_Z_mult in H'. change (inject_Z 2) with 2 in H'. lra. }
  assert (Hlt : (2 * n * inputSize < m)%Z -> inject_Z n * sm < (1 # 2)).
  { intros H. rewrite Enm. apply Qlt_shift_div_r; [exact Qm|].
    assert (H' : inject_Z (2 * n * inputSize) < inject_Z m)
      by (rewrite <- Zlt_Qlt; exact H).
    rewrite !inject_Z_mult in H'. change (inject_Z 2) with 2 in H'. lra. }
  assert (Mono : forall s, s <= sn -> inject_Z n * s <= inject_Z inputSize).
  { intros s Hs. rewrite <- En. rewrite !(Qmult_comm (inject_Z n)).
    apply Qmult_le_compat_r; [exact Hs | lra]. }
  destruct (Q.min_spec sn sm) as [[Hlt' E] | [Hle E]].
  - (* the scale is this side's *)
    split; [rewrite E; lra|].
    split; [intros _; rewrite E; lra|].
    split; [|intros _; rewrite E; exact En].
    intros H. exfalso. specialize (Hlt H).
    assert (inject_Z n * sn < inject_Z n * sm).
    { rewrite !(Qmult_comm (inject_Z n)). apply Qmult_lt_compat_r; assumption. }
    lra.
  - (* the scale is the other side's *)
    split; [rewrite E; apply Mono; exact Hle|].
    split; [intros H; rewrite E; exact (Hge H)|].
    split; [intros H; rewrite E; exact (Hlt H)|].
    intros H. rewrite E.
    assert (Hq : inject_Z m <= inject_Z n) by (rewrite <- Zle_Qle; exact H).
    assert (A : inject_Z m * sm <= inject_Z n * sm)
      by (apply Qmult_le_compat_r; lra).
    pose proof (Mono sm Hle) as B.
    apply Qle_antisym; lra.
Qed.

(** X28.  The letterbox of [preprocessImage], for an image of positive
    width and height and a positive input size.  If each side is less
    than [2 * inputSize] times the other, both resized sides are between
    1 and the input size and one of them is the input size; the paddings
    are not negative, the right and bottom ones are the left and top
    ones or one more, and each resized side with its two paddings is
    the input size.  If one side is more than [2 * inputSize] times the
    other, the short side is rounded to 0 and the function throws.  (At
    exactly [2 * inputSize] times, the short side is half a pixel, which
    rounding in binary64 can bring below one half: nothing is said of
    that case.)  The function also throws without a width or a height,
    or with one of them 0. *)
Theorem letterbox_fits_input (inputSize width height : Z) :
  (0 < inputSize)%Z -> (0 < width)%Z -> (0 < height)%Z ->
  ((height < 2 * width * inputSize)%Z ->
   (width < 2 * height * inputSize)%Z ->
   exists lb,
     letterbox inputSize (Some width) (Some height) = Some lb /\
     0 < lb_scale lb /\
     (1 <= lb_newW lb <= inputSize)%Z /\
     (1 <= lb_newH lb <= inputSize)%Z /\
     (lb_newW lb = inputSize \/ lb_newH lb = inputSize) /\
     (0 <= lb_padX lb <= lb_padRight lb)%Z /\
     (lb_padRight lb <= lb_padX lb + 1)%Z /\
     (0 <= lb_padY lb <= lb_padBottom lb)%Z /\
     (lb_padBottom lb <= lb_padY lb + 1)%Z /\
     (lb_padX lb + lb_newW lb + lb_padRight lb = inputSize)%Z /\
     (lb_padY lb + lb_newH lb + lb_padBottom lb = inputSize)%Z) /\
  ((2 * width * inputSize < height)%Z \/ (2 * height * inputSize < width)%Z ->
   letterbox inputSize (Some width) (Some height) = None) /\
  letterbox inputSize None (Some height) = None /\
  letterbox inputSize (Some width) None = None /\
  letterbox inputSize (Some 0%Z) (Some height) = None /\
  letterbox inputSize (Some width) (Some 0%Z) = None.
Proof.
  intros HS HW HH.
  assert (E1 : (width =? 0)%Z = false) by (apply Z.eqb_neq; lia).
  assert (E2 : (height =? 0)%Z = false) by (apply Z.eqb_neq; lia).
  destruct (resized_side inputSize width height HS HW HH)
    as (Lw & Gw & Zw & Fw).
  destruct (resized_side inputSize height width HS HH HW)
    as (Lh & Gh & Zh & Fh).
  cbv zeta in *.
  rewrite (Q.min_comm (inject_Z inputSize / inject_Z height)) in Lh, Gh, Zh, Fh.
  set (scale := Qmin (inject_Z inputSize / inject_Z width)
                     (inject_Z inputSize / inject_Z height)) in *.
  assert (Pscale : 0 < scale).
  { assert (0 < inject_Z inputSize)
      by (change 0 with (inject_Z 0); rewrite <- Zlt_Qlt; exact HS).
    assert (0 < inject_Z width)
      by (change 0 with (inject_Z 0); rewrite <- Zlt_Qlt; exact HW).
    assert (0 < inject_Z height)
      by (change 0 with (inject_Z 0); rewrite <- Zlt_Qlt; exact HH).
    unfold scale.
    destruct (Q.min_spec (inject_Z inputSize / inject_Z width)
                         (inject_Z inputSize / inject_Z height))
      as [[_ ->] | [_ ->]]; apply Qlt_shift_div_l; lra. }
  pose proof (jsRound_le _ _ Lw) as Uw.
  pose proof (jsRound_le _ _ Lh) as Uh.
  assert (Full : jsRound (inject_Z width * scale) = inputSize \/
                 jsRound (inject_Z height * scale) = inputSize).
  { destruct (Z.le_ge_cases height width) as [H|H].
    - left. unfold jsRound. rewrite (Fw H). apply jsRound_integer.
    - right. unfold jsRound. rewrite (Fh H). apply jsRound_integer. }
  split; [|split].
  - intros Hh Hw.
    pose proof (jsRound_positive _ (Gw ltac:(lia))) as Nw.
    pose proof (jsRound_positive _ (Gh ltac:(lia))) as Nh.
    unfold letterbox, default. cbn [from_option id].
    rewrite E1, E2. cbn [orb]. cbv zeta. fold scale.
    set (newW := jsRound (inject_Z width * scale)) in *.
    set (newH := jsRound (inject_Z height * scale)) in *.
    assert (T1 : (newW <=? 0)%Z = false) by (apply Z.leb_gt; lia).
    assert (T2 : (newH <=? 0)%Z = false) by (apply Z.leb_gt; lia).
    rewrite T1, T2. cbn [orb].
    eexists. split; [reflexivity|].
    cbn [lb_scale lb_newW lb_newH lb_padX lb_padY lb_padRight lb_padBottom].
    rewrite !floor_half.
    pose proof (Z.div_mod (inputSize - newW) 2 ltac:(lia)) as Dw.
    pose proof (Z.mod_pos_bound (inputSize - newW) 2 ltac:(lia)) as Mw.
    pose proof (Z.div_mod (inputSize - newH) 2 ltac:(lia)) as Dh.
    pose proof (Z.mod_pos_bound (inputSize - newH) 2 ltac:(lia)) as Mh.
    split; [exact Pscale|]. repeat split; lia.
  - intros Hthin.
    unfold letterbox, default. cbn [from_option id].
    rewrite E1, E2. cbn [orb]. cbv zeta. fold scale.
    assert (T : (jsRound (inject_Z width * scale) <=? 0)%Z
                || (jsRound (inject_Z height * scale) <=? 0)%Z = true).
    { apply orb_true_iff.
      destruct Hthin as [H|H].
      - left. apply Z.leb_le, jsRound_zero, Zw, H.
      - right. apply Z.leb_le, jsRound_zero, Zh, H. }
    rewrite T. reflexivity.
  - unfold letterbox. simpl. rewrite E1. repeat split; reflexivity.
Qed.

(** ** The number of mock detections *)

Lemma generateMockDetections_length (random : nat -> Q) :
  unit_draws random ->
  (1 <= length (generateMockDetections random) <= 3)%nat.
Proof.
  intros U. unfold generateMockDetections.
  destruct (U 0%nat) as [A0 B0].
  pose proof (floor_of_unit_draw (random 0%nat) 3 ltac:(lia) A0 B0) as H.
  change (inject_Z 3) with 3 in H.
  rewrite length_map, length_seq. lia.
Qed.

(** ** The properties at work *)

Import Examples Scenes.


Lemma nms_covers_every_candidate_witness :
  exists kept,
    In kept (nms (45 # 100) three_candidates) /\
    classId kept = 0%Z /\
    (7 # 10) <= c_score kept.
Proof.
  destruct (nms_covers_every_candidate (45 # 100) three_candidates
              (candidate "person" 0 (7 # 10) 100 200))
    as (kept & Hin & Hc & Hs & _).
  - left. reflexivity.
  - exists kept. auto.
Defined.

Lemma unletterbox_stays_inside_image_witness :
  let '(bx0, by0, bx1, by1) := unletterbox hd_prep 320 320 100 50 in
  0 <= bx0 /\ bx0 <= bx1 /\ bx1 <= origW hd_prep.
Proof.
  pose proof (unletterbox_stays_inside_image hd_prep 320 320 100 50
                "person" (7 # 10) 0 eq_refl eq_refl eq_refl eq_refl eq_refl)
    as H.
  destruct (unletterbox hd_prep 320 320 100 50) as [[[bx0 by0] bx1] by1].
  exact (proj1 H).
Defined.


Lemma letterbox_fits_input_witness :
  (exists lb,
      letterbox 640 (Some 1280%Z) (Some 720%Z) = Some lb /\
      (lb_newW lb = 640 \/ lb_newH lb = 640)%Z) /\
  letterbox 640 (Some 1%Z) (Some 2000%Z) = None.
Proof.
  split.
  - destruct (letterbox_fits_input 640 1280 720 eq_refl eq_refl eq_refl)
      as (Hfit & _).
    destruct Hfit as (lb & E & _ & _ & _ & F & _); [lia | lia |].
    exists lb. split; [exact E | exact F].
  - destruct (letterbox_fits_input 640 1 2000 eq_refl eq_refl eq_refl)
      as (_ & Hthin & _).
    apply Hthin. left. lia.
Defined.

End InferenceFacts.

Module DetectorFacts.

Import Metrics Pipeline PipelineFacts.

Section Config.

Variable maxQueueSize : Z.
Variable maxFrames : nat.

#[local] Abbreviation step := (Pipeline.step maxQueueSize maxFrames).

(** ** Detector failures *)

(** No way for the parts of the detector to end makes [detectObjects]
    throw: every function it calls catches its own errors. *)
Lemma detectObjects_never_throws isInitialized mode model attempt :
  exists detections,
    Detector.detectObjects isInitialized mode model attempt
    = Detector.Normal detections.
Proof.
  unfold Detector.detectObjects, Detector.initialize,
    Detector.runServerInference, Detector.runWasmInference,
    Detector.postprocessResults.
  destruct isInitialized, (Detector.initBody attempt) as [[]|], mode, model,
    (Detector.serverInference attempt) as [[]|],
    (Detector.postprocessBody attempt), (Detector.wasmBody attempt);
    simpl; eauto.
Qed.

(** C9 as the code has it.  A failure inside the detector does not
    reach [processNextFrame]: the promise of [detectObjects] resolves
    whatever happens in the functions it calls.  When the server
    inference throws while a frame is with the detector,
    [runServerInference] answers with [generateMockDetections()]:
    [processNextFrame] returns the frame's record with 1 to 3 mock
    detections, the flag is clear, the frame handler broadcasts the
    record and the metrics service records it as a processed frame (a
    record made for the timer is discarded); the next tick that finds a
    frame queued starts a fresh detector call.  When only the
    post-processing throws the detections are the empty list, and with
    no model loaded they are mock detections again. *)
Theorem detector_failure_containment (sv : Server) (k : nat) (p : Pending)
  (inferenceTs displayTs : Z) (isInitialized : bool) (attempt : Detector.Run) :
  inFlight sv !! k = Some p ->
  Inference.unit_draws (Detector.random attempt) ->
  Detector.serverInference attempt = Detector.Throw ->
  let outcome :=
    Detector.settle
      (Detector.detectObjects isInitialized Detector.ServerMode true attempt) in
  let mocks := Detector.mockDetections (Detector.random attempt) in
  let failed := step sv (DetectorSettles k outcome inferenceTs displayTs) in
  let r := {| frame_id := Pipeline.frameId (p_frame p);
              capture_ts := Pipeline.captureTs (p_frame p);
              recv_ts := Pipeline.recvTs (p_frame p);
              inference_ts := inferenceTs;
              detections := map toResultDetection mocks |} in
  outcome = Resolved mocks /\
  (1 <= length (detections r) <= 3)%nat /\
  snd (processNextFrame_end (webrtcService sv) (p_frame p) outcome inferenceTs)
  = Some r /\
  isProcessing (webrtcService failed) = false /\
  match p_origin p with
  | FromHandler =>
      broadcast failed = broadcast sv ++ [Some r] /\
      metricsService failed
      = recordFrame maxFrames (metricsService sv) (Some r) displayTs
  | FromTimer =>
      broadcast failed = broadcast sv /\
      metricsService failed = metricsService sv
  end /\
  (flag_counts_calls sv ->
   forall frame, last (frameQueue (webrtcService sv)) = Some frame ->
                 inFlight (step failed TimerTick)
                 = [{| p_frame := frame; p_origin := FromTimer |}]) /\
  (forall isInitialized' mode model attempt',
      Detector.settle
        (Detector.detectObjects isInitialized' mode model attempt') <> Rejected) /\
  (forall attempt',
      Detector.serverInference attempt' = Detector.Normal tt ->
      Detector.postprocessBody attempt' = Detector.Throw ->
      Detector.settle
        (Detector.detectObjects isInitialized Detector.ServerMode true attempt')
      = Resolved []) /\
  (forall attempt',
      Detector.settle
        (Detector.detectObjects isInitialized Detector.ServerMode false attempt')
      = Resolved (Detector.mockDetections (Detector.random attempt'))).
Proof.
  intros K U F. cbv zeta.
  assert (E : Detector.detectObjects isInitialized Detector.ServerMode true attempt
              = Detector.Normal (Detector.mockDetections (Detector.random attempt))).
  { unfold Detector.detectObjects, Detector.initialize,
      Detector.runServerInference.
    rewrite F.
    destruct isInitialized, (Detector.initBody attempt) as [[]|]; reflexivity. }
  rewrite E. cbn [Detector.settle].
  assert (L : (1 <= length (map toResultDetection
                              (Detector.mockDetections (Detector.random attempt)))
               <= 3)%nat).
  { unfold Detector.mockDetections. rewrite !length_map.
    exact (InferenceFacts.generateMockDetections_length
             (Detector.random attempt) U). }
  split; [reflexivity|]. split; [exact L|]. split; [reflexivity|].
  simpl. rewrite K. simpl.
  split; [destruct (p_origin p); reflexivity|].
  split; [destruct (p_origin p); split; reflexivity|].
  split.
  { intros Inv frame Lq.
    pose proof (settled_call_was_the_only_one sv k p Inv K) as Hd.
    assert (Hq : (0 <? length (frameQueue (webrtcService sv)))%nat = true)
      by (destruct (frameQueue (webrtcService sv)); [discriminate | reflexivity]).
    pose proof (processNextFrame_begin_last
                  {| frameQueue := frameQueue (webrtcService sv);
                     isProcessing := false |} frame Lq) as Hb.
    destruct (p_origin p); simpl; rewrite Hd, Hq, Hb; reflexivity. }
  split.
  { intros i mode model attempt'.
    destruct (detectObjects_never_throws i mode model attempt') as (d & ->).
    discriminate. }
  split.
  { intros attempt' Hs Hp.
    unfold Detector.detectObjects, Detector.initialize,
      Detector.runServerInference, Detector.postprocessResults.
    rewrite Hs, Hp.
    destruct isInitialized, (Detector.initBody attempt') as [[]|]; reflexivity. }
  intros attempt'.
  unfold Detector.detectObjects, Detector.initialize.
  destruct isInitialized, (Detector.initBody attempt') as [[]|]; reflexivity.
Qed.

End Config.

(** ** Concrete runs *)

Import Examples Scenes.

(** C9, refuted as stated.  Frame 0 is with the detector on behalf of
    the frame handler and the server inference throws.  The viewers are
    sent a record with two mock detections, not an empty detections
    list, and the frame is recorded as processed: the containment the
    specification describes does not hold. *)
Lemma detector_failure_not_as_specified :
  let outcome :=
    Detector.settle
      (Detector.detectObjects true Detector.ServerMode true
         failing_inference) in
  let failed :=
    Pipeline.step default_maxQueueSize default_maxFrames busy_server
                  (DetectorSettles 0 outcome 40 41) in
  inFlight busy_server
  = [{| p_frame := frame_n 0; p_origin := FromHandler |}] /\
  (exists r, last (broadcast failed) = Some (Some r) /\
             length (detections r) = 2%nat) /\
  processedFrames (metricsService failed)
  = (processedFrames (metricsService busy_server) + 1)%nat /\
  ~ contained_as_specified busy_server failed.
Proof.
  cbv zeta. split; [reflexivity|]. split; [|split; [reflexivity|]].
  - eexists. split; [vm_compute; reflexivity | reflexivity].
  - intros (M & _). apply (f_equal processedFrames) in M.
    vm_compute in M. discriminate.
Qed.

Lemma detector_failure_containment_witness :
  let outcome :=
    Detector.settle
      (Detector.detectObjects true Detector.ServerMode true
         failing_inference) in
  let failed :=
    Pipeline.step default_maxQueueSize default_maxFrames busy_server
                  (DetectorSettles 0 outcome 40 41) in
  outcome = Resolved (Detector.mockDetections half) /\
  isProcessing (webrtcService failed) = false.
Proof.
  cbv zeta.
  destruct (detector_failure_containment default_maxQueueSize
              default_maxFrames busy_server 0
              {| p_frame := frame_n 0; p_origin := FromHandler |} 40 41
              true failing_inference)
    as (Ho & _ & _ & Hf & _).
  - reflexivity.
  - intros k. split; [discriminate | reflexivity].
  - reflexivity.
  - split; [exact Ho | exact Hf].
Defined.

End DetectorFacts.

Module Binary64Facts.

Import PrimFloat Binary64.


(** On the unit square the binary64 value is 1, as in exact
    arithmetic. *)
Lemma calculateIoU64_unit_square :
  eqb (calculateIoU64 unit_square unit_square) 1 = true.
Proof. reflexivity. Qed.

(** Where the exact value is one half the binary64 value is the next
    double above it, so the cost cell is below one half: a threshold of
    0.5 is passed by the cell and not by the exact value. *)
Lemma calculateIoU64_above_exact_half :
  calculateIoU64 narrow twice_as_wide = 0x1.0000000000001p-1%float /\
  ltb (sub 1 (calculateIoU64 narrow twice_as_wide)) (sub 1 0x1p-1) = true.
Proof. split; reflexivity. Qed.

End Binary64Facts.
